(** * ASTRA (HPCShell) job-control engine: a shallow embedding of
      [queue.py], [parser.py], [executor.py] and [resource.py], and the
      properties of the specification settled on it. *)

From Stdlib Require Import ZArith List Bool Ascii String Lia.
From Stdlib Require Import Sorted Permutation RelationClasses Floats.
Import ListNotations.
Open Scope Z_scope.

(* ===================================================================== *)
(** * The Python runtime the sources rely on *)
(* ===================================================================== *)

Module Py.

(** Exceptions the modelled code can meet. *)
Inductive exn : Type :=
  | ValueError
  | KeyError
  | OverflowError
  | AttributeError
  | FileNotFoundError
  | PermissionError
  | IOError
  | KeyboardInterrupt
  | ProcessLookupError
  | NoSuchProcess
  | RuntimeError.

Definition exn_eqb (a b : exn) : bool :=
  match a, b with
  | ValueError, ValueError | KeyError, KeyError
  | OverflowError, OverflowError | AttributeError, AttributeError
  | FileNotFoundError, FileNotFoundError | PermissionError, PermissionError
  | IOError, IOError | KeyboardInterrupt, KeyboardInterrupt
  | ProcessLookupError, ProcessLookupError | NoSuchProcess, NoSuchProcess
  | RuntimeError, RuntimeError => true
  | _, _ => false
  end.

(** A computation either returns a value or raises. *)
Inductive result (A : Type) : Type :=
  | Ok (a : A)
  | Raise (e : exn).
Arguments Ok {A} a.
Arguments Raise {A} e.

Definition bind {A B : Type} (m : result A) (k : A -> result B) : result B :=
  match m with
  | Ok a => k a
  | Raise e => Raise e
  end.

(** The classes an [except] clause can name: an exception of the list
    above, or one of the base classes [OSError] (which [IOError] is another
    name of) and [Exception]. *)
Inductive exn_class : Type :=
  | Exactly (e : exn)
  | OSError
  | Exception.

(** [isinstance(e, c)] along Python's exception hierarchy:
    [FileNotFoundError], [PermissionError] and [ProcessLookupError] derive
    from [OSError]; everything but [KeyboardInterrupt] derives from
    [Exception]. *)
Definition isinstance (e : exn) (c : exn_class) : bool :=
  match c with
  | Exactly e' =>
      match e', e with
      | IOError, (FileNotFoundError | PermissionError | ProcessLookupError) =>
          true
      | _, _ => exn_eqb e e'
      end
  | OSError =>
      match e with
      | IOError | FileNotFoundError | PermissionError | ProcessLookupError =>
          true
      | _ => false
      end
  | Exception =>
      match e with
      | KeyboardInterrupt => false
      | _ => true
      end
  end.

(** [try: m except e: h] for one exception class. *)
Definition try_except {A : Type} (m : result A) (e : exn) (h : result A)
  : result A :=
  match m with
  | Ok a => Ok a
  | Raise e' => if isinstance e' (Exactly e) then h else Raise e'
  end.

Fixpoint mapM {A B : Type} (f : A -> result B) (l : list A)
  : result (list B) :=
  match l with
  | [] => Ok []
  | x :: l' =>
      bind (f x) (fun y => bind (mapM f l') (fun ys => Ok (y :: ys)))
  end.

(** ** Insertion-ordered dictionaries

    A Python [dict] keeps its keys in insertion order; assigning to a key
    that is present replaces the value in place, assigning to a new key
    appends the entry. *)
Section Dict.
Context {K V : Type}.
Variable eqb : K -> K -> bool.

Fixpoint dict_get (d : list (K * V)) (k : K) : option V :=
  match d with
  | [] => None
  | (k', v) :: d' => if eqb k' k then Some v else dict_get d' k
  end.

Fixpoint dict_set (d : list (K * V)) (k : K) (v : V) : list (K * V) :=
  match d with
  | [] => [(k, v)]
  | (k', v') :: d' =>
      if eqb k' k then (k', v) :: d' else (k', v') :: dict_set d' k v
  end.

Definition dict_mem (d : list (K * V)) (k : K) : bool :=
  match dict_get d k with Some _ => true | None => false end.

Definition dict_values (d : list (K * V)) : list V := map snd d.
Definition dict_keys (d : list (K * V)) : list K := map fst d.
End Dict.

(** ** [list.remove], [in] *)
Fixpoint list_mem (x : Z) (l : list Z) : bool :=
  match l with
  | [] => false
  | y :: l' => (y =? x) || list_mem x l'
  end.

(** [l.remove(x)]: drops the first occurrence (the callers test [x in l]
    first, so the [ValueError] of a missing element is never met). *)
Fixpoint list_remove (x : Z) (l : list Z) : list Z :=
  match l with
  | [] => []
  | y :: l' => if y =? x then l' else y :: list_remove x l'
  end.

(** ** [list.sort(key=...)]

    Python computes the key of every element first (an exception of the key
    function leaves the list as it was), then sorts stably, comparing keys
    with [<] only.  A stable sort has one possible result, so insertion from
    the left, each element placed behind the elements that are not greater,
    returns the list Timsort returns. *)
Section Sort.
Context {A Key : Type}.
Variable lt : Key -> Key -> bool.

Fixpoint insert_by (x : Key * A) (l : list (Key * A)) : list (Key * A) :=
  match l with
  | [] => [x]
  | y :: l' => if lt (fst x) (fst y) then x :: y :: l' else y :: insert_by x l'
  end.

Definition stable_sort (l : list (Key * A)) : list (Key * A) :=
  fold_left (fun acc x => insert_by x acc) l [].

Definition sort_by_key (key : A -> result Key) (l : list A)
  : result (list A) :=
  bind (mapM (fun x => bind (key x) (fun k => Ok (k, x))) l)
       (fun kl => Ok (map snd (stable_sort kl))).
End Sort.

(** ** Characters and [str] methods

    A Python [str] is modelled as a [string] of 8-bit characters; the
    functions below are those of Python on ASCII text. *)

Definition chr (n : nat) : ascii := ascii_of_nat n.

(** [c.isspace()] over the 8-bit range. *)
Definition isspace (c : ascii) : bool :=
  let n := nat_of_ascii c in
  ((9 <=? n) && (n <=? 13))%nat || ((28 <=? n) && (n <=? 32))%nat
  || (n =? 133)%nat || (n =? 160)%nat.

Definition upper_char (c : ascii) : ascii :=
  let n := nat_of_ascii c in
  if ((97 <=? n) && (n <=? 122))%nat then ascii_of_nat (n - 32) else c.

Definition lower_char (c : ascii) : ascii :=
  let n := nat_of_ascii c in
  if ((65 <=? n) && (n <=? 90))%nat then ascii_of_nat (n + 32) else c.

Fixpoint upper (s : string) : string :=
  match s with
  | EmptyString => EmptyString
  | String c s' => String (upper_char c) (upper s')
  end.

Fixpoint lower (s : string) : string :=
  match s with
  | EmptyString => EmptyString
  | String c s' => String (lower_char c) (lower s')
  end.

Fixpoint lstrip (s : string) : string :=
  match s with
  | EmptyString => EmptyString
  | String c s' => if isspace c then lstrip s' else s
  end.

Fixpoint rev_append (s acc : string) : string :=
  match s with
  | EmptyString => acc
  | String c s' => rev_append s' (String c acc)
  end.

Definition rev (s : string) : string := rev_append s EmptyString.

Definition rstrip (s : string) : string := rev (lstrip (rev s)).

(** [s.strip()] *)
Definition strip (s : string) : string := rstrip (lstrip s).

(** [s.endswith(t)] *)
Definition endswith (s t : string) : bool := String.prefix (rev t) (rev s).

(** [s.startswith(t)] *)
Definition startswith (s t : string) : bool := String.prefix t s.

(** [s[:-n]] for [n > 0]: all but the last [n] characters (empty when the
    string is shorter). *)
Definition drop_last (n : nat) (s : string) : string :=
  substring 0 (String.length s - n) s.

(** [s[n:]] *)
Fixpoint drop (n : nat) (s : string) : string :=
  match n, s with
  | O, _ => s
  | S n', EmptyString => EmptyString
  | S n', String _ s' => drop n' s'
  end.

(** [s.split()]: the maximal runs of non-whitespace characters. *)
Fixpoint split_ws_aux (cur : string) (s : string) : list string :=
  match s with
  | EmptyString =>
      match cur with EmptyString => [] | _ => [rev cur] end
  | String c s' =>
      if isspace c
      then match cur with
           | EmptyString => split_ws_aux EmptyString s'
           | _ => rev cur :: split_ws_aux EmptyString s'
           end
      else split_ws_aux (String c cur) s'
  end.

Definition split_ws (s : string) : list string := split_ws_aux EmptyString s.

(** [s.replace(old, '')]: every non-overlapping occurrence of [old], from
    the left, is removed; an empty [old] leaves [s] as it is. *)
Fixpoint remove_all (old s : string) (skip : nat) : string :=
  match s with
  | EmptyString => EmptyString
  | String c s' =>
      match skip with
      | S k => remove_all old s' k
      | O =>
          if String.prefix old s
          then remove_all old s' (String.length old - 1)
          else String c (remove_all old s' 0)
      end
  end.

Definition replace_with_empty (s old : string) : string :=
  match old with
  | EmptyString => s
  | _ => remove_all old s 0
  end.

(** ** [float] and [int]

    The whitespace [float] and [int] skip around a number: tab, line feed,
    vertical tab, form feed, carriage return and blank, and the two Latin-1
    spaces 133 and 160, which are read as a blank.  The separators 28 to
    31, which [str.strip] drops, are not among them. *)
Definition is_number_space (c : ascii) : bool :=
  let n := nat_of_ascii c in
  ((9 <=? n) && (n <=? 13))%nat || (n =? 32)%nat
  || (n =? 133)%nat || (n =? 160)%nat.

Fixpoint lstrip_number (s : string) : string :=
  match s with
  | EmptyString => EmptyString
  | String c s' => if is_number_space c then lstrip_number s' else s
  end.

Definition strip_number (s : string) : string :=
  rev (lstrip_number (rev (lstrip_number s))).

(** A float is NaN, an infinity, or a finite binary64 number
    [(-1)^neg * m * 2^e]. *)
Inductive pyfloat : Type :=
  | FNan
  | FInf (neg : bool)
  | FFin (neg : bool) (m : Z) (e : Z).

(** The binary64 number nearest to the positive rational [n / d], ties to
    the even mantissa: 53 bits of mantissa, unit in the last place no
    smaller than [2^-1074], infinity from [2^1024] on. *)
Definition round64 (neg : bool) (n d : Z) : pyfloat :=
  if n <=? 0 then FFin neg 0 0
  else
    let e0 := Z.log2 n - Z.log2 d in
    let below :=
      if 0 <=? e0 then n <? d * 2 ^ e0 else n * 2 ^ (- e0) <? d in
    let e := if below then e0 - 1 else e0 in
    let u := Z.max (e - 52) (-1074) in
    let num := if 0 <=? u then n else n * 2 ^ (- u) in
    let den := if 0 <=? u then d * 2 ^ u else d in
    let q := num / den in
    let r := num mod den in
    let m :=
      if 2 * r <? den then q
      else if den <? 2 * r then q + 1
      else if Z.even q then q else q + 1 in
    if (if 0 <=? u then 2 ^ 1024 <=? m * 2 ^ u else false)
    then FInf neg
    else FFin neg m u.

(** [x * k] for a float [x] and a positive integer [k] that a float holds
    exactly: the product, rounded. *)
Definition fmul_int (x : pyfloat) (k : Z) : pyfloat :=
  match x with
  | FNan => FNan
  | FInf neg => FInf neg
  | FFin neg m e =>
      if 0 <=? e then round64 neg (m * k * 2 ^ e) 1
      else round64 neg (m * k) (2 ^ (- e))
  end.

(** [int(x)]: truncation towards zero; [ValueError] for NaN,
    [OverflowError] for an infinity. *)
Definition int_of_float (x : pyfloat) : result Z :=
  match x with
  | FNan => Raise ValueError
  | FInf _ => Raise OverflowError
  | FFin neg m e =>
      let a := if 0 <=? e then m * 2 ^ e else m / 2 ^ (- e) in
      Ok (if neg then - a else a)
  end.

Definition is_digit (c : ascii) : bool :=
  let n := nat_of_ascii c in ((48 <=? n) && (n <=? 57))%nat.

Definition digit_value (c : ascii) : Z := Z.of_nat (nat_of_ascii c - 48).

(** [digitpart ::= digit (["_"] digit)*]: the digits read, their number, and
    the text behind them; [None] when the text starts with no digit. *)
Fixpoint digits_loop (s : string) (acc : Z) (count : Z) : Z * Z * string :=
  match s with
  | String c s' =>
      if is_digit c then digits_loop s' (10 * acc + digit_value c) (count + 1)
      else if Ascii.eqb c "_" then
        match s' with
        | String c2 s2 =>
            if is_digit c2
            then digits_loop s2 (10 * acc + digit_value c2) (count + 1)
            else (acc, count, s)
        | EmptyString => (acc, count, s)
        end
      else (acc, count, s)
  | EmptyString => (acc, count, s)
  end.

Definition digitpart (s : string) (acc : Z) : option (Z * Z * string) :=
  match s with
  | String c s' =>
      if is_digit c then Some (digits_loop s' (10 * acc + digit_value c) 1)
      else None
  | EmptyString => None
  end.

(** An optional sign. *)
Definition read_sign (s : string) : bool * string :=
  match s with
  | String c s' =>
      if Ascii.eqb c "-" then (true, s')
      else if Ascii.eqb c "+" then (false, s')
      else (false, s)
  | EmptyString => (false, s)
  end.

(** [exponent ::= ("e" | "E") [sign] digitpart], absent when nothing is
    left; [None] for anything else. *)
Definition read_exponent (s : string) : option Z :=
  match s with
  | EmptyString => Some 0
  | String c s' =>
      if Ascii.eqb c "e" || Ascii.eqb c "E" then
        let (neg, s1) := read_sign s' in
        match digitpart s1 0 with
        | Some (x, _, EmptyString) => Some (if neg then - x else x)
        | _ => None
        end
      else None
  end.

(** [number [exponent]] as a mantissa and a power of ten, with
    [number ::= [digitpart] "." digitpart | digitpart ["."]]. *)
Definition read_floatnumber (s : string) : option (Z * Z) :=
  match digitpart s 0 with
  | Some (ip, _, rest) =>
      match rest with
      | String c rest1 =>
          if Ascii.eqb c "." then
            match digitpart rest1 ip with
            | Some (m, k, rest2) =>
                option_map (fun x => (m, x - k)) (read_exponent rest2)
            | None => option_map (fun x => (ip, x)) (read_exponent rest1)
            end
          else option_map (fun x => (ip, x)) (read_exponent rest)
      | EmptyString => Some (ip, 0)
      end
  | None =>
      match s with
      | String c rest1 =>
          if Ascii.eqb c "." then
            match digitpart rest1 0 with
            | Some (m, k, rest2) =>
                option_map (fun x => (m, x - k)) (read_exponent rest2)
            | None => None
            end
          else None
      | EmptyString => None
      end
  end.

(** [float(s)]: surrounding whitespace is dropped, case is not significant,
    and the decimal number is rounded to the nearest binary64. *)
Definition float_of_str (s : string) : result pyfloat :=
  let (neg, body) := read_sign (strip_number s) in
  let word := lower body in
  if String.eqb word "inf" || String.eqb word "infinity" then Ok (FInf neg)
  else if String.eqb word "nan" then Ok FNan
  else
    match read_floatnumber body with
    | Some (m, x) =>
        if 0 <=? x then Ok (round64 neg (m * 10 ^ x) 1)
        else Ok (round64 neg m (10 ^ (- x)))
    | None => Raise ValueError
    end.

(** [sys.int_info.default_max_str_digits]: the number of digits beyond
    which [int] refuses a text. *)
Definition max_str_digits : Z := 4300.

(** [int(s)] for a string: an optional sign and a [digitpart], with
    surrounding whitespace dropped; [ValueError] also for a text of more
    than [max_str_digits] digits. *)
Definition int_of_str (s : string) : result Z :=
  let (neg, body) := read_sign (strip_number s) in
  match digitpart body 0 with
  | Some (x, digits, EmptyString) =>
      if max_str_digits <? digits then Raise ValueError
      else Ok (if neg then - x else x)
  | _ => Raise ValueError
  end.

End Py.

(* ===================================================================== *)
(** * queue.py: the job queue *)
(* ===================================================================== *)

Module Queue.
Import Py.

(** [class Priority(Enum)] *)
Inductive Priority : Type := LOW | NORMAL | HIGH | CRITICAL.

Definition value (p : Priority) : Z :=
  match p with
  | LOW => 3
  | NORMAL => 2
  | HIGH => 1
  | CRITICAL => 0
  end.

(** [Priority[name]]: lookup of a member by name, [KeyError] otherwise. *)
Definition Priority_getitem (name : string) : result Priority :=
  if String.eqb name "LOW" then Ok LOW
  else if String.eqb name "NORMAL" then Ok NORMAL
  else if String.eqb name "HIGH" then Ok HIGH
  else if String.eqb name "CRITICAL" then Ok CRITICAL
  else Raise KeyError.

(** The values the [status] field takes
    ([# queued, running, completed, failed, cancelled]). *)
Inductive Status : Type := queued | running | completed | failed | cancelled.

Definition Status_eqb (a b : Status) : bool :=
  match a, b with
  | queued, queued | running, running | completed, completed
  | failed, failed | cancelled, cancelled => true
  | _, _ => false
  end.

(** [@dataclass class Job].  Timestamps are readings of [time.time()]; only
    their order is used, so a reading is an integer number of clock ticks. *)
Record Job : Type := mkJob {
  job_id : Z;
  command : string;
  args : list string;
  priority : Priority;
  queue : string;
  cores : Z;
  memory : string;
  created_at : Z;
  started_at : option Z;
  completed_at : option Z;
  status : Status;
  process_id : option Z;
  return_code : option Z
}.

Definition set_status (j : Job) (s : Status) : Job :=
  mkJob (job_id j) (command j) (args j) (priority j) (queue j) (cores j)
        (memory j) (created_at j) (started_at j) (completed_at j) s
        (process_id j) (return_code j).

Definition set_started_at (j : Job) (t : Z) : Job :=
  mkJob (job_id j) (command j) (args j) (priority j) (queue j) (cores j)
        (memory j) (created_at j) (Some t) (completed_at j) (status j)
        (process_id j) (return_code j).

Definition set_completed_at (j : Job) (t : Z) : Job :=
  mkJob (job_id j) (command j) (args j) (priority j) (queue j) (cores j)
        (memory j) (created_at j) (started_at j) (Some t) (status j)
        (process_id j) (return_code j).

Definition set_return_code (j : Job) (rc : Z) : Job :=
  mkJob (job_id j) (command j) (args j) (priority j) (queue j) (cores j)
        (memory j) (created_at j) (started_at j) (completed_at j) (status j)
        (process_id j) (Some rc).

(** [class JobQueue]: [self.jobs], [self.queues], [self.next_job_id]. *)
Record JobQueue : Type := mkJobQueue {
  jobs : list (Z * Job);
  queues : list (string * list Z);
  next_job_id : Z
}.

(** What [config.get('scheduler', 'queues')] can hand to [__init__]. *)
Inductive queues_config : Type :=
  | CfgNone
  | CfgList (names : list string)
  | CfgDict (nonempty : bool).

(** [__init__]: [queue_names = config.get(...) or ['default']], a dict is
    replaced by [['default']], and every name gets an empty queue. *)
Definition init (cfg : queues_config) : JobQueue :=
  let queue_names :=
    match cfg with
    | CfgNone => ["default"%string]
    | CfgList [] => ["default"%string]
    | CfgList names => names
    | CfgDict _ => ["default"%string]
    end in
  mkJobQueue []
    (fold_left (fun qs name => dict_set String.eqb qs name []) queue_names [])
    1.

(** The sort key [(self.jobs[jid].priority.value, self.jobs[jid].created_at)]. *)
Definition sort_key (js : list (Z * Job)) (jid : Z) : result (Z * Z) :=
  match dict_get Z.eqb js jid with
  | Some j => Ok (value (priority j), created_at j)
  | None => Raise KeyError
  end.

(** Tuple comparison [a < b]. *)
Definition key_lt (a b : Z * Z) : bool :=
  (fst a <? fst b) || ((fst a =? fst b) && (snd a <? snd b)).

(** [_sort_queue(queue)] *)
Definition _sort_queue (q : JobQueue) (name : string)
  : result unit * JobQueue :=
  match dict_get String.eqb (queues q) name with
  | None => (Ok tt, q)
  | Some job_ids =>
      match sort_by_key key_lt (sort_key (jobs q)) job_ids with
      | Ok sorted =>
          (Ok tt,
           mkJobQueue (jobs q) (dict_set String.eqb (queues q) name sorted)
                      (next_job_id q))
      | Raise e => (Raise e, q)
      end
  end.

(** [submit_job]; [now] is the reading of [time.time()] that the dataclass
    default takes for [created_at]. *)
Definition submit_job (now : Z) (command : string) (args : list string)
    (queue priority : string) (cores : Z) (memory : string) (q : JobQueue)
  : result Z * JobQueue :=
  let priority_enum :=
    match Priority_getitem (upper priority) with
    | Ok p => p
    | Raise _ => NORMAL
    end in
  let job := mkJob (next_job_id q) command args priority_enum queue cores
                   memory now None None queued None None in
  let jobs1 := dict_set Z.eqb (jobs q) (next_job_id q) job in
  let queues1 :=
    if dict_mem String.eqb (queues q) queue then queues q
    else dict_set String.eqb (queues q) queue [] in
  let queues2 :=
    match dict_get String.eqb queues1 queue with
    | Some ids => dict_set String.eqb queues1 queue (ids ++ [next_job_id q])
    | None => queues1
    end in
  let q2 := mkJobQueue jobs1 queues2 (next_job_id q) in
  match _sort_queue q2 queue with
  | (Ok _, q3) =>
      (Ok (next_job_id q),
       mkJobQueue (jobs q3) (queues q3) (next_job_id q + 1))
  | (Raise e, q3) => (Raise e, q3)
  end.

(** [get_next_job] *)
Definition get_next_job (name : string) (q : JobQueue)
  : result (option Job) :=
  match dict_get String.eqb (queues q) name with
  | None => Ok None
  | Some [] => Ok None
  | Some (jid :: _) =>
      match dict_get Z.eqb (jobs q) jid with
      | None => Raise KeyError
      | Some job =>
          if Status_eqb (status job) queued then Ok (Some job) else Ok None
      end
  end.

(** [start_job] *)
Definition start_job (now : Z) (jid : Z) (q : JobQueue) : bool * JobQueue :=
  match dict_get Z.eqb (jobs q) jid with
  | None => (false, q)
  | Some job =>
      let job' := set_started_at (set_status job running) now in
      (true,
       mkJobQueue (dict_set Z.eqb (jobs q) jid job') (queues q)
                  (next_job_id q))
  end.

(** The loop [for queue_name, job_ids in self.queues.items(): if job_id in
    job_ids: job_ids.remove(job_id)]. *)
Definition remove_from_queues (jid : Z) (qs : list (string * list Z))
  : list (string * list Z) :=
  map (fun entry =>
         (fst entry,
          if list_mem jid (snd entry) then list_remove jid (snd entry)
          else snd entry)) qs.

(** [complete_job] *)
Definition complete_job (now : Z) (jid : Z) (rc : Z) (q : JobQueue)
  : bool * JobQueue :=
  match dict_get Z.eqb (jobs q) jid with
  | None => (false, q)
  | Some job =>
      let job' :=
        set_return_code (set_completed_at (set_status job completed) now) rc in
      (true,
       mkJobQueue (dict_set Z.eqb (jobs q) jid job')
                  (remove_from_queues jid (queues q)) (next_job_id q))
  end.

(** [cancel_job] *)
Definition cancel_job (jid : Z) (q : JobQueue) : bool * JobQueue :=
  match dict_get Z.eqb (jobs q) jid with
  | None => (false, q)
  | Some job =>
      match status job with
      | running | completed => (false, q)
      | _ =>
          (true,
           mkJobQueue (dict_set Z.eqb (jobs q) jid (set_status job cancelled))
                      (remove_from_queues jid (queues q)) (next_job_id q))
      end
  end.

(** [get_job] *)
Definition get_job (jid : Z) (q : JobQueue) : option Job :=
  dict_get Z.eqb (jobs q) jid.

(** [get_jobs(queue=None, status=None)]; an empty queue name is falsy and
    filters nothing. *)
Definition get_jobs (queue_filter : option string)
    (status_filter : option Status) (q : JobQueue) : list Job :=
  let all := dict_values (jobs q) in
  let by_queue :=
    match queue_filter with
    | None | Some EmptyString => all
    | Some name => filter (fun j => String.eqb (queue j) name) all
    end in
  match status_filter with
  | None => by_queue
  | Some s => filter (fun j => Status_eqb (status j) s) by_queue
  end.

(** The dictionary [get_queue_stats] returns. *)
Record QueueStats : Type := mkStats {
  stats_queue : string;
  total_jobs : nat;
  n_queued : nat;
  n_running : nat;
  n_completed : nat;
  n_failed : nat;
  n_cancelled : nat
}.

Definition count_status (s : Status) (l : list Job) : nat :=
  List.length (filter (fun j => Status_eqb (status j) s) l).

(** [get_queue_stats] *)
Definition get_queue_stats (name : string) (q : JobQueue)
  : result QueueStats :=
  let ids :=
    match dict_get String.eqb (queues q) name with
    | Some ids => ids
    | None => []
    end in
  bind (mapM (fun jid =>
                match dict_get Z.eqb (jobs q) jid with
                | Some j => Ok j
                | None => Raise KeyError
                end) ids)
       (fun js =>
          Ok (mkStats name (List.length js) (count_status queued js)
                (count_status running js) (count_status completed js)
                (count_status failed js) (count_status cancelled js))).

(** The calls a client of the queue can make, each with the clock reading it
    takes and its arguments. *)
Inductive op : Type :=
  | OpSubmit (now : Z) (command : string) (args : list string)
             (queue priority : string) (cores : Z) (memory : string)
  | OpStart (now : Z) (jid : Z)
  | OpComplete (now : Z) (jid : Z) (rc : Z)
  | OpCancel (jid : Z).

Definition run_op (o : op) (q : JobQueue) : JobQueue :=
  match o with
  | OpSubmit now c a qn p k m => snd (submit_job now c a qn p k m q)
  | OpStart now jid => snd (start_job now jid q)
  | OpComplete now jid rc => snd (complete_job now jid rc q)
  | OpCancel jid => snd (cancel_job jid q)
  end.

Definition run_ops (os : list op) (q : JobQueue) : JobQueue :=
  fold_left (fun st o => run_op o st) os q.

(** The states some finite sequence of calls leads to. *)
Inductive reachable (cfg : queues_config) : JobQueue -> Prop :=
  | reach_init : reachable cfg (init cfg)
  | reach_step : forall q o, reachable cfg q -> reachable cfg (run_op o q).

Definition status_of (jid : Z) (q : JobQueue) : option Status :=
  option_map status (get_job jid q).

Definition queue_ids (name : string) (q : JobQueue) : option (list Z) :=
  dict_get String.eqb (queues q) name.

(** What one call does to the status [s] of the job [jid], read off the
    assignments to [job.status] in [start_job], [complete_job] and
    [cancel_job]. *)
Definition next_status (o : op) (jid : Z) (s : Status) : Status :=
  match o with
  | OpSubmit _ _ _ _ _ _ _ => s
  | OpStart _ j => if j =? jid then running else s
  | OpComplete _ j _ => if j =? jid then completed else s
  | OpCancel j =>
      if j =? jid
      then match s with
           | running | completed => s
           | _ => cancelled
           end
      else s
  end.

(** A submission with the default command, cores and memory. *)
Definition submit_op (now : Z) (qn priority : string) : op :=
  OpSubmit now "job" [] qn priority 1 "1GB".

(** Ascending order of the sort keys: [(priority value, created_at)]. *)
Definition key_le (a b : Z * Z) : Prop :=
  fst a < fst b \/ (fst a = fst b /\ snd a <= snd b).

(** The job ids [ids] all name jobs of [js] and stand in ascending order of
    [(priority.value, created_at)]. *)
Definition ids_sorted (js : list (Z * Job)) (ids : list Z) : Prop :=
  exists ks, mapM (sort_key js) ids = Ok ks /\ StronglySorted key_le ks.

(** The job ids allocated before [next]: 1, 2, ..., [next - 1]. *)
Definition ids_before (next : Z) : list Z :=
  map Z.of_nat (seq 1 (Z.to_nat next - 1)).

(** The clock readings of the submissions among the calls [os], in the
    order of the calls. *)
Fixpoint submit_times (os : list op) : list Z :=
  match os with
  | [] => []
  | OpSubmit now _ _ _ _ _ _ :: os' => now :: submit_times os'
  | _ :: os' => submit_times os'
  end.

(** No submission read a smaller [time.time()] than an earlier one. *)
Definition clock_steady (os : list op) : Prop :=
  StronglySorted Z.le (submit_times os).

End Queue.

(* ===================================================================== *)
(** * parser.py: the command-line parser *)
(* ===================================================================== *)

Module Parser.
Import Py.

(** The redirection operators the pattern [(>>?|<|2>|&>)] matches. *)
Inductive redirect_op : Type :=
  | RAppend   (* >> *)
  | ROut      (* > *)
  | RIn       (* < *)
  | RErr      (* 2> *)
  | RBoth.    (* &> *)

Definition redirect_op_eqb (a b : redirect_op) : bool :=
  match a, b with
  | RAppend, RAppend | ROut, ROut | RIn, RIn | RErr, RErr | RBoth, RBoth => true
  | _, _ => false
  end.

(** The dictionary [_parse_single_command] returns for one pipeline stage. *)
Record descriptor : Type := mkDescriptor {
  command : string;
  args : list string;
  redirects : list (redirect_op * string);
  background : bool;
  pipe_from : bool;
  pipe_to : bool;
  raw : string
}.

Definition is_empty (s : string) : bool :=
  match s with EmptyString => true | _ => false end.

(** ** [shlex.split]

    [shlex.split(s)] runs the lexer of the standard library in POSIX mode
    with [whitespace_split] set and no comment characters: whitespace is
    space, tab, carriage return and line feed, the quotes are the single and
    the double quote, the escape is the backslash, which keeps its meaning
    inside double quotes only. *)

Definition is_shlex_whitespace (c : ascii) : bool :=
  Ascii.eqb c " " || Ascii.eqb c "009" || Ascii.eqb c "013" || Ascii.eqb c "010".

Definition is_quote (c : ascii) : bool :=
  Ascii.eqb c "'" || Ascii.eqb c "034".

Definition is_escape (c : ascii) : bool := Ascii.eqb c "\".

(** [self.state]: [' '], ['a'], a quote character, or the escape character
    together with [escapedstate] (['a'] or the quote it was met in). *)
Inductive lex_state : Type :=
  | StWhitespace
  | StWord
  | StQuote (q : ascii)
  | StEscape (escapedstate : option ascii).

(** The end of [read_token]: a token that is empty and was not quoted is
    [None], which ends the iteration; any other token is yielded and the
    lexer goes on.  The token is held reversed. *)
Definition emit (token : string) (quoted : bool) (rest : result (list string))
  : result (list string) :=
  if negb quoted && is_empty token then Ok []
  else bind rest (fun l => Ok (rev token :: l)).

(** [read_token], called until the input is exhausted. *)
Fixpoint lex (s : string) (state : lex_state) (token : string) (quoted : bool)
  {struct s} : result (list string) :=
  match s with
  | EmptyString =>
      match state with
      | StWhitespace | StWord => emit token quoted (Ok [])
      | StQuote _ => Raise ValueError      (* No closing quotation *)
      | StEscape _ => Raise ValueError     (* No escaped character *)
      end
  | String c s' =>
      match state with
      | StWhitespace =>
          if is_shlex_whitespace c then
            if negb (is_empty token) || quoted
            then emit token quoted (lex s' StWhitespace EmptyString false)
            else lex s' StWhitespace token quoted
          else if is_escape c then lex s' (StEscape None) token quoted
          else if is_quote c then lex s' (StQuote c) token quoted
          else lex s' StWord (String c EmptyString) quoted
      | StWord =>
          if is_shlex_whitespace c then
            if negb (is_empty token) || quoted
            then emit token quoted (lex s' StWhitespace EmptyString false)
            else lex s' StWhitespace token quoted
          else if is_quote c then lex s' (StQuote c) token quoted
          else if is_escape c then lex s' (StEscape None) token quoted
          else lex s' StWord (String c token) quoted
      | StQuote q =>
          if Ascii.eqb c q then lex s' StWord token true
          else if is_escape c && Ascii.eqb q "034"
          then lex s' (StEscape (Some q)) token true
          else lex s' (StQuote q) (String c token) true
      | StEscape escapedstate =>
          match escapedstate with
          | Some q =>
              if negb (is_escape c) && negb (Ascii.eqb c q)
              then lex s' (StQuote q) (String c (String "\" token)) quoted
              else lex s' (StQuote q) (String c token) quoted
          | None => lex s' StWord (String c token) quoted
          end
      end
  end.

Definition shlex_split (s : string) : result (list string) :=
  lex s StWhitespace EmptyString false.

(** ** The pattern [(>>?|<|2>|&>)]

    [finditer] scans from the left; at each position the alternatives are
    tried in order, [>>?] greedily, and a match is skipped over. *)

(** The match at the head of [s], if there is one, with the text behind it. *)
Definition redirect_at (s : string) : option (redirect_op * string) :=
  match s with
  | EmptyString => None
  | String c s1 =>
      if Ascii.eqb c ">" then
        match s1 with
        | String c2 s2 =>
            if Ascii.eqb c2 ">" then Some (RAppend, s2) else Some (ROut, s1)
        | EmptyString => Some (ROut, s1)
        end
      else if Ascii.eqb c "<" then Some (RIn, s1)
      else if Ascii.eqb c "2" then
        match s1 with
        | String c2 s2 => if Ascii.eqb c2 ">" then Some (RErr, s2) else None
        | EmptyString => None
        end
      else if Ascii.eqb c "&" then
        match s1 with
        | String c2 s2 => if Ascii.eqb c2 ">" then Some (RBoth, s2) else None
        | EmptyString => None
        end
      else None
  end.

(** [list(redirect_pattern.finditer(s))]: each match as its operator
    ([match.group(1)]) and the text [s[match.end():]]. *)
Fixpoint finditer (s : string) (skip : nat) : list (redirect_op * string) :=
  match s with
  | EmptyString => []
  | String c s' =>
      match skip with
      | S k => finditer s' k
      | O =>
          match redirect_at s with
          | Some (op, rest) =>
              (op, rest) :: finditer s' (String.length s - String.length rest - 1)
          | None => finditer s' 0
          end
      end
  end.

(** [redirect_pattern.sub('', s)] *)
Fixpoint sub_empty (s : string) (skip : nat) : string :=
  match s with
  | EmptyString => EmptyString
  | String c s' =>
      match skip with
      | S k => sub_empty s' k
      | O =>
          match redirect_at s with
          | Some (op, rest) =>
              sub_empty s' (String.length s - String.length rest - 1)
          | None => String c (sub_empty s' 0)
          end
      end
  end.

(** The body of the loop over the matches: the token behind the operator,
    when there is one. *)
Definition filename_after (rest : string) : option string :=
  let rest := strip rest in
  if is_empty rest then None
  else
    match shlex_split rest with
    | Ok (filename :: _) => Some filename
    | Ok [] => None
    | Raise _ => None
    end.

(** [for match in reversed(redirect_matches): ...] *)
Definition collect_redirects (matches : list (redirect_op * string))
  : list (redirect_op * string) :=
  fold_left
    (fun redirects m =>
       match filename_after (snd m) with
       | Some filename => dict_set redirect_op_eqb redirects (fst m) filename
       | None => redirects
       end)
    (List.rev matches) [].

(** The first half of [_parse_single_command]: the redirections and what
    remains of the stage once the operators and the filenames are removed. *)
Definition extract_redirects (cmd_str : string)
  : list (redirect_op * string) * string :=
  match finditer cmd_str 0 with
  | [] => ([], cmd_str)
  | redirect_matches =>
      let redirects := collect_redirects redirect_matches in
      (redirects,
       fold_left replace_with_empty (dict_values redirects)
                 (sub_empty cmd_str 0))
  end.

(** [_parse_single_command] *)
Definition _parse_single_command (cmd_str : string) : result descriptor :=
  let (redirects, remaining) := extract_redirects cmd_str in
  bind (try_except (shlex_split remaining) ValueError (Ok (split_ws remaining)))
       (fun tokens =>
          match tokens with
          | [] => Ok (mkDescriptor EmptyString [] redirects false false false
                                   cmd_str)
          | command :: args =>
              Ok (mkDescriptor command args redirects false false false cmd_str)
          end).

(** [_split_pipes]: [prev] is [line[i-1]], absent at [i == 0]; [current]
    is held reversed. *)
Fixpoint split_pipes_loop (line : string) (prev : option ascii)
    (in_quotes : bool) (quote_char : option ascii) (current : string)
  : list string :=
  match line with
  | EmptyString =>
      if is_empty current then [] else [strip (rev current)]
  | String char rest =>
      let unescaped :=
        match prev with
        | None => true
        | Some p => negb (Ascii.eqb p "\")
        end in
      let '(in_quotes, quote_char) :=
        if is_quote char && unescaped then
          if negb in_quotes then (true, Some char)
          else
            match quote_char with
            | Some q => if Ascii.eqb char q then (false, None)
                        else (in_quotes, quote_char)
            | None => (in_quotes, quote_char)
            end
        else (in_quotes, quote_char) in
      if Ascii.eqb char "|" && negb in_quotes then
        if is_empty current
        then split_pipes_loop rest (Some char) in_quotes quote_char current
        else strip (rev current)
             :: split_pipes_loop rest (Some char) in_quotes quote_char
                                 EmptyString
      else split_pipes_loop rest (Some char) in_quotes quote_char
                            (String char current)
  end.

Definition _split_pipes (line : string) : list string :=
  split_pipes_loop line None false None EmptyString.

(** The loop of [parse] over [enumerate(pipe_parts)]. *)
Fixpoint parse_parts (parts : list string) (i : nat) (n : nat)
    (background : bool) : result (list descriptor) :=
  match parts with
  | [] => Ok []
  | part :: parts' =>
      bind (_parse_single_command part) (fun cmd =>
      bind (parse_parts parts' (S i) n background) (fun cmds =>
        Ok (mkDescriptor (command cmd) (args cmd) (redirects cmd)
              (background && (i =? n - 1)%nat)
              (0 <? i)%nat
              (i <? n - 1)%nat
              (raw cmd)
            :: cmds)))
  end.

(** The unit tables of [_parse_memory] and [_parse_time], in the order of
    the dictionary. *)
Definition memory_units : list (string * Z) :=
  [("B", 1); ("KB", 1024); ("MB", 1024 ^ 2); ("GB", 1024 ^ 3);
   ("TB", 1024 ^ 4)]%string.

Definition time_units : list (string * Z) :=
  [("s", 1); ("m", 60); ("h", 3600); ("d", 86400)]%string.

(** The loop [for unit, multiplier in units.items()]: the first unit the
    text ends with and whose prefix converts returns; a [ValueError] of the
    conversion goes on to the next unit, any other exception leaves the
    function.  [None]: the loop ended without returning. *)
Fixpoint try_units (units : list (string * Z)) (text : string)
  : result (option Z) :=
  match units with
  | [] => Ok None
  | (unit, multiplier) :: units' =>
      if endswith text unit then
        match bind (float_of_str (drop_last (String.length unit) text))
                   (fun value => int_of_float (fmul_int value multiplier)) with
        | Ok n => Ok (Some n)
        | Raise e =>
            if isinstance e (Exactly ValueError) then try_units units' text
            else Raise e
        end
      else try_units units' text
  end.

(** [_parse_memory] *)
Definition _parse_memory (mem_str : string) : result Z :=
  let mem_str := upper mem_str in
  bind (try_units memory_units mem_str) (fun found =>
    match found with
    | Some n => Ok n
    | None =>
        try_except
          (bind (float_of_str mem_str)
                (fun value => int_of_float (fmul_int value (1024 ^ 2))))
          ValueError (Ok 0)
    end).

(** [_parse_time] *)
Definition _parse_time (time_str : string) : result Z :=
  let time_str := lower time_str in
  bind (try_units time_units time_str) (fun found =>
    match found with
    | Some n => Ok n
    | None =>
        try_except (bind (float_of_str time_str) int_of_float)
                   ValueError (Ok 0)
    end).

(** The [options] dictionary of [parse_hpc_options]. *)
Record hpc_options : Type := mkOptions {
  opt_cores : option Z;
  opt_memory : option Z;
  opt_time : option Z;
  opt_priority : string;
  opt_queue : string;
  opt_gpu : option Z;
  opt_nodes : option Z
}.

Definition default_options : hpc_options :=
  mkOptions None None None "normal" "default" None (Some 1).

(** The assignment [options[option] = ...] for a recognised option name;
    [None] when [option not in options]. *)
Definition set_option (o : hpc_options) (name value : string)
  : option (result hpc_options) :=
  let int_or_keep (old : option Z) : option Z :=
    match int_of_str value with Ok n => Some n | Raise _ => old end in
  if String.eqb name "cores" then
    Some (Ok (mkOptions (int_or_keep (opt_cores o)) (opt_memory o) (opt_time o)
                (opt_priority o) (opt_queue o) (opt_gpu o) (opt_nodes o)))
  else if String.eqb name "nodes" then
    Some (Ok (mkOptions (opt_cores o) (opt_memory o) (opt_time o)
                (opt_priority o) (opt_queue o) (opt_gpu o)
                (int_or_keep (opt_nodes o))))
  else if String.eqb name "gpu" then
    Some (Ok (mkOptions (opt_cores o) (opt_memory o) (opt_time o)
                (opt_priority o) (opt_queue o) (int_or_keep (opt_gpu o))
                (opt_nodes o)))
  else if String.eqb name "memory" then
    Some (bind (_parse_memory value) (fun n =>
            Ok (mkOptions (opt_cores o) (Some n) (opt_time o) (opt_priority o)
                  (opt_queue o) (opt_gpu o) (opt_nodes o))))
  else if String.eqb name "time" then
    Some (bind (_parse_time value) (fun n =>
            Ok (mkOptions (opt_cores o) (opt_memory o) (Some n) (opt_priority o)
                  (opt_queue o) (opt_gpu o) (opt_nodes o))))
  else if String.eqb name "priority" then
    Some (Ok (mkOptions (opt_cores o) (opt_memory o) (opt_time o) value
                (opt_queue o) (opt_gpu o) (opt_nodes o)))
  else if String.eqb name "queue" then
    Some (Ok (mkOptions (opt_cores o) (opt_memory o) (opt_time o)
                (opt_priority o) value (opt_gpu o) (opt_nodes o)))
  else None.

(** [parse_hpc_options]: the options and the remaining arguments. *)
Fixpoint parse_hpc_loop (args : list string) (o : hpc_options)
  : result (hpc_options * list string) :=
  match args with
  | [] => Ok (o, [])
  | arg :: rest =>
      let pass :=
        bind (parse_hpc_loop rest o)
             (fun r => Ok (fst r, arg :: snd r)) in
      if startswith arg "--" then
        match rest with
        | value :: rest' =>
            match set_option o (drop 2 arg) value with
            | Some (Ok o') => parse_hpc_loop rest' o'
            | Some (Raise e) => Raise e
            | None => pass
            end
        | [] => pass
        end
      else pass
  end.

Definition parse_hpc_options (args : list string)
  : result (hpc_options * list string) :=
  parse_hpc_loop args default_options.

(** [parse] *)
Definition parse (line : string) : result (list descriptor) :=
  let line := strip line in
  if is_empty line then Ok []
  else
    let background := endswith line "&" in
    let line := if background then strip (drop_last 1 line) else line in
    let pipe_parts := _split_pipes line in
    parse_parts pipe_parts 0 (List.length pipe_parts) background.

(** ** [expand_variables]

    The pattern matches a dollar followed by a braced, non-empty text that
    holds no closing brace, or a dollar followed by a name (a letter or an
    underscore, then letters, digits and underscores).  [re.sub] scans from
    the left and does not look again at what it put in. *)

Definition is_name_start (c : ascii) : bool :=
  let n := nat_of_ascii c in
  ((65 <=? n) && (n <=? 90))%nat || ((97 <=? n) && (n <=? 122))%nat
  || Ascii.eqb c "_".

Definition is_name_char (c : ascii) : bool := is_name_start c || is_digit c.

(** The text before the first closing brace, if there is one. *)
Fixpoint until_brace (s : string) : option string :=
  match s with
  | EmptyString => None
  | String c s' =>
      if Ascii.eqb c "}" then Some EmptyString
      else option_map (String c) (until_brace s')
  end.

(** The longest prefix made of name characters. *)
Fixpoint take_name (s : string) : string :=
  match s with
  | EmptyString => EmptyString
  | String c s' => if is_name_char c then String c (take_name s') else EmptyString
  end.

(** [env.get(var_name, '')] *)
Definition env_get (env : list (string * string)) (name : string) : string :=
  match dict_get String.eqb env name with
  | Some v => v
  | None => EmptyString
  end.

(** The match of the pattern at the head of [s], as the variable name and
    the number of characters matched. *)
Definition variable_at (s : string) : option (string * nat) :=
  match s with
  | String c s1 =>
      if Ascii.eqb c "$" then
        match s1 with
        | String c2 s2 =>
            if Ascii.eqb c2 "{" then
              match until_brace s2 with
              | Some EmptyString => None
              | Some name => Some (name, (String.length name + 3)%nat)
              | None => None
              end
            else if is_name_start c2
            then Some (take_name s1, S (String.length (take_name s1)))
            else None
        | EmptyString => None
        end
      else None
  | EmptyString => None
  end.

Fixpoint expand_loop (env : list (string * string)) (s : string) (skip : nat)
  : string :=
  match s with
  | EmptyString => EmptyString
  | String c s' =>
      match skip with
      | S k => expand_loop env s' k
      | O =>
          match variable_at s with
          | Some (name, n) =>
              (env_get env name ++ expand_loop env s' (n - 1))%string
          | None => String c (expand_loop env s' 0)
          end
      end
  end.

(** [expand_variables(text, env)] *)
Definition expand_variables (text : string) (env : list (string * string))
  : string :=
  expand_loop env text 0.

(** The filename the redirect map holds for [op], read off the matches from
    the left: that of the first match of [op] behind which a filename can be
    read. *)
Fixpoint leftmost_filename (op : redirect_op)
    (matches : list (redirect_op * string)) : option string :=
  match matches with
  | [] => None
  | (op', rest) :: matches' =>
      if redirect_op_eqb op' op then
        match filename_after rest with
        | Some filename => Some filename
        | None => leftmost_filename op matches'
        end
      else leftmost_filename op matches'
  end.

(** Every character of [s] is whitespace for [str.strip]. *)
Fixpoint all_space (s : string) : bool :=
  match s with
  | EmptyString => true
  | String c s' => isspace c && all_space s'
  end.

(** The character [c] occurs in [s]. *)
Fixpoint has_char (c : ascii) (s : string) : bool :=
  match s with
  | EmptyString => false
  | String c' s' => Ascii.eqb c' c || has_char c s'
  end.

(** A variable name: a letter or an underscore, then letters, digits and
    underscores. *)
Fixpoint all_name_chars (s : string) : bool :=
  match s with
  | EmptyString => true
  | String c s' => is_name_char c && all_name_chars s'
  end.

Definition valid_name (name : string) : bool :=
  match name with
  | EmptyString => false
  | String c rest => is_name_start c && all_name_chars rest
  end.

(** The text does not go on with a name character. *)
Definition ends_name (rest : string) : bool :=
  match rest with
  | EmptyString => true
  | String c _ => negb (is_name_char c)
  end.

(** The last character of a string. *)
Fixpoint last_char (s : string) : option ascii :=
  match s with
  | EmptyString => None
  | String c EmptyString => Some c
  | String _ s' => last_char s'
  end.

(** The characters a text accepted by [float] can end with. *)
Definition float_end (c : ascii) : bool :=
  is_digit c || Ascii.eqb c "." || Ascii.eqb (lower_char c) "f"
  || Ascii.eqb (lower_char c) "y" || Ascii.eqb (lower_char c) "n".

Definition digit_end (s : string) : Prop :=
  exists c, last_char s = Some c /\ is_digit c = true.

(** How [_parse_memory] and [_parse_time] end for a value [v] and a
    multiplier: a NaN is turned into 0, an infinity leaves the function as
    [OverflowError]. *)
Definition converted (v : pyfloat) (multiplier : Z) : result Z :=
  match int_of_float (fmul_int v multiplier) with
  | Ok n => Ok n
  | Raise ValueError => Ok 0
  | Raise e => Raise e
  end.

(** A text of decimal digits only, and the number it writes. *)
Fixpoint all_digits (s : string) : bool :=
  match s with
  | EmptyString => true
  | String c s' => is_digit c && all_digits s'
  end.

Fixpoint decimal_acc (s : string) (acc : Z) : Z :=
  match s with
  | EmptyString => acc
  | String c s' => decimal_acc s' (10 * acc + digit_value c)
  end.

Definition decimal_value (s : string) : Z := decimal_acc s 0.

(** The float [v] is the integer [n], exactly. *)
Definition holds (v : pyfloat) (n : Z) : Prop :=
  match v with
  | FFin false m e => if 0 <=? e then m * 2 ^ e = n else m = n * 2 ^ (- e)
  | _ => False
  end.

(** How [_parse_time] ends for a bare number [v]. *)
Definition truncated (v : pyfloat) : result Z :=
  match int_of_float v with
  | Ok n => Ok n
  | Raise ValueError => Ok 0
  | Raise e => Raise e
  end.

End Parser.

(* ===================================================================== *)
(** * executor.py: the process executor *)
(* ===================================================================== *)

Module Executor.
Import Py Parser.

Inductive open_mode : Type := ModeR | ModeW | ModeA.

(** What [stdin], [stdout] and [stderr] can hold: [None], an open file, or
    one of the integers [subprocess.PIPE], [DEVNULL], [STDOUT]. *)
Inductive stream : Type :=
  | NoStream
  | File (filename : string) (mode : open_mode)
  | PIPE
  | DEVNULL
  | STDOUT.

(** The lines the executor prints. *)
Inductive message : Type :=
  | MsgStarted (job_id : option Z) (pid : Z)
  | MsgCommandNotFound (command : string)
  | MsgPermissionDenied (command : string)
  | MsgErrorExecuting (e : exn)
  | MsgCannotOpen (filename : string) (e : exn)
  | MsgCannotCreate (filename : string) (e : exn).

(** What the executor does to the outside, in order. *)
Inductive event : Type :=
  | Print (m : message)
  | LogError (e : exn)
  | LogWarning (e : exn)
  | Spawn (argv : list string) (stdin stdout stderr : stream) (setsid : bool)
  | Wait (pid : Z)
  | Killpg (pid : Z)
  | Close (s : stream)
  | SetAffinity (pid : Z) (cores : Z)
  | SetRlimit (pid : Z) (bytes : Z)
  | SetNice (pid : Z) (nice : Z).

(** The answers of the operating system to the calls one execution makes. *)
Record world : Type := mkWorld {
  w_open : string -> open_mode -> result unit;
  w_popen : list string -> result Z;
  w_time : Z;
  w_wait : result unit;
  w_killpg : result unit;
  w_wait_again : result unit;
  w_process : result unit;
  w_cpu_count : Z;
  w_cpu_affinity : result unit;
  w_rlimit : result unit;
  w_nice : result unit
}.

(** An entry of [self.processes]. *)
Record process_info : Type := mkProcessInfo {
  p_pid : Z;
  p_command : string;
  p_job_id : option Z;
  p_start_time : Z;
  p_background : bool
}.

(** [class CommandExecutor]: [self.processes]. *)
Record CommandExecutor : Type := mkExecutor {
  processes : list (Z * process_info)
}.

(** What a call leaves behind: the events, the value returned or the
    exception that left the call, and the executor. *)
Record outcome : Type := mkOutcome {
  events : list event;
  returned : result (option Z);
  executor : CommandExecutor
}.

(** [_setup_redirects]: the redirections in the order of the dictionary. *)
Definition setup_one (w : world)
    (acc : list event * result (stream * stream * stream))
    (entry : redirect_op * string)
  : list event * result (stream * stream * stream) :=
  match acc with
  | (ev, Raise e) => (ev, Raise e)
  | (ev, Ok (stdin, stdout, stderr)) =>
      let filename := snd entry in
      match fst entry with
      | RIn =>
          match w_open w filename ModeR with
          | Ok _ => (ev, Ok (File filename ModeR, stdout, stderr))
          | Raise e =>
              if isinstance e OSError
              then (ev ++ [Print (MsgCannotOpen filename e)],
                    Ok (DEVNULL, stdout, stderr))
              else (ev, Raise e)
          end
      | ROut =>
          match w_open w filename ModeW with
          | Ok _ => (ev, Ok (stdin, File filename ModeW, stderr))
          | Raise e =>
              if isinstance e OSError
              then (ev ++ [Print (MsgCannotCreate filename e)],
                    Ok (stdin, stdout, stderr))
              else (ev, Raise e)
          end
      | RAppend =>
          match w_open w filename ModeA with
          | Ok _ => (ev, Ok (stdin, File filename ModeA, stderr))
          | Raise e =>
              if isinstance e OSError
              then (ev ++ [Print (MsgCannotOpen filename e)],
                    Ok (stdin, stdout, stderr))
              else (ev, Raise e)
          end
      | RErr =>
          match w_open w filename ModeW with
          | Ok _ => (ev, Ok (stdin, stdout, File filename ModeW))
          | Raise e =>
              if isinstance e OSError
              then (ev ++ [Print (MsgCannotCreate filename e)],
                    Ok (stdin, stdout, stderr))
              else (ev, Raise e)
          end
      | RBoth =>
          match w_open w filename ModeW with
          | Ok _ => (ev, Ok (stdin, File filename ModeW, STDOUT))
          | Raise e =>
              if isinstance e OSError
              then (ev ++ [Print (MsgCannotCreate filename e)],
                    Ok (stdin, stdout, stderr))
              else (ev, Raise e)
          end
      end
  end.

Definition _setup_redirects (w : world) (redirects : list (redirect_op * string))
  : list event * result (stream * stream * stream) :=
  fold_left (setup_one w) redirects ([], Ok (NoStream, NoStream, NoStream)).

(** [if s and s != subprocess.PIPE: s.close()]: [None] is falsy, a file is
    closed, and the integers [DEVNULL] and [STDOUT] have no [close]. *)
Definition close_stream (s : stream) : list event * result unit :=
  match s with
  | NoStream => ([], Ok tt)
  | PIPE => ([], Ok tt)
  | File _ _ => ([Close s], Ok tt)
  | DEVNULL | STDOUT => ([], Raise AttributeError)
  end.

(** The [finally] block of [execute]. *)
Definition close_all (stdin stdout stderr : stream) : list event * result unit :=
  match close_stream stdin with
  | (e1, Raise e) => (e1, Raise e)
  | (e1, Ok _) =>
      match close_stream stdout with
      | (e2, Raise e) => (e1 ++ e2, Raise e)
      | (e2, Ok _) =>
          match close_stream stderr with
          | (e3, r) => (e1 ++ e2 ++ e3, r)
          end
      end
  end.

(** The [except] clauses of [execute], for an exception [e] that leaves the
    [try] block. *)
Definition execute_handlers (command : string) (e : exn)
  : list event * result (option Z) :=
  if isinstance e (Exactly FileNotFoundError)
  then ([Print (MsgCommandNotFound command)], Ok None)
  else if isinstance e (Exactly PermissionError)
  then ([Print (MsgPermissionDenied command)], Ok None)
  else if isinstance e Exception
  then ([Print (MsgErrorExecuting e); LogError e], Ok None)
  else ([], Raise e).

(** [' '.join(full_cmd)] *)
Definition join_spaces (l : list string) : string := String.concat " " l.

(** The [try] block of [execute] with its [except] clauses. *)
Definition execute_body (w : world) (cmd : descriptor) (job_id : option Z)
    (stdin stdout stderr : stream) (ex : CommandExecutor)
  : list event * result (option Z) * CommandExecutor :=
  let full_cmd := command cmd :: args cmd in
  match w_popen w full_cmd with
  | Raise e =>
      let (ev, r) := execute_handlers (command cmd) e in (ev, r, ex)
  | Ok pid =>
      let spawn := Spawn full_cmd stdin stdout stderr (background cmd) in
      let ex1 :=
        mkExecutor
          (dict_set Z.eqb (processes ex) pid
             (mkProcessInfo pid (join_spaces full_cmd) job_id (w_time w)
                            (background cmd))) in
      if background cmd
      then ([spawn; Print (MsgStarted job_id pid)], Ok (Some pid), ex1)
      else
        match w_wait w with
        | Ok _ => ([spawn; Wait pid], Ok None, ex1)
        | Raise e =>
            if isinstance e (Exactly KeyboardInterrupt)
            then
              match try_except (w_killpg w) ProcessLookupError (Ok tt) with
              | Raise e2 =>
                  let (ev, r) := execute_handlers (command cmd) e2 in
                  ([spawn; Wait pid; Killpg pid] ++ ev, r, ex1)
              | Ok _ =>
                  match w_wait_again w with
                  | Ok _ => ([spawn; Wait pid; Killpg pid; Wait pid], Ok None, ex1)
                  | Raise e3 =>
                      let (ev, r) := execute_handlers (command cmd) e3 in
                      ([spawn; Wait pid; Killpg pid; Wait pid] ++ ev, r, ex1)
                  end
              end
            else
              let (ev, r) := execute_handlers (command cmd) e in
              ([spawn; Wait pid] ++ ev, r, ex1)
        end
  end.

(** [execute(cmd, job_id)]: the redirections are set up before the [try];
    an exception of the [finally] block replaces the value returned. *)
Definition execute (w : world) (cmd : descriptor) (job_id : option Z)
    (ex : CommandExecutor) : outcome :=
  match _setup_redirects w (redirects cmd) with
  | (ev0, Raise e) => mkOutcome ev0 (Raise e) ex
  | (ev0, Ok (stdin, stdout, stderr)) =>
      match execute_body w cmd job_id stdin stdout stderr ex with
      | (ev1, r, ex1) =>
          match close_all stdin stdout stderr with
          | (ev2, Raise e) => mkOutcome (ev0 ++ ev1 ++ ev2) (Raise e) ex1
          | (ev2, Ok _) => mkOutcome (ev0 ++ ev1 ++ ev2) r ex1
          end
      end
  end.

(** The [resources] dictionary of [parse_hpc_options]. *)
Record resources : Type := mkResources {
  res_cores : option Z;
  res_memory : option Z;
  res_priority : string
}.

(** [priority_map.get(resources['priority'], 0)] on a POSIX system. *)
Definition nice_of_priority (p : string) : Z :=
  if String.eqb p "low" then 10
  else if String.eqb p "normal" then 0
  else if String.eqb p "high" then -10
  else 0.

(** The statements of the [try] block of [execute_with_resources], each
    skipped when its option is falsy ([None], [0], the empty string). *)
Definition apply_limits (w : world) (pid : Z) (res : resources)
  : list event * result unit :=
  match w_process w with
  | Raise e => ([], Raise e)
  | Ok _ =>
      let affinity : list event * result unit :=
        match res_cores res with
        | None | Some 0 => ([], Ok tt)
        | Some cores =>
            if cores <=? w_cpu_count w
            then match w_cpu_affinity w with
                 | Ok _ => ([SetAffinity pid cores], Ok tt)
                 | Raise e => ([], Raise e)
                 end
            else ([], Ok tt)
        end in
      match affinity with
      | (ev1, Raise e) => (ev1, Raise e)
      | (ev1, Ok _) =>
          let memory : list event * result unit :=
            match res_memory res with
            | None | Some 0 => ([], Ok tt)
            | Some memory_bytes =>
                match w_rlimit w with
                | Ok _ => ([SetRlimit pid memory_bytes], Ok tt)
                | Raise e =>
                    if isinstance e Exception then ([LogWarning e], Ok tt)
                    else ([], Raise e)
                end
            end in
          match memory with
          | (ev2, Raise e) => (ev1 ++ ev2, Raise e)
          | (ev2, Ok _) =>
              match res_priority res with
              | EmptyString => (ev1 ++ ev2, Ok tt)
              | p =>
                  match w_nice w with
                  | Ok _ =>
                      (ev1 ++ ev2 ++ [SetNice pid (nice_of_priority p)], Ok tt)
                  | Raise e => (ev1 ++ ev2, Raise e)
                  end
              end
          end
      end
  end.

(** [execute_with_resources(cmd, resources)]: [Popen] stands before the
    [try], so an exception of the launch leaves the function. *)
Definition execute_with_resources (w : world) (cmd : descriptor)
    (res : resources) (ex : CommandExecutor) : outcome :=
  let full_cmd := command cmd :: args cmd in
  match w_popen w full_cmd with
  | Raise e => mkOutcome [] (Raise e) ex
  | Ok pid =>
      let spawn := Spawn full_cmd NoStream PIPE PIPE true in
      match apply_limits w pid res with
      | (ev, Ok _) => mkOutcome (spawn :: ev) (Ok (Some pid)) ex
      | (ev, Raise e) =>
          if isinstance e (Exactly NoSuchProcess)
          then mkOutcome (spawn :: ev) (Ok (Some pid)) ex
          else if isinstance e Exception
          then mkOutcome (spawn :: ev ++ [LogWarning e]) (Ok (Some pid)) ex
          else mkOutcome (spawn :: ev) (Raise e) ex
      end
  end.



(** An answer of the system that is no interrupt. *)
Definition ordinary (r : result unit) : Prop :=
  forall e, r = Raise e -> isinstance e Exception = true.

(** Every failure of [open] is an [OSError]. *)
Definition only_oserror (w : world) : Prop :=
  forall f m e, w_open w f m = Raise e -> isinstance e OSError = true.

End Executor.

(* ===================================================================== *)
(** * resource.py: the resource monitor *)
(* ===================================================================== *)

Module Resource.
Import Py.

(** [collections.deque(maxlen=n).append(x)]: the item is stored on the
    right, and the leftmost item is dropped when the size then exceeds
    [maxlen]. *)
Definition deque_append {A : Type} (maxlen : Z) (d : list A) (x : A) : list A :=
  let d' := d ++ [x] in
  if Z.of_nat (List.length d') >? maxlen then tl d' else d'.

(** The entries of the four history rings. *)
Record cpu_entry : Type := mkCpuEntry {
  cpu_timestamp : float;
  cpu_percent : float;
  cpu_per_core : list float
}.

Record memory_entry : Type := mkMemoryEntry {
  memory_timestamp : float;
  memory_percent : float;
  memory_used : Z
}.

Record disk_entry : Type := mkDiskEntry {
  disk_timestamp : float;
  disk_read_bytes : Z;
  disk_write_bytes : Z
}.

Record network_entry : Type := mkNetworkEntry {
  network_timestamp : float;
  network_sent_bytes : Z;
  network_recv_bytes : Z
}.

(** What [psutil] hands out. *)
Record usage : Type := mkUsage {
  u_total : Z; u_used : Z; u_free : Z; u_percent : float
}.

Record virtual_memory : Type := mkVirtualMemory {
  vm_total : Z; vm_available : Z; vm_used : Z; vm_percent : float
}.

Record disk_counters : Type := mkDiskCounters {
  dc_read_bytes : Z; dc_write_bytes : Z
}.

Record net_counters : Type := mkNetCounters {
  nc_bytes_sent : Z; nc_bytes_recv : Z
}.

Record cpu_frequency : Type := mkCpuFrequency {
  f_current : float; f_min : float; f_max : float
}.

(** [class ResourceMonitor]: [history_size], the four rings of
    [self.history], [last_net_io], [last_disk_io]. *)
Record ResourceMonitor : Type := mkMonitor {
  history_size : Z;
  history_cpu : list cpu_entry;
  history_memory : list memory_entry;
  history_disk : list disk_entry;
  history_network : list network_entry;
  last_net_io : option net_counters;
  last_disk_io : option disk_counters
}.

(** [__init__(history_size=3600)]; [deque] refuses a negative [maxlen]. *)
Definition init (size : option Z) : result ResourceMonitor :=
  let n := match size with Some n => n | None => 3600 end in
  if n <? 0 then Raise ValueError
  else Ok (mkMonitor n [] [] [] [] None None).

(** The dictionary [get_system_stats] builds. *)
Record stats : Type := mkStats {
  s_cpu_percent : float;
  s_cpu_count : Z;
  s_cpu_freq : option cpu_frequency;
  s_cpu_per_core : list float;
  s_memory : virtual_memory;
  s_swap : usage;
  s_disk : usage;
  s_disk_io : option (Z * Z);
  s_network_io : option (Z * Z);
  s_load_avg : option (float * float * float);
  s_timestamp : float
}.

(** [_add_to_history]: the cpu and memory rings always grow, the disk and
    network rings only when the statistics carry the deltas. *)
Definition _add_to_history (st : stats) (m : ResourceMonitor)
  : ResourceMonitor :=
  let timestamp := s_timestamp st in
  let cpu := deque_append (history_size m) (history_cpu m)
               (mkCpuEntry timestamp (s_cpu_percent st) (s_cpu_per_core st)) in
  let mem := deque_append (history_size m) (history_memory m)
               (mkMemoryEntry timestamp (vm_percent (s_memory st))
                              (vm_used (s_memory st))) in
  let disk :=
    match s_disk_io st with
    | Some (r, w) =>
        deque_append (history_size m) (history_disk m) (mkDiskEntry timestamp r w)
    | None => history_disk m
    end in
  let net :=
    match s_network_io st with
    | Some (sent, recv) =>
        deque_append (history_size m) (history_network m)
          (mkNetworkEntry timestamp sent recv)
    | None => history_network m
    end in
  mkMonitor (history_size m) cpu mem disk net (last_net_io m) (last_disk_io m).

(** The readings one call of [get_system_stats] takes from [psutil] and the
    clock, in the order of the calls.  [cpu_freq], [disk_io_counters] and
    [net_io_counters] return [None] on a host without the device. *)
Record readings : Type := mkReadings {
  r_cpu_percent : float;
  r_cpu_count : Z;
  r_cpu_freq_first : option cpu_frequency;
  r_cpu_freq_second : option cpu_frequency;
  r_cpu_per_core : list float;
  r_virtual_memory : virtual_memory;
  r_swap_memory : usage;
  r_disk_usage : usage;
  r_disk_io_counters : option disk_counters;
  r_net_io_counters : option net_counters;
  r_getloadavg : result (float * float * float);
  r_time : float
}.

(** [get_system_stats].  The baselines [last_disk_io] and [last_net_io] are
    assigned on the way, so a call that raises further down has replaced
    them; [net_io.bytes_sent] on [None] raises [AttributeError], outside
    every [try]. *)
Definition get_system_stats (r : readings) (m : ResourceMonitor)
  : result stats * ResourceMonitor :=
  let freq :=
    match r_cpu_freq_first r with
    | Some _ =>
        match r_cpu_freq_second r with
        | Some f => Ok (Some f)
        | None => Raise AttributeError
        end
    | None => Ok None
    end in
  match freq with
  | Raise e => (Raise e, m)
  | Ok cpu_freq =>
      let disk_io :=
        match r_disk_io_counters r, last_disk_io m with
        | Some now, Some before =>
            Some (dc_read_bytes now - dc_read_bytes before,
                  dc_write_bytes now - dc_write_bytes before)
        | _, _ => None
        end in
      let last_disk :=
        match r_disk_io_counters r with
        | Some now => Some now
        | None => last_disk_io m
        end in
      let m0 := mkMonitor (history_size m) (history_cpu m) (history_memory m)
                  (history_disk m) (history_network m) (last_net_io m)
                  last_disk in
      let network_io :=
        match last_net_io m with
        | Some before =>
            match r_net_io_counters r with
            | Some now =>
                Ok (Some (nc_bytes_sent now - nc_bytes_sent before,
                          nc_bytes_recv now - nc_bytes_recv before))
            | None => Raise AttributeError
            end
        | None => Ok None
        end in
      match network_io with
      | Raise e => (Raise e, m0)
      | Ok network_io =>
          let m1 := mkMonitor (history_size m) (history_cpu m)
                      (history_memory m) (history_disk m) (history_network m)
                      (r_net_io_counters r) last_disk in
          match try_except (bind (r_getloadavg r) (fun l => Ok (Some l)))
                           AttributeError (Ok None) with
          | Raise e => (Raise e, m1)
          | Ok load_avg =>
              let st := mkStats (r_cpu_percent r) (r_cpu_count r) cpu_freq
                          (r_cpu_per_core r) (r_virtual_memory r)
                          (r_swap_memory r) (r_disk_usage r) disk_io
                          network_io load_avg (r_time r) in
              (Ok st, _add_to_history st m1)
          end
      end
  end.

(** The four metric names of [self.history]. *)
Inductive metric : Type := Cpu | Memory | Disk | Network.

(** The number of entries a ring holds. *)
Definition ring_length (k : metric) (m : ResourceMonitor) : nat :=
  match k with
  | Cpu => List.length (history_cpu m)
  | Memory => List.length (history_memory m)
  | Disk => List.length (history_disk m)
  | Network => List.length (history_network m)
  end.

(** [get_history(metric, duration)] for the cpu ring (the other rings are
    filtered the same way): the entries not older than [duration] seconds
    at the clock reading [now]. *)
Definition get_history_cpu (now : float) (duration : float)
    (m : ResourceMonitor) : list cpu_entry :=
  let cutoff_time := PrimFloat.sub now duration in
  filter (fun entry => PrimFloat.leb cutoff_time (cpu_timestamp entry))
         (history_cpu m).

(** The monitors some finite sequence of [get_system_stats] and
    [_add_to_history] calls leads to, from a monitor of capacity [size]. *)
Inductive reachable (size : option Z) : ResourceMonitor -> Prop :=
  | reach_init : forall m, init size = Ok m -> reachable size m
  | reach_stats : forall m r,
      reachable size m -> reachable size (snd (get_system_stats r m))
  | reach_add : forall m st,
      reachable size m -> reachable size (_add_to_history st m).

(** Appending the samples [xs] one after the other. *)
Definition append_all {A : Type} (maxlen : Z) (xs : list A) (d : list A)
  : list A :=
  fold_left (deque_append maxlen) xs d.

(** The samples [_add_to_history] takes from the statistics: one for the
    cpu ring and one for the memory ring, one for the disk and for the
    network ring when the statistics carry the delta. *)
Definition cpu_sample (st : stats) : cpu_entry :=
  mkCpuEntry (s_timestamp st) (s_cpu_percent st) (s_cpu_per_core st).

Definition memory_sample (st : stats) : memory_entry :=
  mkMemoryEntry (s_timestamp st) (vm_percent (s_memory st))
                (vm_used (s_memory st)).

Definition disk_samples (st : stats) : list disk_entry :=
  match s_disk_io st with
  | Some (r, w) => [mkDiskEntry (s_timestamp st) r w]
  | None => []
  end.

Definition network_samples (st : stats) : list network_entry :=
  match s_network_io st with
  | Some (sent, recv) => [mkNetworkEntry (s_timestamp st) sent recv]
  | None => []
  end.

(** What appending [x] does to a ring [old] of capacity [cap]: with room
    left the sample is added; at capacity the oldest sample goes and the
    others stay in order in front of the new one; a ring of capacity 0
    stays empty. *)
Definition evicts {A : Type} (cap : Z) (old : list A) (x : A) (new : list A)
  : Prop :=
  (Z.of_nat (List.length old) < cap -> new = old ++ [x])
  /\ (Z.of_nat (List.length old) = cap -> 0 < cap -> new = tl old ++ [x])
  /\ (Z.of_nat (List.length old) = cap -> cap = 0 -> new = []).

(** The last [cap] items of a list. *)
Definition newest {A : Type} (cap : Z) (l : list A) : list A :=
  skipn (List.length l - Z.to_nat cap) l.

(** [_add_to_history] for one set of statistics after the other. *)
Definition add_all (sts : list stats) (m : ResourceMonitor) : ResourceMonitor :=
  fold_left (fun m' st => _add_to_history st m') sts m.

(** The differences [get_system_stats] reports. *)
Definition disk_delta (now before : disk_counters) : Z * Z :=
  (dc_read_bytes now - dc_read_bytes before,
   dc_write_bytes now - dc_write_bytes before).

Definition net_delta (now before : net_counters) : Z * Z :=
  (nc_bytes_sent now - nc_bytes_sent before,
   nc_bytes_recv now - nc_bytes_recv before).

(** The baseline [last_disk_io] after a call that read [r]. *)
Definition disk_baseline (r : readings) (m : ResourceMonitor)
  : option disk_counters :=
  match r_disk_io_counters r with
  | Some now => Some now
  | None => last_disk_io m
  end.

(** The readings do not make the call raise before [getloadavg]:
    [cpu_freq] answers twice alike, and the network counters are there
    when a baseline is. *)
Definition reaches_loadavg (r : readings) (m : ResourceMonitor) : Prop :=
  (r_cpu_freq_first r = None \/ r_cpu_freq_second r <> None)
  /\ (last_net_io m = None \/ r_net_io_counters r <> None).

(** The cpu and memory rings are equally long, the others no longer. *)
Definition together (m : ResourceMonitor) : Prop :=
  ring_length Cpu m = ring_length Memory m
  /\ (ring_length Disk m <= ring_length Cpu m)%nat
  /\ (ring_length Network m <= ring_length Cpu m)%nat.

End Resource.

(* ===================================================================== *)
(** * Properties *)
(* ===================================================================== *)

(** ** Facts about the runtime model *)
Module PyFacts.
Import Py.

Section DictFacts.
Context {K V : Type}.
Variable eqb : K -> K -> bool.
Hypothesis eqb_spec : forall a b, eqb a b = true <-> a = b.

Lemma eqb_refl_true k : eqb k k = true.
Proof. now apply eqb_spec. Qed.

Lemma eqb_neq_false a b : a <> b -> eqb a b = false.
Proof.
  intros Hne. destruct (eqb a b) eqn:E; [|reflexivity].
  apply eqb_spec in E. contradiction.
Qed.

Lemma dict_get_set_eq (d : list (K * V)) k v :
  dict_get eqb (dict_set eqb d k v) k = Some v.
Proof.
  induction d as [|[k' v'] d IH]; simpl.
  - now rewrite eqb_refl_true.
  - destruct (eqb k' k) eqn:E; simpl; rewrite E; [reflexivity | exact IH].
Qed.

Lemma dict_get_set_ne (d : list (K * V)) k v k' :
  k <> k' -> dict_get eqb (dict_set eqb d k v) k' = dict_get eqb d k'.
Proof.
  intros Hne. induction d as [|[k0 v0] d IH]; simpl.
  - now rewrite (eqb_neq_false k k').
  - destruct (eqb k0 k) eqn:E; simpl.
    + apply eqb_spec in E. subst k0. now rewrite (eqb_neq_false k k').
    + now rewrite IH.
Qed.

Lemma dict_get_In (d : list (K * V)) k v :
  dict_get eqb d k = Some v -> In (k, v) d.
Proof.
  induction d as [|[k0 v0] d IH]; simpl; [discriminate|].
  destruct (eqb k0 k) eqn:E.
  - apply eqb_spec in E. intros [= ->]. subst. now left.
  - intros H. right. now apply IH.
Qed.

Lemma Forall_dict_set (P : V -> Prop) (d : list (K * V)) k v :
  Forall (fun e => P (snd e)) d -> P v ->
  Forall (fun e => P (snd e)) (dict_set eqb d k v).
Proof.
  intros Hd Hv. induction Hd as [|[k0 v0] d H0 Hd IH]; simpl.
  - constructor; [exact Hv | constructor].
  - destruct (eqb k0 k); constructor; auto.
Qed.

Lemma dict_get_map_values (f : K -> V -> V) (d : list (K * V)) k :
  dict_get eqb (map (fun e => (fst e, f (fst e) (snd e))) d) k
  = option_map (f k) (dict_get eqb d k).
Proof.
  induction d as [|[k0 v0] d IH]; simpl; [reflexivity|].
  destruct (eqb k0 k) eqn:E; [|exact IH].
  apply eqb_spec in E. now subst.
Qed.
End DictFacts.

Section DictKeys.
Context {K V : Type}.
Variable eqb : K -> K -> bool.
Hypothesis eqb_spec : forall a b, eqb a b = true <-> a = b.

Lemma dict_keys_set (d : list (K * V)) k v :
  dict_keys (dict_set eqb d k v)
  = if dict_mem eqb d k then dict_keys d else dict_keys d ++ [k].
Proof.
  unfold dict_keys, dict_mem. induction d as [|[k' v'] d IH]; simpl; [reflexivity|].
  destruct (eqb k' k) eqn:E; simpl; [reflexivity|].
  rewrite IH. now destruct (dict_get eqb d k).
Qed.

Lemma dict_mem_keys (d : list (K * V)) k :
  dict_mem eqb d k = false -> ~ In k (dict_keys d).
Proof.
  unfold dict_keys, dict_mem. induction d as [|[k' v'] d IH]; simpl; [tauto|].
  destruct (eqb k' k) eqn:E; [discriminate|].
  intros H [Heq|Hin]; [|now apply IH].
  subst k'. now rewrite (eqb_refl_true eqb eqb_spec) in E.
Qed.

Lemma NoDup_keys_set (d : list (K * V)) k v :
  NoDup (dict_keys d) -> NoDup (dict_keys (dict_set eqb d k v)).
Proof.
  intros Hd. rewrite dict_keys_set.
  destruct (dict_mem eqb d k) eqn:E; [exact Hd|].
  apply NoDup_app; [exact Hd | repeat constructor; simpl; tauto |].
  intros x Hx [Heq|[]]. subst x. now apply (dict_mem_keys d k E).
Qed.

Lemma dict_get_unique (d : list (K * V)) k v :
  NoDup (dict_keys d) -> In (k, v) d -> dict_get eqb d k = Some v.
Proof.
  unfold dict_keys. induction d as [|[k' v'] d IH]; simpl; [tauto|].
  intros Hd [Heq|Hin].
  - injection Heq as -> ->. now rewrite (eqb_refl_true eqb eqb_spec).
  - inversion Hd as [|? ? Hk Hd']; subst.
    destruct (eqb k' k) eqn:E; [|now apply IH].
    apply eqb_spec in E. subst k'. exfalso. apply Hk.
    apply in_map_iff. now exists (k, v).
Qed.

Lemma dict_set_same (d : list (K * V)) k v :
  dict_get eqb d k = Some v -> dict_set eqb d k v = d.
Proof.
  induction d as [|[k' v'] d IH]; simpl; [discriminate|].
  destruct (eqb k' k) eqn:E.
  - now intros [= ->].
  - intros H. now rewrite IH.
Qed.
End DictKeys.

Lemma mapM_ext {A B : Type} (f g : A -> result B) (l : list A) :
  (forall x, In x l -> f x = g x) -> mapM f l = mapM g l.
Proof.
  induction l as [|x l IH]; intros H; simpl; [reflexivity|].
  rewrite (H x (or_introl eq_refl)), IH; [reflexivity|].
  intros y Hy. apply H. now right.
Qed.

Lemma mapM_Ok_inv {A B : Type} (f : A -> result B) (l : list A) ys :
  mapM f l = Ok ys -> forall x, In x l -> exists y, f x = Ok y.
Proof.
  revert ys. induction l as [|a l IH]; intros ys H x Hx; [destruct Hx|].
  simpl in H. destruct (f a) as [b|e] eqn:Ea; [|discriminate].
  simpl in H. destruct (mapM f l) as [bs|e] eqn:El; [|discriminate].
  destruct Hx as [<-|Hx]; [now exists b | now apply (IH bs)].
Qed.

Lemma mapM_Ok_all {A B : Type} (f : A -> result B) (l : list A) :
  (forall x, In x l -> exists y, f x = Ok y) -> exists ys, mapM f l = Ok ys.
Proof.
  induction l as [|a l IH]; intros H; simpl; [now exists []|].
  destruct (H a (or_introl eq_refl)) as [b Hb]. rewrite Hb. simpl.
  destruct IH as [bs Hbs]; [intros y Hy; apply H; now right|].
  rewrite Hbs. now exists (b :: bs).
Qed.

Lemma list_mem_In x l : list_mem x l = true <-> In x l.
Proof.
  induction l as [|y l IH]; simpl; [split; [discriminate | tauto]|].
  rewrite orb_true_iff, Z.eqb_eq, IH. tauto.
Qed.

Lemma In_list_remove x y l : In y (list_remove x l) -> In y l.
Proof.
  induction l as [|z l IH]; simpl; [tauto|].
  destruct (z =? x); simpl; intuition.
Qed.

End PyFacts.

(** ** The job queue *)
Module QueueFacts.
Import Py PyFacts Queue.

Lemma Zeqb_spec : forall a b : Z, (a =? b) = true <-> a = b.
Proof. exact Z.eqb_eq. Qed.

Lemma Seqb_spec : forall a b : string, String.eqb a b = true <-> a = b.
Proof. exact String.eqb_eq. Qed.

(** *** Sorting *)

Lemma key_lt_false_le a b : key_lt a b = false -> key_le b a.
Proof.
  unfold key_lt, key_le. intros H.
  apply orb_false_iff in H. destruct H as [H1 H2].
  apply Z.ltb_ge in H1. apply andb_false_iff in H2.
  destruct H2 as [H2|H2]; [apply Z.eqb_neq in H2 | apply Z.ltb_ge in H2]; lia.
Qed.

Lemma key_lt_true_le a b : key_lt a b = true -> key_le a b.
Proof.
  unfold key_lt, key_le. intros H.
  apply orb_true_iff in H. destruct H as [H|H].
  - apply Z.ltb_lt in H. lia.
  - apply andb_true_iff in H. destruct H as [H1 H2].
    apply Z.eqb_eq in H1. apply Z.ltb_lt in H2. lia.
Qed.

Lemma key_le_trans a b c : key_le a b -> key_le b c -> key_le a c.
Proof. unfold key_le. lia. Qed.

Definition pair_le (a b : (Z * Z) * Z) : Prop := key_le (fst a) (fst b).

Lemma In_insert_by (x y : (Z * Z) * Z) l :
  In y (insert_by key_lt x l) -> y = x \/ In y l.
Proof.
  induction l as [|z l IH]; simpl.
  - intros [H|[]]. now left.
  - destruct (key_lt (fst x) (fst z)); simpl; intuition.
Qed.

Lemma insert_by_sorted (x : (Z * Z) * Z) l :
  StronglySorted pair_le l -> StronglySorted pair_le (insert_by key_lt x l).
Proof.
  induction 1 as [|z l Hs IH Hz]; simpl.
  - constructor; constructor.
  - destruct (key_lt (fst x) (fst z)) eqn:E.
    + constructor; [now constructor|].
      apply key_lt_true_le in E.
      constructor; [exact E|].
      rewrite Forall_forall in *. intros y Hy.
      unfold pair_le in *. eapply key_le_trans; [exact E | now apply Hz].
    + constructor; [exact IH|].
      rewrite Forall_forall in *. intros y Hy.
      apply In_insert_by in Hy. destruct Hy as [->|Hy].
      * now apply key_lt_false_le.
      * now apply Hz.
Qed.

Lemma stable_sort_sorted (l : list ((Z * Z) * Z)) :
  StronglySorted pair_le (stable_sort key_lt l).
Proof.
  unfold stable_sort.
  assert (G : forall acc, StronglySorted pair_le acc ->
              StronglySorted pair_le
                (fold_left (fun a x => insert_by key_lt x a) l acc)).
  { induction l as [|x l IH]; intros acc Ha; simpl; [exact Ha|].
    apply IH. now apply insert_by_sorted. }
  apply G. constructor.
Qed.

Lemma stable_sort_Forall (P : (Z * Z) * Z -> Prop) (l : list ((Z * Z) * Z)) :
  Forall P l -> Forall P (stable_sort key_lt l).
Proof.
  unfold stable_sort. intros Hl.
  assert (G : forall acc, Forall P acc ->
              Forall P (fold_left (fun a x => insert_by key_lt x a) l acc)).
  { induction Hl as [|x l Hx Hl IH]; intros acc Ha; simpl; [exact Ha|].
    apply IH. rewrite Forall_forall in *. intros y Hy.
    apply In_insert_by in Hy. destruct Hy as [->|Hy]; auto. }
  apply G. constructor.
Qed.

Lemma StronglySorted_map_fst (l : list ((Z * Z) * Z)) :
  StronglySorted pair_le l -> StronglySorted key_le (map fst l).
Proof.
  induction 1 as [|z l Hs IH Hz]; simpl; constructor; [exact IH|].
  rewrite Forall_forall in *. intros k Hk.
  apply in_map_iff in Hk. destruct Hk as [y [<- Hy]]. now apply Hz.
Qed.

Lemma mapM_keyed (key : Z -> result (Z * Z)) (l : list Z) kl :
  mapM (fun x => bind (key x) (fun k => Ok (k, x))) l = Ok kl ->
  Forall (fun p => key (snd p) = Ok (fst p)) kl.
Proof.
  revert kl. induction l as [|x l IH]; simpl; intros kl H.
  - injection H as <-. constructor.
  - destruct (key x) as [k|e] eqn:Ek; [|discriminate]. simpl in H.
    destruct (mapM _ l) as [kl'|e] eqn:El; [|discriminate]. simpl in H.
    injection H as <-. constructor; [exact Ek | now apply IH].
Qed.

Lemma mapM_of_keyed (key : Z -> result (Z * Z)) (kl : list ((Z * Z) * Z)) :
  Forall (fun p => key (snd p) = Ok (fst p)) kl ->
  mapM key (map snd kl) = Ok (map fst kl).
Proof.
  induction 1 as [|p kl Hp Hkl IH]; simpl; [reflexivity|].
  now rewrite Hp, IH.
Qed.

Lemma mapM_keyed_Ok (key : Z -> result (Z * Z)) (l : list Z) ks :
  mapM key l = Ok ks ->
  exists kl, mapM (fun x => bind (key x) (fun k => Ok (k, x))) l = Ok kl.
Proof.
  revert ks. induction l as [|x l IH]; simpl; intros ks H; [now exists []|].
  destruct (key x) as [k|e]; [|discriminate]. simpl in *.
  destruct (mapM key l) as [ks'|e]; [|discriminate].
  destruct (IH ks' eq_refl) as [kl Hkl]. rewrite Hkl. simpl. eauto.
Qed.

(** Sorting a list of known ids succeeds and leaves it in key order. *)
Lemma sort_by_key_sorted (js : list (Z * Job)) (ids : list Z) ks :
  mapM (sort_key js) ids = Ok ks ->
  exists sorted,
    sort_by_key key_lt (sort_key js) ids = Ok sorted /\ ids_sorted js sorted.
Proof.
  intros H. unfold sort_by_key.
  destruct (mapM_keyed_Ok _ _ _ H) as [kl Hkl]. rewrite Hkl. simpl.
  eexists; split; [reflexivity|].
  exists (map fst (stable_sort key_lt kl)). split.
  - apply mapM_of_keyed, stable_sort_Forall. now apply mapM_keyed with (l := ids).
  - apply StronglySorted_map_fst, stable_sort_sorted.
Qed.

Lemma ids_sorted_remove js x ids :
  ids_sorted js ids -> ids_sorted js (list_remove x ids).
Proof.
  intros [ks [Hk Hs]]. revert ks Hk Hs.
  induction ids as [|y ids IH]; simpl; intros ks Hk Hs.
  - exists ks. now split.
  - destruct (sort_key js y) as [k|e] eqn:Ey; [|discriminate]. simpl in Hk.
    destruct (mapM (sort_key js) ids) as [ks'|e] eqn:El; [|discriminate].
    simpl in Hk. injection Hk as <-.
    inversion Hs as [|? ? Hs' Hall]; subst.
    destruct (y =? x).
    + exists ks'. now split.
    + destruct (IH ks' eq_refl Hs') as [ks2 [Hk2 Hs2]].
      exists (k :: ks2). simpl. rewrite Ey. simpl. rewrite Hk2. simpl.
      split; [reflexivity|]. constructor; [exact Hs2|].
      (* the keys that remain are among the keys that were there *)
      clear IH Hs Hs' Hs2.
      revert ks' ks2 El Hk2 Hall.
      induction ids as [|z ids IH2]; simpl; intros ks' ks2 El Hk2 Hall.
      * injection Hk2 as <-. constructor.
      * destruct (sort_key js z) as [kz|e] eqn:Ez; [|discriminate].
        simpl in El.
        destruct (mapM (sort_key js) ids) as [kr|e] eqn:Er; [|discriminate].
        simpl in El. injection El as <-.
        inversion Hall as [|? ? Hkz Hrest]; subst.
        destruct (z =? x).
        -- rewrite Er in Hk2. injection Hk2 as <-. exact Hrest.
        -- simpl in Hk2. rewrite Ez in Hk2. simpl in Hk2.
           destruct (mapM (sort_key js) (list_remove x ids)) as [kr2|e] eqn:Er2;
             [|discriminate].
           simpl in Hk2. injection Hk2 as <-.
           constructor; [exact Hkz|]. now apply (IH2 kr kr2).
Qed.

Lemma ids_sorted_ext js js' ids :
  (forall x, In x ids -> sort_key js' x = sort_key js x) ->
  ids_sorted js ids -> ids_sorted js' ids.
Proof.
  intros H [ks [Hk Hs]]. exists ks. split; [|exact Hs].
  rewrite <- Hk. now apply mapM_ext.
Qed.

Lemma ids_sorted_known js ids x :
  ids_sorted js ids -> In x ids -> exists j, dict_get Z.eqb js x = Some j.
Proof.
  intros [ks [Hk _]] Hx.
  destruct (mapM_Ok_inv _ _ _ Hk x Hx) as [k Hkx].
  unfold sort_key in Hkx. destruct (dict_get Z.eqb js x); [eauto | discriminate].
Qed.

(** *** The invariant of the reachable states *)

Record Inv (q : JobQueue) : Prop := mkInv {
  inv_bounded :
    forall jid j, dict_get Z.eqb (jobs q) jid = Some j -> jid < next_job_id q;
  inv_sorted :
    forall name ids,
      dict_get String.eqb (queues q) name = Some ids ->
      ids_sorted (jobs q) ids;
  inv_no_failed : Forall (fun e => status (snd e) <> failed) (jobs q)
}.

Lemma init_queues_empty (names : list string) :
  forall acc : list (string * list Z),
    (forall n ids, dict_get String.eqb acc n = Some ids -> ids = []) ->
    forall n ids,
      dict_get String.eqb
        (fold_left (fun qs name => dict_set String.eqb qs name []) names acc) n
      = Some ids -> ids = [].
Proof.
  induction names as [|a names IH]; intros acc Hacc n ids; simpl.
  - apply Hacc.
  - apply IH. intros n' ids'.
    destruct (string_dec a n') as [->|Hne].
    + rewrite (dict_get_set_eq _ Seqb_spec). congruence.
    + rewrite (dict_get_set_ne _ Seqb_spec) by exact Hne. apply Hacc.
Qed.

Lemma init_queue_ids cfg name ids :
  dict_get String.eqb (queues (init cfg)) name = Some ids -> ids = [].
Proof.
  unfold init. cbn [queues]. apply init_queues_empty.
  intros n l. simpl. discriminate.
Qed.

Lemma Inv_init cfg : Inv (init cfg).
Proof.
  split.
  - intros jid j. simpl. discriminate.
  - intros name ids H. apply init_queue_ids in H. subst.
    exists []. split; [reflexivity | constructor].
  - constructor.
Qed.

Lemma sort_key_set_same js jid j j' x :
  dict_get Z.eqb js jid = Some j ->
  priority j' = priority j -> created_at j' = created_at j ->
  sort_key (dict_set Z.eqb js jid j') x = sort_key js x.
Proof.
  intros Hj Hp Hc. unfold sort_key.
  destruct (Z.eq_dec jid x) as [->|Hne].
  - rewrite (dict_get_set_eq _ Zeqb_spec), Hj. now rewrite Hp, Hc.
  - now rewrite (dict_get_set_ne _ Zeqb_spec).
Qed.

Lemma sort_key_set_fresh js n job x :
  x <> n -> sort_key (dict_set Z.eqb js n job) x = sort_key js x.
Proof.
  intros Hne. unfold sort_key.
  rewrite (dict_get_set_ne _ Zeqb_spec); [reflexivity | congruence].
Qed.

Lemma get_remove_from_queues jid qs name :
  dict_get String.eqb (remove_from_queues jid qs) name
  = option_map (fun ids => if list_mem jid ids then list_remove jid ids else ids)
               (dict_get String.eqb qs name).
Proof.
  unfold remove_from_queues.
  apply (dict_get_map_values _ Seqb_spec
           (fun _ ids => if list_mem jid ids then list_remove jid ids else ids)).
Qed.

(** Updating fields other than the sort key of one known job keeps every
    part of the invariant that speaks about queues. *)
Lemma Inv_update q jid j j' qs :
  Inv q ->
  dict_get Z.eqb (jobs q) jid = Some j ->
  priority j' = priority j -> created_at j' = created_at j ->
  status j' <> failed ->
  (forall name ids,
      dict_get String.eqb qs name = Some ids -> ids_sorted (jobs q) ids) ->
  Inv (mkJobQueue (dict_set Z.eqb (jobs q) jid j') qs (next_job_id q)).
Proof.
  intros [Hb Hs Hf] Hj Hp Hc Hst Hqs. split; cbn [jobs queues next_job_id].
  - intros x jx. destruct (Z.eq_dec jid x) as [->|Hne].
    + intros _. now apply (Hb x j).
    + rewrite (dict_get_set_ne _ Zeqb_spec) by exact Hne. apply Hb.
  - intros name ids H. apply (ids_sorted_ext (jobs q)); [|now apply (Hqs name)].
    intros x _. now apply (sort_key_set_same _ _ j).
  - now apply (Forall_dict_set Z.eqb (fun x => status x <> failed)).
Qed.

Lemma removed_queues_sorted q jid :
  Inv q ->
  forall name ids,
    dict_get String.eqb (remove_from_queues jid (queues q)) name = Some ids ->
    ids_sorted (jobs q) ids.
Proof.
  intros HI name ids. rewrite get_remove_from_queues.
  destruct (dict_get String.eqb (queues q) name) as [l|] eqn:E; [|discriminate].
  simpl. intros [= <-]. pose proof (inv_sorted q HI name l E) as Hl.
  destruct (list_mem jid l); [now apply ids_sorted_remove | exact Hl].
Qed.

Lemma Inv_start now jid q : Inv q -> Inv (snd (start_job now jid q)).
Proof.
  intros HI. unfold start_job.
  destruct (dict_get Z.eqb (jobs q) jid) as [j|] eqn:Ej; [|exact HI].
  simpl. apply (Inv_update q jid j); auto; try discriminate.
  apply (inv_sorted q HI).
Qed.

Lemma Inv_complete now jid rc q :
  Inv q -> Inv (snd (complete_job now jid rc q)).
Proof.
  intros HI. unfold complete_job.
  destruct (dict_get Z.eqb (jobs q) jid) as [j|] eqn:Ej; [|exact HI].
  simpl. apply (Inv_update q jid j); auto; try discriminate.
  now apply removed_queues_sorted.
Qed.

Lemma Inv_cancel jid q : Inv q -> Inv (snd (cancel_job jid q)).
Proof.
  intros HI. unfold cancel_job.
  destruct (dict_get Z.eqb (jobs q) jid) as [j|] eqn:Ej; [|exact HI].
  destruct (status j); try exact HI; simpl;
    (apply (Inv_update q jid j); auto; try discriminate;
     now apply removed_queues_sorted).
Qed.

(** In a state that satisfies the invariant, [submit_job] returns the id it
    allocated (the sort meets no unknown job id) and keeps the invariant. *)
Lemma submit_job_Inv now c a qn p k m q :
  Inv q ->
  fst (submit_job now c a qn p k m q) = Ok (next_job_id q)
  /\ Inv (snd (submit_job now c a qn p k m q)).
Proof.
  intros HI. pose proof HI as [Hb Hs Hf].
  unfold submit_job.
  set (n := next_job_id q).
  set (pe := match Priority_getitem (upper p) with
             | Ok p0 => p0 | Raise _ => NORMAL end).
  set (job := mkJob n c a pe qn k m now None None queued None None).
  set (jobs1 := dict_set Z.eqb (jobs q) n job).
  set (queues1 := if dict_mem String.eqb (queues q) qn then queues q
                  else dict_set String.eqb (queues q) qn []).
  assert (Hq1 : exists ids0,
             dict_get String.eqb queues1 qn = Some ids0
             /\ ids_sorted (jobs q) ids0
             /\ forall name, name <> qn ->
                   dict_get String.eqb queues1 name
                   = dict_get String.eqb (queues q) name).
  { unfold queues1, dict_mem.
    destruct (dict_get String.eqb (queues q) qn) as [l|] eqn:E.
    - exists l. split; [exact E | split; [now apply (Hs qn) |]].
      intros; reflexivity.
    - exists []. split; [|split].
      + apply (dict_get_set_eq _ Seqb_spec).
      + exists []. split; [reflexivity | constructor].
      + intros name Hne. apply (dict_get_set_ne _ Seqb_spec). congruence. }
  destruct Hq1 as [ids0 [Hget [Hsorted0 Hother]]].
  rewrite Hget.
  assert (Hold : forall x, In x ids0 -> sort_key jobs1 x = sort_key (jobs q) x).
  { intros x Hx. apply sort_key_set_fresh.
    destruct (ids_sorted_known _ _ _ Hsorted0 Hx) as [j Hj].
    apply Hb in Hj. unfold n. lia. }
  assert (Hnew : exists kn, sort_key jobs1 n = Ok kn).
  { unfold sort_key, jobs1. rewrite (dict_get_set_eq _ Zeqb_spec). eauto. }
  assert (Hall : exists ks, mapM (sort_key jobs1) (ids0 ++ [n]) = Ok ks).
  { apply mapM_Ok_all. intros x Hx. apply in_app_or in Hx.
    destruct Hx as [Hx|[<-|[]]]; [|exact Hnew].
    rewrite (Hold x Hx).
    destruct Hsorted0 as [ks0 [Hk0 _]]. now apply (mapM_Ok_inv _ _ _ Hk0). }
  destruct Hall as [ks Hks].
  destruct (sort_by_key_sorted jobs1 (ids0 ++ [n]) ks Hks) as [sorted [Hsort Hsd]].
  unfold _sort_queue. cbn [jobs queues next_job_id].
  rewrite (dict_get_set_eq _ Seqb_spec). fold jobs1. rewrite Hsort.
  cbn [fst snd jobs queues next_job_id]. split; [reflexivity|].
  split; cbn [jobs queues next_job_id].
  - intros x jx. unfold jobs1. destruct (Z.eq_dec n x) as [<-|Hne].
    + intros _. lia.
    + rewrite (dict_get_set_ne _ Zeqb_spec) by exact Hne.
      intros Hx. apply Hb in Hx. unfold n. lia.
  - intros name ids. destruct (string_dec qn name) as [<-|Hne].
    + rewrite (dict_get_set_eq _ Seqb_spec). now intros [= <-].
    + rewrite !(dict_get_set_ne _ Seqb_spec) by exact Hne.
      rewrite Hother by congruence. intros Hids.
      pose proof (Hs name ids Hids) as Hsd0.
      apply (ids_sorted_ext (jobs q)); [|exact Hsd0].
      intros x Hx. apply sort_key_set_fresh.
      destruct (ids_sorted_known _ _ _ Hsd0 Hx) as [j Hj].
      apply Hb in Hj. unfold n. lia.
  - unfold jobs1.
    apply (Forall_dict_set Z.eqb (fun x => status x <> failed));
      [exact Hf | discriminate].
Qed.

Lemma Inv_run_op o q : Inv q -> Inv (run_op o q).
Proof.
  intros HI. destruct o; simpl.
  - now apply submit_job_Inv.
  - now apply Inv_start.
  - now apply Inv_complete.
  - now apply Inv_cancel.
Qed.

Lemma reachable_Inv cfg q : reachable cfg q -> Inv q.
Proof.
  induction 1 as [|q o Hr IH]; [apply Inv_init | now apply Inv_run_op].
Qed.

Lemma reachable_run_ops cfg os :
  forall q, reachable cfg q -> reachable cfg (run_ops os q).
Proof.
  unfold run_ops. induction os as [|o os IH]; intros q Hq; simpl; [exact Hq|].
  apply IH. now constructor.
Qed.

(** *** The effect of [submit_job] on the jobs and on its queue *)

Lemma _sort_queue_jobs q name : jobs (snd (_sort_queue q name)) = jobs q.
Proof.
  unfold _sort_queue.
  destruct (dict_get String.eqb (queues q) name); [|reflexivity].
  destruct (sort_by_key _ _ _); reflexivity.
Qed.

Lemma submit_job_jobs now c a qn p k m q :
  jobs (snd (submit_job now c a qn p k m q))
  = dict_set Z.eqb (jobs q) (next_job_id q)
      (mkJob (next_job_id q) c a
         (match Priority_getitem (upper p) with Ok p0 => p0 | Raise _ => NORMAL end)
         qn k m now None None queued None None).
Proof.
  unfold submit_job.
  match goal with
  | |- context [_sort_queue ?q2 ?n] =>
      pose proof (_sort_queue_jobs q2 n) as H;
      destruct (_sort_queue q2 n) as [[u|e] q3]
  end; simpl in *; exact H.
Qed.

Lemma submit_job_effect now c a qn p k m q sorted :
  sort_by_key key_lt
    (sort_key (jobs (snd (submit_job now c a qn p k m q))))
    (match queue_ids qn q with Some l => l | None => [] end ++ [next_job_id q])
  = Ok sorted ->
  queue_ids qn (snd (submit_job now c a qn p k m q)) = Some sorted
  /\ next_job_id (snd (submit_job now c a qn p k m q)) = next_job_id q + 1.
Proof.
  rewrite submit_job_jobs. unfold queue_ids, submit_job, _sort_queue, dict_mem.
  cbn [jobs queues next_job_id]. intros Hsort.
  destruct (dict_get String.eqb (queues q) qn) as [l|] eqn:E.
  - rewrite E, (dict_get_set_eq _ Seqb_spec), Hsort.
    cbn [snd jobs queues next_job_id].
    now rewrite (dict_get_set_eq _ Seqb_spec).
  - rewrite !(dict_get_set_eq _ Seqb_spec). simpl app in *. rewrite Hsort.
    cbn [snd jobs queues next_job_id].
    now rewrite (dict_get_set_eq _ Seqb_spec).
Qed.

(** *** Status transitions *)

(** C1, as stated, fails on the code: [start_job] and [complete_job] test
    only that the job exists.  A job that completed is set running again by
    [start_job], a cancelled job is set running, and a job that is still
    queued is set completed by [complete_job]. *)
Lemma start_job_restarts_completed_job :
  status_of 1 (run_ops [submit_op 0 "default" "normal"; OpStart 1 1;
                        OpComplete 2 1 0] (init CfgNone)) = Some completed
  /\ status_of 1 (run_ops [submit_op 0 "default" "normal"; OpStart 1 1;
                           OpComplete 2 1 0; OpStart 3 1] (init CfgNone))
     = Some running
  /\ status_of 1 (run_ops [submit_op 0 "default" "normal"; OpCancel 1]
                     (init CfgNone)) = Some cancelled
  /\ status_of 1 (run_ops [submit_op 0 "default" "normal"; OpCancel 1;
                           OpStart 1 1] (init CfgNone)) = Some running
  /\ status_of 1 (run_ops [submit_op 0 "default" "normal"] (init CfgNone))
     = Some queued
  /\ status_of 1 (run_ops [submit_op 0 "default" "normal"; OpComplete 1 1 0]
                     (init CfgNone)) = Some completed.
Proof. vm_compute. repeat split. Qed.

(** C1 (amended): in every reachable state, one call changes the status of
    a job exactly as [next_status] says: [start_job] sets the job it names
    to running and [complete_job] sets it to completed, whatever its status
    was; [cancel_job] sets it to cancelled unless it is running or completed;
    the status of every other job stays as it is.  A job comes into being
    only by [submit_job], under the next id, which no job had, and as
    queued; this holds for the first submission as for every other. *)
Theorem status_changes_as_coded cfg q o :
  reachable cfg q ->
  (forall jid s,
      status_of jid q = Some s ->
      status_of jid (run_op o q) = Some (next_status o jid s))
  /\ (forall jid,
        status_of jid q = None ->
        status_of jid (run_op o q)
        = match o with
          | OpSubmit _ _ _ _ _ _ _ =>
              if jid =? next_job_id q then Some queued else None
          | _ => None
          end)
  /\ (forall now c a qn p k m,
        status_of (next_job_id q) q = None
        /\ status_of (next_job_id q) (run_op (OpSubmit now c a qn p k m) q)
           = Some queued).
Proof.
  intros Hr. apply reachable_Inv in Hr.
  assert (Hfresh : status_of (next_job_id q) q = None).
  { unfold status_of, get_job.
    destruct (dict_get Z.eqb (jobs q) (next_job_id q)) as [j|] eqn:E;
      [|reflexivity]. apply (inv_bounded q Hr) in E. lia. }
  split; [|split].
  - intros jid s Hs. unfold status_of, get_job in *.
    destruct (dict_get Z.eqb (jobs q) jid) as [j|] eqn:Ej; [|discriminate].
    simpl in Hs. injection Hs as <-.
    destruct o as [now c a qn p k m | now j0 | now j0 rc | j0]; simpl.
    + rewrite submit_job_jobs.
      rewrite (dict_get_set_ne _ Zeqb_spec), Ej; [reflexivity|].
      apply (inv_bounded q Hr) in Ej. lia.
    + unfold start_job. destruct (Z.eqb_spec j0 jid) as [->|Hne].
      * rewrite Ej. simpl. now rewrite (dict_get_set_eq _ Zeqb_spec).
      * destruct (dict_get Z.eqb (jobs q) j0); simpl;
          [rewrite (dict_get_set_ne _ Zeqb_spec) by exact Hne|];
          now rewrite Ej.
    + unfold complete_job. destruct (Z.eqb_spec j0 jid) as [->|Hne].
      * rewrite Ej. simpl. now rewrite (dict_get_set_eq _ Zeqb_spec).
      * destruct (dict_get Z.eqb (jobs q) j0); simpl;
          [rewrite (dict_get_set_ne _ Zeqb_spec) by exact Hne|];
          now rewrite Ej.
    + unfold cancel_job. destruct (Z.eqb_spec j0 jid) as [->|Hne].
      * rewrite Ej.
        destruct (status j) eqn:Es; simpl;
          rewrite ?(dict_get_set_eq _ Zeqb_spec), ?Ej; simpl;
          rewrite ?Es; reflexivity.
      * destruct (dict_get Z.eqb (jobs q) j0) as [j1|]; [|simpl; now rewrite Ej].
        destruct (status j1); simpl;
          rewrite ?(dict_get_set_ne _ Zeqb_spec) by exact Hne;
          now rewrite Ej.
  - intros jid Hs. unfold status_of, get_job in *.
    destruct (dict_get Z.eqb (jobs q) jid) as [j|] eqn:Ej; [discriminate|].
    destruct o as [now c a qn p k m | now j0 | now j0 rc | j0]; simpl.
    + rewrite submit_job_jobs. destruct (Z.eqb_spec jid (next_job_id q)) as [->|Hne].
      * now rewrite (dict_get_set_eq _ Zeqb_spec).
      * rewrite (dict_get_set_ne _ Zeqb_spec) by congruence. now rewrite Ej.
    + unfold start_job. destruct (dict_get Z.eqb (jobs q) j0) as [j1|] eqn:E0;
        simpl; [|now rewrite Ej].
      rewrite (dict_get_set_ne _ Zeqb_spec) by congruence. now rewrite Ej.
    + unfold complete_job. destruct (dict_get Z.eqb (jobs q) j0) as [j1|] eqn:E0;
        simpl; [|now rewrite Ej].
      rewrite (dict_get_set_ne _ Zeqb_spec) by congruence. now rewrite Ej.
    + unfold cancel_job. destruct (dict_get Z.eqb (jobs q) j0) as [j1|] eqn:E0;
        simpl; [|now rewrite Ej].
      destruct (status j1); simpl;
        rewrite ?(dict_get_set_ne _ Zeqb_spec) by congruence; now rewrite Ej.
  - intros now c a qn p k m. split; [exact Hfresh|].
    unfold status_of, get_job. simpl.
    rewrite submit_job_jobs. now rewrite (dict_get_set_eq _ Zeqb_spec).
Qed.

Lemma status_changes_as_coded_witness :
  status_of 1 (run_op (OpStart 3 1)
                 (run_ops [submit_op 0 "default" "normal"; OpStart 1 1;
                           OpComplete 2 1 0] (init CfgNone)))
  = Some running
  /\ status_of 1 (init CfgNone) = None
  /\ status_of 1 (run_op (submit_op 0 "default" "normal") (init CfgNone))
     = Some queued
  /\ status_of 2 (run_op (OpCancel 1)
                    (run_ops [submit_op 0 "a" "low"; submit_op 1 "a" "low"]
                       (init CfgNone)))
     = Some queued.
Proof.
  split; [|split; [|split]].
  - apply (proj1 (status_changes_as_coded CfgNone
                    (run_ops [submit_op 0 "default" "normal"; OpStart 1 1;
                              OpComplete 2 1 0] (init CfgNone))
                    (OpStart 3 1)
                    (reachable_run_ops CfgNone _ _ (reach_init CfgNone)))
             1 completed eq_refl).
  - apply (proj2 (proj2 (status_changes_as_coded CfgNone (init CfgNone)
                           (OpCancel 1) (reach_init CfgNone)))
             0 "job"%string [] "default"%string "normal"%string 1
             "1GB"%string).
  - apply (proj2 (proj2 (status_changes_as_coded CfgNone (init CfgNone)
                           (OpCancel 1) (reach_init CfgNone)))
             0 "job"%string [] "default"%string "normal"%string 1
             "1GB"%string).
  - apply (proj1 (status_changes_as_coded CfgNone
                    (run_ops [submit_op 0 "a" "low"; submit_op 1 "a" "low"]
                       (init CfgNone))
                    (OpCancel 1)
                    (reachable_run_ops CfgNone _ _ (reach_init CfgNone)))
             2 queued eq_refl).
Defined.

(** *** Queue order *)

Lemma submit_step now qn p q js ids n sorted :
  jobs q = js ->
  match queue_ids qn q with Some l => l | None => [] end = ids ->
  next_job_id q = n ->
  sort_by_key key_lt
    (sort_key
       (dict_set Z.eqb js n
          (mkJob n "job" [] (match Priority_getitem (upper p) with
                             | Ok p0 => p0 | Raise _ => NORMAL end)
                 qn 1 "1GB" now None None queued None None)))
    (ids ++ [n]) = Ok sorted ->
  jobs (run_op (submit_op now qn p) q)
  = dict_set Z.eqb js n
      (mkJob n "job" [] (match Priority_getitem (upper p) with
                         | Ok p0 => p0 | Raise _ => NORMAL end)
             qn 1 "1GB" now None None queued None None)
  /\ match queue_ids qn (run_op (submit_op now qn p) q) with
     | Some l => l | None => [] end = sorted
  /\ next_job_id (run_op (submit_op now qn p) q) = n + 1.
Proof.
  intros <- <- <- Hsort. unfold submit_op, run_op.
  split; [apply submit_job_jobs|].
  destruct (submit_job_effect now "job" [] qn p 1 "1GB" q sorted) as [H1 H2].
  - rewrite submit_job_jobs. exact Hsort.
  - rewrite H1. now split.
Qed.

Lemma init_queue_empty cfg qn :
  match queue_ids qn (init cfg) with Some l => l | None => [] end = [].
Proof.
  unfold queue_ids.
  destruct (dict_get String.eqb (queues (init cfg)) qn) as [l|] eqn:E;
    [|reflexivity].
  now apply init_queue_ids in E.
Qed.

Lemma queue_ids_of_default qn q ids :
  match queue_ids qn q with Some l => l | None => [] end = ids ->
  ids <> [] -> queue_ids qn q = Some ids.
Proof. destruct (queue_ids qn q); intros <-; congruence. Qed.

(** *** No job is ever failed *)

Lemma count_status_none s (l : list Job) :
  Forall (fun j => status j <> s) l -> count_status s l = 0%nat.
Proof.
  unfold count_status. induction 1 as [|j l Hj Hl IH]; simpl; [reflexivity|].
  destruct (Status_eqb (status j) s) eqn:E; [|exact IH].
  exfalso. apply Hj. destruct (status j), s; simpl in E; congruence.
Qed.

Lemma filter_none {A : Type} (f : A -> bool) (l : list A) :
  Forall (fun x => f x = false) l -> filter f l = [].
Proof.
  induction 1 as [|x l Hx Hl IH]; simpl; [reflexivity|]. now rewrite Hx.
Qed.

(** C9: in every reachable state no job has the status failed, so
    [get_jobs] filtered on that status returns the empty list (whatever the
    queue filter), and [get_queue_stats] returns, for every queue name,
    statistics whose failed count is 0. *)
Theorem no_job_is_ever_failed cfg q :
  reachable cfg q ->
  (forall jid j, get_job jid q = Some j -> status j <> failed)
  /\ (forall queue_filter, get_jobs queue_filter (Some failed) q = [])
  /\ (forall name, exists st,
         get_queue_stats name q = Ok st /\ n_failed st = 0%nat).
Proof.
  intros Hr. apply reachable_Inv in Hr. destruct Hr as [Hb Hs Hf].
  split; [|split].
  - intros jid j Hj. unfold get_job in Hj.
    apply (dict_get_In _ Zeqb_spec) in Hj.
    rewrite Forall_forall in Hf. apply (Hf (jid, j) Hj).
  - intros qf. unfold get_jobs.
    assert (Hv : Forall (fun j => Status_eqb (status j) failed = false)
                   (dict_values (jobs q))).
    { unfold dict_values. rewrite Forall_forall in *. intros j Hj.
      apply in_map_iff in Hj. destruct Hj as [e [<- He]].
      specialize (Hf e He). destruct (status (snd e)); simpl; congruence. }
    apply filter_none.
    destruct qf as [[|c name]|]; try exact Hv.
    rewrite Forall_forall in *. intros j Hj. apply filter_In in Hj.
    now apply Hv.
  - intros name. unfold get_queue_stats.
    set (ids := match dict_get String.eqb (queues q) name with
                | Some ids => ids | None => [] end).
    assert (Hids : ids_sorted (jobs q) ids).
    { unfold ids. destruct (dict_get String.eqb (queues q) name) eqn:E.
      - now apply (Hs name).
      - exists []. split; [reflexivity | constructor]. }
    set (look := fun jid : Z =>
                   match dict_get Z.eqb (jobs q) jid with
                   | Some j => Ok j | None => Raise KeyError end).
    assert (Hall : exists js, mapM look ids = Ok js).
    { apply mapM_Ok_all. intros x Hx.
      destruct (ids_sorted_known _ _ _ Hids Hx) as [j Hj].
      exists j. unfold look. now rewrite Hj. }
    destruct Hall as [js Hjs]. rewrite Hjs. simpl.
    eexists; split; [reflexivity|]. simpl.
    apply count_status_none.
    (* every job the lookup returned is a job of the table *)
    clear Hids. revert js Hjs.
    induction ids as [|x ids IH]; simpl; intros js Hjs.
    + injection Hjs as <-. constructor.
    + unfold look at 1 in Hjs.
      destruct (dict_get Z.eqb (jobs q) x) as [j|] eqn:Ex; [|discriminate].
      simpl in Hjs. destruct (mapM look ids) as [js'|]; [|discriminate].
      simpl in Hjs. injection Hjs as <-.
      constructor; [|now apply IH].
      apply (dict_get_In _ Zeqb_spec) in Ex.
      rewrite Forall_forall in Hf. apply (Hf (x, j) Ex).
Qed.

Lemma no_job_is_ever_failed_witness :
  get_jobs None (Some failed)
    (run_ops [submit_op 0 "default" "normal"; OpStart 1 1; OpComplete 2 1 1]
       (init CfgNone)) = [].
Proof.
  apply (proj1 (proj2 (no_job_is_ever_failed CfgNone _
           (reachable_run_ops CfgNone
              [submit_op 0 "default" "normal"; OpStart 1 1; OpComplete 2 1 1]
              _ (reach_init CfgNone))))).
Defined.

Local Open Scope string_scope.
Local Open Scope Z_scope.
Local Open Scope list_scope.

(** *** Sorting keeps the elements *)

Lemma insert_by_perm (x : (Z * Z) * Z) l :
  Permutation (insert_by key_lt x l) (x :: l).
Proof.
  induction l as [|y l IH]; simpl; [reflexivity|].
  destruct (key_lt (fst x) (fst y)); [reflexivity|].
  rewrite IH. apply perm_swap.
Qed.

Lemma stable_sort_perm (l : list ((Z * Z) * Z)) :
  Permutation (stable_sort key_lt l) l.
Proof.
  unfold stable_sort.
  assert (G : forall acc,
             Permutation (fold_left (fun a x => insert_by key_lt x a) l acc)
                         (acc ++ l)).
  { induction l as [|x l IH]; intros acc; simpl.
    - now rewrite app_nil_r.
    - rewrite IH, insert_by_perm. apply Permutation_middle. }
  apply (G []).
Qed.

Lemma mapM_keyed_snd (key : Z -> result (Z * Z)) (l : list Z) kl :
  mapM (fun x => bind (key x) (fun k => Ok (k, x))) l = Ok kl ->
  map snd kl = l.
Proof.
  revert kl. induction l as [|x l IH]; simpl; intros kl H.
  - now injection H as <-.
  - destruct (key x) as [k|e]; [|discriminate]. simpl in H.
    destruct (mapM _ l) as [kl'|e]; [|discriminate]. simpl in H.
    injection H as <-. simpl. now rewrite (IH kl').
Qed.

Lemma sort_by_key_perm (key : Z -> result (Z * Z)) (l sorted : list Z) :
  sort_by_key key_lt key l = Ok sorted -> Permutation sorted l.
Proof.
  unfold sort_by_key.
  destruct (mapM _ l) as [kl|e] eqn:E; simpl; [|discriminate].
  intros [= <-]. rewrite <- (mapM_keyed_snd key l kl E).
  apply Permutation_map, stable_sort_perm.
Qed.

Lemma _sort_queue_other q qn name :
  name <> qn ->
  dict_get String.eqb (queues (snd (_sort_queue q qn))) name
  = dict_get String.eqb (queues q) name.
Proof.
  intros Hne. unfold _sort_queue.
  destruct (dict_get String.eqb (queues q) qn); [|reflexivity].
  destruct (sort_by_key _ _ _); [|reflexivity].
  cbn [snd queues]. apply (dict_get_set_ne _ Seqb_spec). congruence.
Qed.

Lemma submit_job_other_queues now c a qn p k m q name :
  name <> qn ->
  queue_ids name (snd (submit_job now c a qn p k m q)) = queue_ids name q.
Proof.
  intros Hne. unfold queue_ids, submit_job.
  match goal with
  | |- context [_sort_queue ?q2 ?n] =>
      pose proof (_sort_queue_other q2 n name Hne) as H;
      destruct (_sort_queue q2 n) as [[u|e] q3]
  end; cbn [snd queues] in *; rewrite H; clear H; unfold dict_mem;
    destruct (dict_get String.eqb (queues q) qn) as [l|] eqn:E;
    rewrite ?E, ?(dict_get_set_eq _ Seqb_spec);
    rewrite ?(dict_get_set_ne _ Seqb_spec) by congruence; reflexivity.
Qed.

(** *** What [submit_job] does in a state that satisfies the invariant *)

Lemma submit_job_spec now c a qn p k m q :
  Inv q ->
  exists sorted,
    fst (submit_job now c a qn p k m q) = Ok (next_job_id q)
    /\ next_job_id (snd (submit_job now c a qn p k m q)) = next_job_id q + 1
    /\ queue_ids qn (snd (submit_job now c a qn p k m q)) = Some sorted
    /\ Permutation sorted
         (match queue_ids qn q with Some l => l | None => [] end
          ++ [next_job_id q])
    /\ forall name, name <> qn ->
         queue_ids name (snd (submit_job now c a qn p k m q))
         = queue_ids name q.
Proof.
  intros HI. pose proof HI as [Hb Hs Hf].
  destruct (submit_job_Inv now c a qn p k m q HI) as [Hret _].
  set (ids0 := match queue_ids qn q with Some l => l | None => [] end).
  assert (Hsorted0 : ids_sorted (jobs q) ids0).
  { unfold ids0, queue_ids.
    destruct (dict_get String.eqb (queues q) qn) as [l|] eqn:E.
    - now apply (Hs qn).
    - exists []. split; [reflexivity | constructor]. }
  assert (Hall : exists ks,
             mapM (sort_key (jobs (snd (submit_job now c a qn p k m q))))
                  (ids0 ++ [next_job_id q]) = Ok ks).
  { rewrite submit_job_jobs. apply mapM_Ok_all. intros x Hx.
    apply in_app_or in Hx. destruct Hx as [Hx|[<-|[]]].
    - rewrite sort_key_set_fresh.
      + destruct Hsorted0 as [ks0 [Hk0 _]]. now apply (mapM_Ok_inv _ _ _ Hk0).
      + destruct (ids_sorted_known _ _ _ Hsorted0 Hx) as [j Hj].
        apply Hb in Hj. lia.
    - unfold sort_key. rewrite (dict_get_set_eq _ Zeqb_spec). eauto. }
  destruct Hall as [ks Hks].
  destruct (sort_by_key_sorted _ _ ks Hks) as [sorted [Hsort _]].
  exists sorted.
  destruct (submit_job_effect now c a qn p k m q sorted Hsort) as [H1 H2].
  split; [exact Hret|]. split; [exact H2|]. split; [exact H1|].
  split; [now apply sort_by_key_perm in Hsort|].
  intros name Hne. now apply submit_job_other_queues.
Qed.

(** *** A second invariant: what the queues list *)

Record Live (q : JobQueue) : Prop := mkLive {
  live_nodup :
    forall name ids, queue_ids name q = Some ids -> NoDup ids;
  live_status :
    forall name ids jid,
      queue_ids name q = Some ids -> In jid ids ->
      exists j, get_job jid q = Some j
                /\ (status j = queued \/ status j = running)
                /\ queue j = name;
  live_keys : dict_keys (jobs q) = ids_before (next_job_id q);
  live_ids : Forall (fun e => job_id (snd e) = fst e) (jobs q);
  live_next : 1 <= next_job_id q
}.

Lemma dict_keys_set_present (d : list (Z * Job)) k v v0 :
  dict_get Z.eqb d k = Some v0 ->
  dict_keys (dict_set Z.eqb d k v) = dict_keys d.
Proof.
  unfold dict_keys. induction d as [|[k' v'] d IH]; simpl; [discriminate|].
  destruct (k' =? k) eqn:E; simpl; [reflexivity|].
  intros H. now rewrite IH.
Qed.

Lemma dict_keys_set_absent (d : list (Z * Job)) k v :
  dict_get Z.eqb d k = None ->
  dict_keys (dict_set Z.eqb d k v) = dict_keys d ++ [k].
Proof.
  unfold dict_keys. induction d as [|[k' v'] d IH]; simpl; [reflexivity|].
  destruct (k' =? k) eqn:E; simpl; [discriminate|].
  intros H. now rewrite IH.
Qed.

Lemma Forall_ids_set (d : list (Z * Job)) k v :
  Forall (fun e => job_id (snd e) = fst e) d -> job_id v = k ->
  Forall (fun e => job_id (snd e) = fst e) (dict_set Z.eqb d k v).
Proof.
  intros Hd Hv. induction Hd as [|[k0 v0] d H0 Hd IH]; simpl.
  - constructor; [exact Hv | constructor].
  - destruct (k0 =? k) eqn:E; constructor; auto.
    apply Z.eqb_eq in E. simpl. congruence.
Qed.

Lemma ids_before_succ n : 1 <= n -> ids_before (n + 1) = ids_before n ++ [n].
Proof.
  intros Hn. unfold ids_before.
  replace (Z.to_nat (n + 1) - 1)%nat with (S (Z.to_nat n - 1)) by lia.
  rewrite seq_S, map_app. simpl. f_equal. f_equal. lia.
Qed.

Lemma NoDup_list_remove x l : NoDup l -> NoDup (list_remove x l).
Proof.
  induction 1 as [|y l Hy Hl IH]; simpl; [constructor|].
  destruct (y =? x); [exact Hl|]. constructor; [|exact IH].
  intros Hin. apply Hy. now apply In_list_remove in Hin.
Qed.

Lemma In_list_remove_neq x y l :
  NoDup l -> In y (list_remove x l) -> y <> x /\ In y l.
Proof.
  induction 1 as [|z l Hz Hl IH]; simpl; [tauto|].
  destruct (Z.eqb_spec z x) as [->|Hne].
  - intros Hy. split; [|now right]. intros ->. contradiction.
  - intros [<-|Hy]; [split; [exact Hne | now left]|].
    destruct (IH Hy). split; [assumption | now right].
Qed.

Lemma removed_ids jid (ids : list Z) y :
  NoDup ids ->
  In y (if list_mem jid ids then list_remove jid ids else ids) ->
  y <> jid /\ In y ids.
Proof.
  intros Hnd. destruct (list_mem jid ids) eqn:E.
  - now apply In_list_remove_neq.
  - intros Hy. split; [|exact Hy]. intros ->.
    apply list_mem_In in Hy. congruence.
Qed.

Lemma Live_init cfg : Live (init cfg).
Proof.
  split.
  - intros name ids H. apply init_queue_ids in H. subst. constructor.
  - intros name ids jid H. apply init_queue_ids in H. subst. intros [].
  - reflexivity.
  - constructor.
  - simpl. lia.
Qed.

(** A call that rewrites the entry of one known job, keeping its id and its
    queue name, and leaves in the queues only jobs that were there. *)
Lemma Live_update q jid j j' qs :
  Live q ->
  get_job jid q = Some j ->
  job_id j' = job_id j -> queue j' = queue j ->
  (forall name ids',
      dict_get String.eqb qs name = Some ids' ->
      exists ids, queue_ids name q = Some ids
                  /\ NoDup ids'
                  /\ forall y, In y ids' ->
                       In y ids
                       /\ (y = jid ->
                           status j' = queued \/ status j' = running)) ->
  Live (mkJobQueue (dict_set Z.eqb (jobs q) jid j') qs (next_job_id q)).
Proof.
  intros [Hnd Hst Hk Hi Hn] Hj Hid Hq Hqs. unfold get_job in Hj.
  split; unfold queue_ids, get_job in *; cbn [jobs queues next_job_id].
  - intros name ids' H. destruct (Hqs name ids' H) as [ids [_ [Hd _]]]. exact Hd.
  - intros name ids' y H Hy.
    destruct (Hqs name ids' H) as [ids [Hids [_ Hin]]].
    destruct (Hin y Hy) as [Hy0 Hrun].
    destruct (Hst name ids y Hids Hy0) as [jy [Hjy [Hsy Hqy]]].
    destruct (Z.eq_dec jid y) as [->|Hne].
    + exists j'. rewrite (dict_get_set_eq _ Zeqb_spec).
      split; [reflexivity|]. split; [now apply Hrun|].
      rewrite Hq. congruence.
    + exists jy. rewrite (dict_get_set_ne _ Zeqb_spec) by exact Hne. auto.
  - rewrite (dict_keys_set_present _ _ _ j Hj). exact Hk.
  - apply Forall_ids_set; [exact Hi|]. rewrite Hid.
    apply (dict_get_In _ Zeqb_spec) in Hj.
    rewrite Forall_forall in Hi. apply (Hi (jid, j) Hj).
  - exact Hn.
Qed.

Lemma Live_start now jid q : Live q -> Live (snd (start_job now jid q)).
Proof.
  intros HL. unfold start_job.
  destruct (dict_get Z.eqb (jobs q) jid) as [j|] eqn:Ej; [|exact HL].
  cbn [snd]. apply (Live_update q jid j); auto.
  intros name ids H. exists ids. split; [exact H|].
  split; [now apply (live_nodup q HL name)|].
  intros y Hy. split; [exact Hy | intros _; now right].
Qed.

Lemma Live_removed q jid j j' :
  Live q ->
  get_job jid q = Some j ->
  job_id j' = job_id j -> queue j' = queue j ->
  Live (mkJobQueue (dict_set Z.eqb (jobs q) jid j')
          (remove_from_queues jid (queues q)) (next_job_id q)).
Proof.
  intros HL Hj Hid Hq. apply (Live_update q jid j); auto.
  intros name ids'. rewrite get_remove_from_queues.
  destruct (dict_get String.eqb (queues q) name) as [ids|] eqn:E;
    [|discriminate].
  simpl. intros [= <-]. exists ids. split; [exact E|].
  pose proof (live_nodup q HL name ids E) as Hnd.
  split.
  - destruct (list_mem jid ids); [now apply NoDup_list_remove | exact Hnd].
  - intros y Hy. destruct (removed_ids jid ids y Hnd Hy) as [Hne Hin].
    split; [exact Hin | intros ->; congruence].
Qed.

Lemma Live_complete now jid rc q :
  Live q -> Live (snd (complete_job now jid rc q)).
Proof.
  intros HL. unfold complete_job.
  destruct (dict_get Z.eqb (jobs q) jid) as [j|] eqn:Ej; [|exact HL].
  cbn [snd]. now apply (Live_removed q jid j).
Qed.

Lemma Live_cancel jid q : Live q -> Live (snd (cancel_job jid q)).
Proof.
  intros HL. unfold cancel_job.
  destruct (dict_get Z.eqb (jobs q) jid) as [j|] eqn:Ej; [|exact HL].
  destruct (status j); try exact HL; cbn [snd];
    now apply (Live_removed q jid j).
Qed.

Lemma Live_submit now c a qn p k m q :
  Inv q -> Live q -> Live (snd (submit_job now c a qn p k m q)).
Proof.
  intros HI HL. pose proof HI as [Hb Hs Hf].
  pose proof HL as [Hnd Hst Hk Hi Hn].
  destruct (submit_job_spec now c a qn p k m q HI)
    as [sorted [_ [Hnext [Hq [Hperm Hother]]]]].
  pose proof (submit_job_jobs now c a qn p k m q) as Hjobs.
  assert (Hfresh : dict_get Z.eqb (jobs q) (next_job_id q) = None).
  { destruct (dict_get Z.eqb (jobs q) (next_job_id q)) as [j|] eqn:E;
      [|reflexivity]. apply Hb in E. lia. }
  assert (Hold : forall name ids y,
             queue_ids name q = Some ids -> In y ids -> y <> next_job_id q).
  { intros name ids y H Hy.
    destruct (Hst name ids y H Hy) as [j [Hj _]]. unfold get_job in Hj.
    apply Hb in Hj. lia. }
  split.
  - intros name ids H. destruct (string_dec name qn) as [->|Hne].
    + rewrite Hq in H. injection H as <-.
      apply (Permutation_NoDup (Permutation_sym Hperm)).
      apply NoDup_app; [| repeat constructor; simpl; tauto |].
      * destruct (queue_ids qn q) as [l|] eqn:E; [|constructor].
        now apply (Hnd qn).
      * intros x Hx [Heq|[]].
        destruct (queue_ids qn q) as [l|] eqn:E; [|destruct Hx].
        now apply (Hold qn l x E).
    + rewrite Hother in H by exact Hne. now apply (Hnd name).
  - intros name ids y H Hy. unfold get_job. rewrite Hjobs.
    assert (Hcase : y = next_job_id q /\ name = qn
                    \/ exists ids0, queue_ids name q = Some ids0 /\ In y ids0).
    { destruct (string_dec name qn) as [->|Hne].
      - rewrite Hq in H. injection H as <-.
        apply (Permutation_in _ Hperm) in Hy. apply in_app_or in Hy.
        destruct Hy as [Hy|[<-|[]]]; [right | now left].
        destruct (queue_ids qn q) as [l|] eqn:E; [|destruct Hy]. eauto.
      - right. rewrite Hother in H by exact Hne. eauto. }
    destruct Hcase as [[-> ->] | [ids0 [H0 Hy0]]].
    + rewrite (dict_get_set_eq _ Zeqb_spec). eexists. split; [reflexivity|].
      simpl. auto.
    + rewrite (dict_get_set_ne _ Zeqb_spec).
      * now apply (Hst name ids0).
      * intros Heq. now apply (Hold name ids0 y H0 Hy0).
  - rewrite Hjobs, Hnext, (dict_keys_set_absent _ _ _ Hfresh), Hk.
    now rewrite ids_before_succ.
  - rewrite Hjobs. now apply Forall_ids_set.
  - rewrite Hnext. lia.
Qed.

Lemma reachable_Live cfg q : reachable cfg q -> Live q.
Proof.
  induction 1 as [|q o Hr IH]; [apply Live_init|].
  pose proof (reachable_Inv cfg q Hr) as HI.
  destruct o; simpl.
  - now apply Live_submit.
  - now apply Live_start.
  - now apply Live_complete.
  - now apply Live_cancel.
Qed.

(** *** The queue names are kept once *)

Lemma keys_remove_from_queues jid qs :
  dict_keys (remove_from_queues jid qs) = dict_keys qs.
Proof.
  unfold dict_keys, remove_from_queues. rewrite map_map. reflexivity.
Qed.

Lemma Uniq_init cfg : NoDup (dict_keys (queues (init cfg))).
Proof.
  unfold init. cbn [queues].
  assert (G : forall names (acc : list (string * list Z)),
             NoDup (dict_keys acc) ->
             NoDup (dict_keys
                      (fold_left (fun qs name => dict_set String.eqb qs name [])
                                 names acc))).
  { induction names as [|n names IH]; intros acc Ha; simpl; [exact Ha|].
    apply IH. now apply (NoDup_keys_set _ Seqb_spec). }
  apply G. constructor.
Qed.

Lemma Uniq_sort q name :
  NoDup (dict_keys (queues q)) ->
  NoDup (dict_keys (queues (snd (_sort_queue q name)))).
Proof.
  intros H. unfold _sort_queue.
  destruct (dict_get String.eqb (queues q) name); [|exact H].
  destruct (sort_by_key _ _ _); [|exact H].
  cbn [snd queues]. now apply (NoDup_keys_set _ Seqb_spec).
Qed.

Lemma Uniq_run_op o q :
  NoDup (dict_keys (queues q)) -> NoDup (dict_keys (queues (run_op o q))).
Proof.
  intros H. destruct o as [now c a qn p k m | now j0 | now j0 rc | j0]; simpl.
  - unfold submit_job.
    match goal with
    | |- context [_sort_queue ?q2 ?n] =>
        assert (H2 : NoDup (dict_keys (queues q2)));
        [| pose proof (Uniq_sort q2 n H2) as H3;
           destruct (_sort_queue q2 n) as [[u|e] q3]; exact H3]
    end.
    cbn [queues].
    assert (H1 : NoDup (dict_keys
                          (if dict_mem String.eqb (queues q) qn then queues q
                           else dict_set String.eqb (queues q) qn []))).
    { destruct (dict_mem String.eqb (queues q) qn); [exact H|].
      now apply (NoDup_keys_set _ Seqb_spec). }
    destruct (dict_get String.eqb _ qn); [|exact H1].
    now apply (NoDup_keys_set _ Seqb_spec).
  - unfold start_job. destruct (dict_get Z.eqb (jobs q) j0); exact H.
  - unfold complete_job. destruct (dict_get Z.eqb (jobs q) j0); [|exact H].
    cbn [snd queues]. now rewrite keys_remove_from_queues.
  - unfold cancel_job. destruct (dict_get Z.eqb (jobs q) j0) as [j|]; [|exact H].
    destruct (status j); try exact H; cbn [snd queues];
      now rewrite keys_remove_from_queues.
Qed.

Lemma reachable_Uniq cfg q : reachable cfg q -> NoDup (dict_keys (queues q)).
Proof.
  induction 1 as [|q o Hr IH]; [apply Uniq_init | now apply Uniq_run_op].
Qed.

Lemma remove_absent jid (qs : list (string * list Z)) :
  NoDup (dict_keys qs) ->
  (forall name ids, dict_get String.eqb qs name = Some ids -> ~ In jid ids) ->
  remove_from_queues jid qs = qs.
Proof.
  intros Hnd H. unfold remove_from_queues.
  rewrite <- (map_id qs) at 2. apply map_ext_in. intros [name ids] He. simpl.
  apply (dict_get_unique _ Seqb_spec _ _ _ Hnd) in He.
  destruct (list_mem jid ids) eqn:E; [|reflexivity].
  apply list_mem_In in E. now apply H in He.
Qed.

Lemma set_status_same j : set_status j (status j) = j.
Proof. now destruct j. Qed.

(** *** Rejected calls *)

(** C2, as stated, fails on the code: the guard of [cancel_job] rejects the
    statuses running and completed only, so cancelling a job a second time
    returns true. *)
Lemma cancel_job_twice_returns_true :
  status_of 1 (run_ops [submit_op 0 "default" "normal"; OpCancel 1]
                 (init CfgNone)) = Some cancelled
  /\ fst (cancel_job 1 (run_ops [submit_op 0 "default" "normal"; OpCancel 1]
                          (init CfgNone))) = true.
Proof. vm_compute. split; reflexivity. Qed.

(** C2 (amended): [cancel_job] on a job whose status is running or completed
    returns false and leaves the whole state (statuses, timestamps, queues)
    as it was; on a job that is already cancelled it returns true, and that
    is all: in every reachable state the whole state stays as it was; the
    status failed needs no case, since every job of a reachable state is
    queued, running, completed or cancelled; [cancel_job], [start_job] and
    [complete_job] with an id that names no job return false and leave the
    state as it was. *)
Theorem rejected_calls_change_nothing :
  (forall q jid j,
      get_job jid q = Some j ->
      status j = running \/ status j = completed ->
      cancel_job jid q = (false, q))
  /\ (forall cfg q jid j,
        reachable cfg q ->
        get_job jid q = Some j ->
        status j = cancelled ->
        cancel_job jid q = (true, q))
  /\ (forall cfg q jid j,
        reachable cfg q ->
        get_job jid q = Some j ->
        status j = queued \/ status j = running
        \/ status j = completed \/ status j = cancelled)
  /\ (forall q jid,
        get_job jid q = None ->
        cancel_job jid q = (false, q)
        /\ (forall now, start_job now jid q = (false, q))
        /\ (forall now rc, complete_job now jid rc q = (false, q))).
Proof.
  unfold get_job. split; [|split; [|split]].
  - intros q jid j Hj Hs. unfold cancel_job. rewrite Hj.
    destruct Hs as [-> | ->]; reflexivity.
  - intros cfg q jid j Hr Hj Hs. unfold cancel_job. rewrite Hj, Hs.
    rewrite <- Hs, set_status_same, (dict_set_same _ _ _ _ Hj).
    rewrite remove_absent.
    + now destruct q.
    + now apply (reachable_Uniq cfg).
    + intros name ids Hids Hin.
      destruct (live_status q (reachable_Live cfg q Hr) name ids jid Hids Hin)
        as [j' [Hj' [Hst _]]].
      unfold get_job in Hj'. rewrite Hj in Hj'. injection Hj' as <-.
      destruct Hst; congruence.
  - intros cfg q jid j Hr Hj.
    pose proof (inv_no_failed q (reachable_Inv cfg q Hr)) as Hf.
    rewrite Forall_forall in Hf.
    apply (dict_get_In _ Zeqb_spec) in Hj. apply Hf in Hj. simpl in Hj.
    destruct (status j); auto. congruence.
  - intros q jid Hj. unfold cancel_job, start_job, complete_job. rewrite Hj.
    repeat split.
Qed.

Lemma rejected_calls_change_nothing_witness :
  cancel_job 1 (run_ops [submit_op 0 "default" "normal"; OpStart 1 1]
                  (init CfgNone))
  = (false, run_ops [submit_op 0 "default" "normal"; OpStart 1 1]
              (init CfgNone))
  /\ cancel_job 1 (run_ops [submit_op 0 "default" "normal";
                            submit_op 1 "default" "high"; OpCancel 1]
                     (init CfgNone))
     = (true, run_ops [submit_op 0 "default" "normal";
                       submit_op 1 "default" "high"; OpCancel 1]
                (init CfgNone))
  /\ cancel_job 7 (init CfgNone) = (false, init CfgNone).
Proof.
  split; [|split].
  - eapply (proj1 rejected_calls_change_nothing
              (run_ops [submit_op 0 "default" "normal"; OpStart 1 1]
                 (init CfgNone)) 1).
    + reflexivity.
    + left. reflexivity.
  - eapply (proj1 (proj2 rejected_calls_change_nothing) CfgNone
              (run_ops [submit_op 0 "default" "normal";
                        submit_op 1 "default" "high"; OpCancel 1]
                 (init CfgNone)) 1).
    + apply reachable_run_ops, reach_init.
    + reflexivity.
    + reflexivity.
  - apply (proj2 (proj2 (proj2 rejected_calls_change_nothing))
             (init CfgNone) 7).
    reflexivity.
Defined.

(** *** First in, first out *)

(** Of two jobs of one priority, [a] was submitted before [b]. *)
Definition fifo_rel (js : list (Z * Job)) (a b : Z) : Prop :=
  forall ja jb,
    dict_get Z.eqb js a = Some ja -> dict_get Z.eqb js b = Some jb ->
    priority ja = priority jb -> a < b.

Lemma StronglySorted_weaken {A : Type} (R S : A -> A -> Prop) (l : list A) :
  (forall a b, In a l -> In b l -> R a b -> S a b) ->
  StronglySorted R l -> StronglySorted S l.
Proof.
  intros H Hs. induction Hs as [|x l Hs IH Hx]; constructor.
  - apply IH. intros a b Ha Hb. apply H; now right.
  - rewrite Forall_forall in *. intros y Hy.
    apply H; [now left | now right | now apply Hx].
Qed.

Lemma StronglySorted_list_remove (R : Z -> Z -> Prop) x l :
  StronglySorted R l -> StronglySorted R (list_remove x l).
Proof.
  induction 1 as [|y l Hs IH Hy]; simpl; [constructor|].
  destruct (y =? x); [exact Hs|]. constructor; [exact IH|].
  rewrite Forall_forall in *. intros z Hz. apply Hy.
  now apply In_list_remove in Hz.
Qed.

Lemma StronglySorted_insert {A : Type} (R : A -> A -> Prop) l1 x l2 :
  StronglySorted R (l1 ++ l2) ->
  Forall (fun a => R a x) l1 -> Forall (R x) l2 ->
  StronglySorted R (l1 ++ x :: l2).
Proof.
  induction l1 as [|y l1 IH]; simpl; intros Hs H1 H2.
  - now constructor.
  - inversion Hs as [|? ? Hs' Hy]; subst.
    inversion H1 as [|? ? Hyx H1']; subst.
    constructor; [now apply IH|].
    rewrite Forall_forall in *. intros z Hz. apply in_app_or in Hz.
    destruct Hz as [Hz|[<-|Hz]]; [| exact Hyx |];
      apply Hy; apply in_or_app; auto.
Qed.

Lemma StronglySorted_pick {A : Type} (R : A -> A -> Prop) l1 a l2 b l3 :
  StronglySorted R (l1 ++ a :: l2 ++ b :: l3) -> R a b.
Proof.
  induction l1 as [|y l1 IH]; simpl; intros Hs;
    inversion Hs as [|? ? Hs' Hy]; subst; [|now apply IH].
  rewrite Forall_forall in Hy. apply Hy. apply in_or_app. right. now left.
Qed.

Lemma key_le_not_lt a b : key_le a b -> key_lt b a = false.
Proof.
  unfold key_le, key_lt. intros H.
  apply orb_false_iff. split; [apply Z.ltb_ge; lia|].
  apply andb_false_iff.
  destruct (Z.eq_dec (fst b) (fst a)) as [E|E];
    [right; apply Z.ltb_ge; lia | left; now apply Z.eqb_neq].
Qed.

Lemma key_lt_le_trans a b c :
  key_lt a b = true -> key_le b c -> key_lt a c = true.
Proof.
  unfold key_le, key_lt. intros H Hle.
  apply orb_true_iff in H. apply orb_true_iff.
  destruct H as [H|H].
  - apply Z.ltb_lt in H. left. apply Z.ltb_lt. lia.
  - apply andb_true_iff in H. destruct H as [H1 H2].
    apply Z.eqb_eq in H1. apply Z.ltb_lt in H2.
    destruct Hle as [Hle|[He Hle]].
    + left. apply Z.ltb_lt. lia.
    + right. apply andb_true_iff. split; [apply Z.eqb_eq | apply Z.ltb_lt]; lia.
Qed.

(** A new element goes behind everything that is not greater. *)
Lemma insert_by_last (x : (Z * Z) * Z) acc :
  Forall (fun y => key_le (fst y) (fst x)) acc ->
  insert_by key_lt x acc = acc ++ [x].
Proof.
  induction 1 as [|y acc Hy Hacc IH]; simpl; [reflexivity|].
  now rewrite (key_le_not_lt _ _ Hy), IH.
Qed.

(** Sorting leaves a sorted list as it is. *)
Lemma stable_sort_sorted_id (l : list ((Z * Z) * Z)) :
  StronglySorted pair_le l -> stable_sort key_lt l = l.
Proof.
  unfold stable_sort.
  assert (G : forall acc,
             StronglySorted pair_le (acc ++ l) ->
             fold_left (fun a x => insert_by key_lt x a) l acc = acc ++ l).
  { induction l as [|x l IH]; intros acc Hs; simpl.
    - now rewrite app_nil_r.
    - rewrite insert_by_last.
      + rewrite IH; rewrite <- app_assoc; [reflexivity | exact Hs].
      + clear IH. induction acc as [|y acc IHa]; [constructor|].
        simpl in Hs. inversion Hs as [|? ? Hs' Hy]; subst.
        constructor; [|now apply IHa].
        rewrite Forall_forall in Hy. apply (Hy x).
        apply in_or_app. right. now left. }
  intros Hs. now apply (G []).
Qed.

Lemma stable_sort_snoc (l : list ((Z * Z) * Z)) x :
  stable_sort key_lt (l ++ [x]) = insert_by key_lt x (stable_sort key_lt l).
Proof. unfold stable_sort. now rewrite fold_left_app. Qed.

(** Where a new element goes in a sorted list. *)
Lemma insert_by_split (x : (Z * Z) * Z) l :
  StronglySorted pair_le l ->
  exists l1 l2,
    l = l1 ++ l2 /\ insert_by key_lt x l = l1 ++ x :: l2
    /\ Forall (fun y => key_lt (fst x) (fst y) = true) l2.
Proof.
  induction 1 as [|z l Hs IH Hz]; simpl.
  - exists [], []. repeat split; constructor.
  - destruct (key_lt (fst x) (fst z)) eqn:E.
    + exists [], (z :: l). repeat split. constructor; [exact E|].
      rewrite Forall_forall in *. intros y Hy.
      apply (key_lt_le_trans _ _ _ E). now apply Hz.
    + destruct IH as [l1 [l2 [-> [Hi Hf]]]].
      exists (z :: l1), l2. simpl. rewrite Hi. now repeat split.
Qed.

Lemma mapM_app {A B : Type} (f : A -> result B) (l1 l2 : list A) ys :
  mapM f (l1 ++ l2) = Ok ys ->
  exists y1 y2, mapM f l1 = Ok y1 /\ mapM f l2 = Ok y2 /\ ys = y1 ++ y2.
Proof.
  revert ys. induction l1 as [|x l1 IH]; simpl; intros ys H.
  - exists [], ys. now repeat split.
  - destruct (f x) as [y|e]; [|discriminate]. simpl in *.
    destruct (mapM f (l1 ++ l2)) as [ys'|e] eqn:E; [|discriminate].
    simpl in H. injection H as <-.
    destruct (IH ys' eq_refl) as [y1 [y2 [H1 [H2 ->]]]].
    rewrite H1. simpl. exists (y :: y1), y2. now repeat split.
Qed.

Lemma keyed_sorted (key : Z -> result (Z * Z)) (l : list Z) kl ks :
  mapM (fun x => bind (key x) (fun k => Ok (k, x))) l = Ok kl ->
  mapM key l = Ok ks -> StronglySorted key_le ks ->
  StronglySorted pair_le kl.
Proof.
  revert kl ks. induction l as [|x l IH]; simpl; intros kl ks Hkl Hks Hs.
  - injection Hkl as <-. constructor.
  - destruct (key x) as [k|e]; [|discriminate]. simpl in *.
    destruct (mapM _ l) as [kl'|e] eqn:E1; [|discriminate].
    destruct (mapM key l) as [ks'|e] eqn:E2; [|discriminate].
    simpl in *. injection Hkl as <-. injection Hks as <-.
    inversion Hs as [|? ? Hs' Hk]; subst.
    constructor; [now apply (IH kl' ks')|].
    rewrite Forall_forall in *. intros p Hp. unfold pair_le. simpl.
    apply Hk.
    assert (Hfst : map fst kl' = ks').
    { clear - E1 E2. revert kl' ks' E1 E2.
      induction l as [|y l IHl]; simpl; intros kl' ks' E1 E2.
      - injection E1 as <-. now injection E2 as <-.
      - destruct (key y) as [ky|e]; [|discriminate]. simpl in *.
        destruct (mapM _ l) as [kl2|e]; [|discriminate].
        destruct (mapM key l) as [ks2|e]; [|discriminate].
        simpl in *. injection E1 as <-. injection E2 as <-.
        simpl. now rewrite (IHl kl2 ks2). }
    rewrite <- Hfst. now apply in_map.
Qed.

(** What the sort of [submit_job] does to a sorted queue: the new id goes
    in front of the ids whose key is greater, behind all the others. *)
Lemma sort_inserts js (ids0 : list Z) n kn :
  ids_sorted js ids0 -> sort_key js n = Ok kn ->
  exists l1 l2,
    ids0 = l1 ++ l2
    /\ sort_by_key key_lt (sort_key js) (ids0 ++ [n]) = Ok (l1 ++ n :: l2)
    /\ Forall (fun b => exists kb, sort_key js b = Ok kb
                                   /\ key_lt kn kb = true) l2.
Proof.
  intros [ks [Hks Hs]] Hn.
  destruct (mapM_keyed_Ok _ _ _ Hks) as [kl Hkl].
  pose proof (keyed_sorted _ _ _ _ Hkl Hks Hs) as Hsorted.
  pose proof (mapM_keyed _ _ _ Hkl) as Hkeys.
  pose proof (mapM_keyed_snd _ _ _ Hkl) as Hsnd.
  destruct (insert_by_split (kn, n) kl Hsorted) as [k1 [k2 [Hsplit [Hins Hgt]]]].
  exists (map snd k1), (map snd k2).
  split; [now rewrite <- Hsnd, Hsplit, map_app|]. split.
  - unfold sort_by_key.
    assert (Hall : mapM (fun x => bind (sort_key js x) (fun k => Ok (k, x)))
                     (ids0 ++ [n]) = Ok (kl ++ [(kn, n)])).
    { clear - Hkl Hn. revert kl Hkl.
      induction ids0 as [|x l IH]; simpl; intros kl Hkl.
      - injection Hkl as <-. now rewrite Hn.
      - destruct (sort_key js x) as [k|e]; [|discriminate]. simpl in *.
        destruct (mapM _ l) as [kl'|e]; [|discriminate].
        simpl in Hkl. injection Hkl as <-.
        now rewrite (IH kl' eq_refl). }
    rewrite Hall. simpl.
    rewrite stable_sort_snoc, (stable_sort_sorted_id kl Hsorted), Hins.
    now rewrite map_app.
  - rewrite Hsplit in Hkeys. apply Forall_app in Hkeys.
    destruct Hkeys as [_ Hk2].
    rewrite Forall_forall in *. intros b Hb.
    apply in_map_iff in Hb. destruct Hb as [p [<- Hp]].
    exists (fst p). split; [now apply Hk2 | now apply (Hgt p)].
Qed.

Lemma submit_times_app os1 os2 :
  submit_times (os1 ++ os2) = submit_times os1 ++ submit_times os2.
Proof.
  induction os1 as [|o os1 IH]; simpl; [reflexivity|].
  destruct o; simpl; now rewrite IH.
Qed.

Lemma StronglySorted_app_inv {A : Type} (R : A -> A -> Prop) l1 l2 :
  StronglySorted R (l1 ++ l2) ->
  StronglySorted R l1
  /\ forall a b, In a l1 -> In b l2 -> R a b.
Proof.
  induction l1 as [|x l1 IH]; simpl; intros Hs.
  - split; [constructor | intros a b []].
  - inversion Hs as [|? ? Hs' Hx]; subst.
    destruct (IH Hs') as [H1 H2]. rewrite Forall_forall in Hx. split.
    + constructor; [exact H1|]. rewrite Forall_forall. intros y Hy.
      apply Hx. apply in_or_app. now left.
    + intros a b [<-|Ha] Hb; [|now apply H2].
      apply Hx. apply in_or_app. now right.
Qed.

Lemma run_ops_snoc os o q : run_ops (os ++ [o]) q = run_op o (run_ops os q).
Proof. unfold run_ops. now rewrite fold_left_app. Qed.

(** The state after calls with a steady clock: every queue holds the jobs
    of one priority in the order of their ids, and every job was created at
    the reading of one of the submissions. *)
Record Fifo (os : list op) (q : JobQueue) : Prop := mkFifo {
  fifo_queues :
    forall name ids,
      queue_ids name q = Some ids -> StronglySorted (fifo_rel (jobs q)) ids;
  fifo_times :
    forall jid j, get_job jid q = Some j -> In (created_at j) (submit_times os)
}.

Lemma fifo_rel_update js jid j j' a b :
  dict_get Z.eqb js jid = Some j -> priority j' = priority j ->
  fifo_rel js a b -> fifo_rel (dict_set Z.eqb js jid j') a b.
Proof.
  intros Hj Hp H ja jb.
  assert (G : forall x jx,
             dict_get Z.eqb (dict_set Z.eqb js jid j') x = Some jx ->
             exists jx0, dict_get Z.eqb js x = Some jx0
                         /\ priority jx = priority jx0).
  { intros x jx. destruct (Z.eq_dec jid x) as [->|Hne].
    - rewrite (dict_get_set_eq _ Zeqb_spec). intros [= <-]. eauto.
    - rewrite (dict_get_set_ne _ Zeqb_spec) by exact Hne. eauto. }
  intros Ha Hb Hpr.
  destruct (G a ja Ha) as [ja0 [Ha0 Hpa]].
  destruct (G b jb Hb) as [jb0 [Hb0 Hpb]].
  apply (H ja0 jb0 Ha0 Hb0). congruence.
Qed.

(** A call that rewrites one known job, keeping its priority and its
    creation time, and takes ids out of the queues. *)
Lemma Fifo_update os o q jid j j' qs :
  Fifo os q ->
  get_job jid q = Some j ->
  priority j' = priority j -> created_at j' = created_at j ->
  submit_times [o] = [] ->
  (forall name ids',
      dict_get String.eqb qs name = Some ids' ->
      exists ids, queue_ids name q = Some ids
                  /\ (ids' = ids \/ ids' = list_remove jid ids)) ->
  Fifo (os ++ [o])
       (mkJobQueue (dict_set Z.eqb (jobs q) jid j') qs (next_job_id q)).
Proof.
  intros [Hq Ht] Hj Hp Hc Ho Hqs. unfold get_job, queue_ids in *.
  split; unfold get_job, queue_ids; cbn [jobs queues].
  - intros name ids' H. destruct (Hqs name ids' H) as [ids [Hids Hcase]].
    apply (StronglySorted_weaken (fifo_rel (jobs q))).
    + intros a b _ _. now apply (fifo_rel_update _ _ j).
    + destruct Hcase as [-> | ->];
        [|apply StronglySorted_list_remove]; now apply (Hq name).
  - intros x jx. rewrite submit_times_app, Ho, app_nil_r.
    destruct (Z.eq_dec jid x) as [->|Hne].
    + rewrite (dict_get_set_eq _ Zeqb_spec). intros [= <-].
      rewrite Hc. now apply (Ht x).
    + rewrite (dict_get_set_ne _ Zeqb_spec) by exact Hne. apply Ht.
Qed.

Lemma removed_case jid (qs : list (string * list Z)) name ids' :
  dict_get String.eqb (remove_from_queues jid qs) name = Some ids' ->
  exists ids, dict_get String.eqb qs name = Some ids
              /\ (ids' = ids \/ ids' = list_remove jid ids).
Proof.
  rewrite get_remove_from_queues.
  destruct (dict_get String.eqb qs name) as [ids|]; [|discriminate].
  simpl. intros [= <-]. exists ids. split; [reflexivity|].
  destruct (list_mem jid ids); auto.
Qed.

Lemma Fifo_no_submit os o q :
  submit_times [o] = [] -> Fifo os q -> Fifo (os ++ [o]) q.
Proof.
  intros Ho [Hq Ht]. split; [exact Hq|].
  intros jid j Hj. rewrite submit_times_app, Ho, app_nil_r. now apply (Ht jid).
Qed.

Lemma Fifo_submit os now c a qn p k m q :
  Inv q -> Fifo os q ->
  (forall t, In t (submit_times os) -> t <= now) ->
  Fifo (os ++ [OpSubmit now c a qn p k m])
       (snd (submit_job now c a qn p k m q)).
Proof.
  intros HI [Hq Ht] Hclock. pose proof HI as [Hb Hs Hf].
  set (n := next_job_id q).
  set (job := mkJob n c a
                (match Priority_getitem (upper p) with
                 | Ok p0 => p0 | Raise _ => NORMAL end)
                qn k m now None None queued None None).
  pose proof (submit_job_jobs now c a qn p k m q) as Hjobs.
  fold n in Hjobs. fold job in Hjobs.
  set (ids0 := match queue_ids qn q with Some l => l | None => [] end).
  assert (Hsorted0 : ids_sorted (jobs q) ids0).
  { unfold ids0, queue_ids.
    destruct (dict_get String.eqb (queues q) qn) as [l|] eqn:E.
    - now apply (Hs qn).
    - exists []. split; [reflexivity | constructor]. }
  assert (Hfifo0 : StronglySorted (fifo_rel (jobs q)) ids0).
  { unfold ids0. destruct (queue_ids qn q) as [l|] eqn:E;
      [now apply (Hq qn) | constructor]. }
  assert (Hold : forall x, In x ids0 -> x < n).
  { intros x Hx. destruct (ids_sorted_known _ _ _ Hsorted0 Hx) as [j Hj].
    now apply Hb in Hj. }
  assert (Hsorted1 : ids_sorted (dict_set Z.eqb (jobs q) n job) ids0).
  { apply (ids_sorted_ext (jobs q)); [|exact Hsorted0].
    intros x Hx. apply sort_key_set_fresh. apply Hold in Hx. lia. }
  destruct (sort_inserts (dict_set Z.eqb (jobs q) n job) ids0 n
              (value (priority job), now) Hsorted1)
    as [l1 [l2 [Hsplit [Hsort Hgt]]]].
  { unfold sort_key. now rewrite (dict_get_set_eq _ Zeqb_spec). }
  destruct (submit_job_effect now c a qn p k m q (l1 ++ n :: l2)) as [Hnew _].
  { rewrite Hjobs. exact Hsort. }
  assert (Hext : forall a0 b0, a0 <> n -> b0 <> n ->
                   fifo_rel (jobs q) a0 b0 ->
                   fifo_rel (dict_set Z.eqb (jobs q) n job) a0 b0).
  { intros a0 b0 Ha Hb0 H ja jb.
    rewrite !(dict_get_set_ne _ Zeqb_spec) by congruence. apply H. }
  split.
  - intros name ids. destruct (string_dec name qn) as [->|Hne].
    + rewrite Hnew. intros [= <-]. rewrite Hjobs.
      apply StronglySorted_insert.
      * rewrite <- Hsplit.
        apply (StronglySorted_weaken (fifo_rel (jobs q))); [|exact Hfifo0].
        intros a0 b0 Ha Hb0. apply Hext.
        -- apply Hold in Ha. lia.
        -- apply Hold in Hb0. lia.
      * rewrite Forall_forall. intros x Hx ja jb _ _ _.
        apply Hold. rewrite Hsplit. apply in_or_app. now left.
      * rewrite Forall_forall in *. intros b Hb0 ja jb Ha Hjb Hpr.
        exfalso. destruct (Hgt b Hb0) as [kb [Hkb Hlt]].
        assert (Hbn : b <> n).
        { assert (b < n); [|lia]. apply Hold. rewrite Hsplit.
          apply in_or_app. now right. }
        unfold sort_key in Hkb. rewrite Hjb in Hkb. injection Hkb as <-.
        rewrite (dict_get_set_eq _ Zeqb_spec) in Ha. injection Ha as <-.
        rewrite (dict_get_set_ne _ Zeqb_spec) in Hjb by congruence.
        pose proof (Hclock _ (Ht b jb Hjb)) as Hle.
        unfold key_lt in Hlt. cbn [fst snd] in Hlt. rewrite Hpr in Hlt.
        rewrite Z.ltb_irrefl, Z.eqb_refl in Hlt. simpl in Hlt.
        apply Z.ltb_lt in Hlt. lia.
    + rewrite submit_job_other_queues by exact Hne. intros Hids. rewrite Hjobs.
      apply (StronglySorted_weaken (fifo_rel (jobs q))); [|now apply (Hq name)].
      intros a0 b0 Ha Hb0.
      pose proof (inv_sorted q HI name ids Hids) as Hsd.
      apply Hext.
      * destruct (ids_sorted_known _ _ _ Hsd Ha) as [j Hj]. apply Hb in Hj.
        fold n in Hj. lia.
      * destruct (ids_sorted_known _ _ _ Hsd Hb0) as [j Hj]. apply Hb in Hj.
        fold n in Hj. lia.
  - intros x jx. unfold get_job. rewrite Hjobs, submit_times_app. simpl.
    destruct (Z.eq_dec n x) as [<-|Hne].
    + rewrite (dict_get_set_eq _ Zeqb_spec). intros [= <-]. simpl.
      apply in_or_app. right. now left.
    + rewrite (dict_get_set_ne _ Zeqb_spec) by exact Hne. intros Hx.
      apply in_or_app. left. now apply (Ht x).
Qed.

Lemma steady_Fifo cfg os :
  clock_steady os -> Fifo os (run_ops os (init cfg)).
Proof.
  induction os as [|o os IH] using rev_ind; intros Hc.
  - split.
    + intros name ids H. unfold queue_ids in H. apply init_queue_ids in H.
      subst. constructor.
    + intros jid j. unfold get_job. simpl. discriminate.
  - unfold clock_steady in Hc. rewrite submit_times_app in Hc.
    apply StronglySorted_app_inv in Hc. destruct Hc as [Hc Hlast].
    specialize (IH Hc). rewrite run_ops_snoc.
    set (q := run_ops os (init cfg)) in *.
    assert (HI : Inv q).
    { apply (reachable_Inv cfg). apply reachable_run_ops, reach_init. }
    destruct o as [now c a qn p k m | now j0 | now j0 rc | j0]; simpl.
    + apply Fifo_submit; [exact HI | exact IH|].
      intros t Ht. apply Hlast; [exact Ht | now left].
    + unfold start_job.
      destruct (dict_get Z.eqb (jobs q) j0) as [j|] eqn:Ej;
        [|now apply Fifo_no_submit].
      cbn [snd]. apply (Fifo_update os _ q j0 j); auto.
      intros name ids H. exists ids. auto.
    + unfold complete_job.
      destruct (dict_get Z.eqb (jobs q) j0) as [j|] eqn:Ej;
        [|now apply Fifo_no_submit].
      cbn [snd]. apply (Fifo_update os _ q j0 j); auto.
      intros name ids. apply removed_case.
    + unfold cancel_job.
      destruct (dict_get Z.eqb (jobs q) j0) as [j|] eqn:Ej;
        [|now apply Fifo_no_submit].
      destruct (status j); try (now apply Fifo_no_submit); cbn [snd];
        (apply (Fifo_update os _ q j0 j); auto;
         intros name ids; apply removed_case).
Qed.

(** C3, as stated, fails on the code in its last part: the queue is sorted
    by [created_at], a reading of [time.time()], not by the order of the
    submissions; when the second of two submissions of one priority reads a
    smaller time than the first, the second job stands first. *)
Lemma clock_stepping_back_reverses_fifo :
  queue_ids "default"
    (run_ops [submit_op 5 "default" "normal"; submit_op 4 "default" "normal"]
       (init CfgNone)) = Some [2; 1]
  /\ option_map job_id
       (match get_next_job "default"
                (run_ops [submit_op 5 "default" "normal";
                          submit_op 4 "default" "normal"] (init CfgNone)) with
        | Ok r => r | Raise _ => None end) = Some 2.
Proof. vm_compute. split; reflexivity. Qed.

(** C3 (amended): in every reachable state every queue lists known jobs in
    ascending order of (priority value, created_at); three jobs submitted
    to one queue with priorities low, high, normal stand in the order high,
    normal, low, whatever the clock read; and as long as no submission
    reads a smaller time than an earlier one, the jobs of one priority
    stand in every queue in the order of their submission, after any
    sequence of calls (two jobs of one priority submitted to a fresh queue
    stand as [1; 2]). *)
Theorem queues_are_sorted :
  (forall cfg q, reachable cfg q ->
     forall name ids, queue_ids name q = Some ids -> ids_sorted (jobs q) ids)
  /\ (forall cfg qn t1 t2 t3,
        let q3 := run_ops [submit_op t1 qn "low"; submit_op t2 qn "high";
                           submit_op t3 qn "normal"] (init cfg) in
        queue_ids qn q3 = Some [2; 3; 1]
        /\ map (fun jid => option_map priority (get_job jid q3)) [2; 3; 1]
           = [Some HIGH; Some NORMAL; Some LOW]
        /\ option_map job_id
             (match get_next_job qn q3 with Ok r => r | Raise _ => None end)
           = Some 2)
  /\ (forall cfg os name ids l1 a l2 b l3,
        clock_steady os ->
        queue_ids name (run_ops os (init cfg)) = Some ids ->
        ids = l1 ++ a :: l2 ++ b :: l3 ->
        option_map priority (get_job a (run_ops os (init cfg)))
        = option_map priority (get_job b (run_ops os (init cfg))) ->
        a < b)
  /\ (forall cfg qn p t1 t2,
        t1 <= t2 ->
        queue_ids qn (run_ops [submit_op t1 qn p; submit_op t2 qn p] (init cfg))
        = Some [1; 2]).
Proof.
  split; [|split; [|split]].
  - intros cfg q Hr name ids H. apply reachable_Inv in Hr.
    now apply (inv_sorted q Hr name).
  - intros cfg qn t1 t2 t3 q3. subst q3. unfold run_ops. cbn [fold_left].
    destruct (submit_step t1 qn "low" (init cfg) [] [] 1 [1])
      as [J1 [Q1 N1]]; try reflexivity; [apply init_queue_empty|].
    destruct (submit_step t2 qn "high" _ _ [1] 2 [2; 1] J1 Q1 N1)
      as [J2 [Q2 N2]]; [reflexivity|].
    destruct (submit_step t3 qn "normal" _ _ [2; 1] 3 [2; 3; 1] J2 Q2 N2)
      as [J3 [Q3 N3]]; [reflexivity|].
    apply queue_ids_of_default in Q3; [|discriminate].
    split; [exact Q3|]. unfold get_job, get_next_job.
    unfold queue_ids in Q3. rewrite Q3, J3. split; reflexivity.
  - intros cfg os name ids l1 a l2 b l3 Hc Hids -> Hpr.
    set (q := run_ops os (init cfg)) in *.
    pose proof (steady_Fifo cfg os Hc) as HF. fold q in HF.
    assert (HI : Inv q).
    { apply (reachable_Inv cfg). apply reachable_run_ops, reach_init. }
    pose proof (inv_sorted q HI name _ Hids) as Hsd.
    destruct (ids_sorted_known _ _ a Hsd) as [ja Hja];
      [apply in_or_app; right; now left|].
    destruct (ids_sorted_known _ _ b Hsd) as [jb Hjb];
      [apply in_or_app; right; right; apply in_or_app; right; now left|].
    unfold get_job in Hpr. rewrite Hja, Hjb in Hpr. simpl in Hpr.
    injection Hpr as Hpr.
    apply (StronglySorted_pick _ _ _ _ _ _ (fifo_queues os q HF name _ Hids)
             ja jb Hja Hjb Hpr).
  - intros cfg qn p t1 t2 Hle. unfold run_ops. cbn [fold_left].
    destruct (submit_step t1 qn p (init cfg) [] [] 1 [1])
      as [J1 [Q1 N1]]; try reflexivity; [apply init_queue_empty|].
    destruct (submit_step t2 qn p _ _ [1] 2 [1; 2] J1 Q1 N1)
      as [J2 [Q2 N2]].
    + unfold sort_by_key, sort_key, stable_sort. cbn.
      unfold key_lt. cbn.
      rewrite Z.ltb_irrefl, Z.eqb_refl.
      replace (t2 <? t1) with false by (symmetry; apply Z.ltb_ge; lia).
      reflexivity.
    + apply queue_ids_of_default in Q2; [exact Q2 | discriminate].
Qed.

Lemma queues_are_sorted_witness :
  ids_sorted
    (jobs (run_ops [submit_op 5 "default" "low"; submit_op 6 "default" "high";
                    OpStart 7 2; submit_op 8 "default" "critical"]
             (init CfgNone)))
    [3; 2; 1]
  /\ queue_ids "default"
       (run_ops [submit_op 1 "default" "normal"; submit_op 2 "default" "high";
                 submit_op 2 "default" "normal"; OpStart 3 2;
                 OpComplete 4 2 0; submit_op 4 "default" "critical"]
          (init CfgNone)) = Some [4; 1; 3]
  /\ 1 < 3
  /\ queue_ids "default"
       (run_ops [submit_op 4 "default" "normal"; submit_op 4 "default" "normal"]
          (init CfgNone)) = Some [1; 2].
Proof.
  split; [|split; [reflexivity|split]].
  - apply (proj1 queues_are_sorted CfgNone _
             (reachable_run_ops CfgNone _ _ (reach_init CfgNone))
             "default"%string).
    reflexivity.
  - apply (proj1 (proj2 (proj2 queues_are_sorted)) CfgNone
             [submit_op 1 "default" "normal"; submit_op 2 "default" "high";
              submit_op 2 "default" "normal"; OpStart 3 2;
              OpComplete 4 2 0; submit_op 4 "default" "critical"]
             "default"%string [4; 1; 3] [4] 1 [] 3 []).
    + unfold clock_steady. simpl. repeat constructor; lia.
    + reflexivity.
    + reflexivity.
    + reflexivity.
  - apply (proj2 (proj2 (proj2 queues_are_sorted)) CfgNone "default"%string
             "normal"%string 4 4).
    lia.
Defined.

(** *** Submission *)

(** In a reachable state [submit_job] raises nothing: it returns the next
    id, which no job had, stores the job under it as queued with the fields
    given, lists it in the queue named and leaves the other queues as they
    were; the next id is one more. *)
Theorem submit_job_allocates_fresh_id cfg q now c a qn p k m :
  reachable cfg q ->
  fst (submit_job now c a qn p k m q) = Ok (next_job_id q)
  /\ get_job (next_job_id q) q = None
  /\ next_job_id (snd (submit_job now c a qn p k m q)) = next_job_id q + 1
  /\ get_job (next_job_id q) (snd (submit_job now c a qn p k m q))
     = Some (mkJob (next_job_id q) c a
               (match Priority_getitem (upper p) with
                | Ok p0 => p0 | Raise _ => NORMAL end)
               qn k m now None None queued None None)
  /\ (exists ids,
        queue_ids qn (snd (submit_job now c a qn p k m q)) = Some ids
        /\ In (next_job_id q) ids)
  /\ (forall name, name <> qn ->
        queue_ids name (snd (submit_job now c a qn p k m q))
        = queue_ids name q).
Proof.
  intros Hr. pose proof (reachable_Inv cfg q Hr) as HI.
  destruct (submit_job_spec now c a qn p k m q HI)
    as [sorted [Hret [Hnext [Hq [Hperm Hother]]]]].
  split; [exact Hret|]. split.
  { unfold get_job.
    destruct (dict_get Z.eqb (jobs q) (next_job_id q)) as [j|] eqn:E;
      [|reflexivity].
    apply (inv_bounded q HI) in E. lia. }
  split; [exact Hnext|]. split.
  { unfold get_job. rewrite submit_job_jobs.
    apply (dict_get_set_eq _ Zeqb_spec). }
  split; [|exact Hother].
  exists sorted. split; [exact Hq|].
  apply (Permutation_in _ (Permutation_sym Hperm)).
  apply in_or_app. right. now left.
Qed.

Lemma submit_job_allocates_fresh_id_witness :
  fst (submit_job 9 "make" ["all"] "long" "HIGH" 2 "4GB"
         (run_ops [submit_op 0 "default" "normal"; OpStart 1 1] (init CfgNone)))
  = Ok 2.
Proof.
  apply (submit_job_allocates_fresh_id CfgNone
           (run_ops [submit_op 0 "default" "normal"; OpStart 1 1] (init CfgNone))
           9 "make" ["all"] "long" "HIGH" 2 "4GB"
           (reachable_run_ops CfgNone _ _ (reach_init CfgNone))).
Defined.

(** *** Removal from the queues *)

Lemma remove_is_filter jid (l : list Z) :
  NoDup l ->
  (if list_mem jid l then list_remove jid l else l)
  = filter (fun x => negb (x =? jid)) l.
Proof.
  induction 1 as [|y l Hy Hl IH]; simpl; [reflexivity|].
  destruct (Z.eqb_spec y jid) as [->|Hne]; simpl.
  - symmetry. apply forallb_filter_id. apply forallb_forall.
    intros x Hx. destruct (Z.eqb_spec x jid) as [->|]; [contradiction|reflexivity].
  - destruct (list_mem jid l); now rewrite <- IH.
Qed.

Lemma removed_queue_ids cfg q jid name :
  reachable cfg q ->
  dict_get String.eqb (remove_from_queues jid (queues q)) name
  = option_map (filter (fun x => negb (x =? jid))) (queue_ids name q).
Proof.
  intros Hr. apply reachable_Live in Hr.
  rewrite get_remove_from_queues. unfold queue_ids.
  destruct (dict_get String.eqb (queues q) name) as [l|] eqn:E; [|reflexivity].
  simpl. f_equal. apply remove_is_filter. now apply (live_nodup q Hr name).
Qed.

(** [complete_job], and [cancel_job] when it returns true, take the job out
    of every queue and keep the other ids of each queue in their order;
    in a reachable state the id then stands in no queue. *)
Theorem terminal_calls_unlist_the_job cfg q jid name :
  reachable cfg q ->
  (forall now rc,
      queue_ids name (snd (complete_job now jid rc q))
      = option_map (filter (fun x => negb (x =? jid))) (queue_ids name q))
  /\ (fst (cancel_job jid q) = true ->
      queue_ids name (snd (cancel_job jid q))
      = option_map (filter (fun x => negb (x =? jid))) (queue_ids name q))
  /\ (forall l, option_map (filter (fun x => negb (x =? jid)))
                  (queue_ids name q) = Some l -> ~ In jid l).
Proof.
  intros Hr. pose proof (reachable_Live cfg q Hr) as HL.
  assert (Hnone : get_job jid q = None ->
            queue_ids name q
            = option_map (filter (fun x => negb (x =? jid))) (queue_ids name q)).
  { intros Hj. destruct (queue_ids name q) as [l|] eqn:E; [|reflexivity].
    simpl. f_equal. symmetry. apply forallb_filter_id, forallb_forall.
    intros x Hx. destruct (Z.eqb_spec x jid) as [->|]; [|reflexivity].
    destruct (live_status q HL name l jid E Hx) as [j [Hj' _]]. congruence. }
  split; [|split].
  - intros now rc. unfold complete_job.
    destruct (dict_get Z.eqb (jobs q) jid) as [j|] eqn:Ej.
    + cbn [snd]. unfold queue_ids at 1. cbn [queues].
      now apply (removed_queue_ids cfg).
    + cbn [snd]. now apply Hnone.
  - unfold cancel_job.
    destruct (dict_get Z.eqb (jobs q) jid) as [j|] eqn:Ej; [|discriminate].
    destruct (status j); cbn [fst snd]; try discriminate; intros _;
      unfold queue_ids at 1; cbn [queues]; now apply (removed_queue_ids cfg).
  - intros l. destruct (queue_ids name q) as [l0|]; [|discriminate].
    simpl. intros [= <-] Hin. apply filter_In in Hin. destruct Hin as [_ H].
    now rewrite Z.eqb_refl in H.
Qed.

Lemma terminal_calls_unlist_the_job_witness :
  queue_ids "default"
    (snd (complete_job 5 1 0
            (run_ops [submit_op 0 "default" "normal";
                      submit_op 1 "default" "high"; OpStart 2 1]
               (init CfgNone))))
  = option_map (filter (fun x => negb (x =? 1)))
      (queue_ids "default"
         (run_ops [submit_op 0 "default" "normal";
                   submit_op 1 "default" "high"; OpStart 2 1]
            (init CfgNone))).
Proof.
  apply (proj1 (terminal_calls_unlist_the_job CfgNone _ 1 "default"
                  (reachable_run_ops CfgNone _ _ (reach_init CfgNone)))).
Defined.

(** *** The head of a queue *)

(** [start_job] leaves the job in its queue: once the job at the head of a
    queue is started, [get_next_job] returns no job for that queue,
    whatever waits behind the head. *)
Theorem started_head_blocks_queue cfg q name jid rest now :
  reachable cfg q ->
  queue_ids name q = Some (jid :: rest) ->
  queue_ids name (snd (start_job now jid q)) = Some (jid :: rest)
  /\ get_next_job name (snd (start_job now jid q)) = Ok None.
Proof.
  intros Hr Hq. pose proof (reachable_Live cfg q Hr) as HL.
  destruct (live_status q HL name _ jid Hq (or_introl eq_refl))
    as [j [Hj _]].
  unfold get_job in Hj. unfold start_job. rewrite Hj. cbn [snd].
  unfold queue_ids, get_next_job in *. cbn [queues jobs]. rewrite Hq.
  split; [reflexivity|].
  now rewrite (dict_get_set_eq _ Zeqb_spec).
Qed.

Lemma started_head_blocks_queue_witness :
  get_next_job "default"
    (snd (start_job 7 2
            (run_ops [submit_op 0 "default" "normal";
                      submit_op 1 "default" "high"] (init CfgNone))))
  = Ok None.
Proof.
  apply (started_head_blocks_queue CfgNone
           (run_ops [submit_op 0 "default" "normal";
                     submit_op 1 "default" "high"] (init CfgNone))
           "default" 2 [1] 7
           (reachable_run_ops CfgNone _ _ (reach_init CfgNone)) eq_refl).
Defined.

Lemma keys_of_ids js ids ks jid :
  mapM (sort_key js) ids = Ok ks -> In jid ids ->
  exists k, sort_key js jid = Ok k /\ In k ks.
Proof.
  revert ks. induction ids as [|x ids IH]; intros ks H Hin; [destruct Hin|].
  simpl in H. destruct (sort_key js x) as [kx|e] eqn:Ex; [|discriminate].
  simpl in H. destruct (mapM (sort_key js) ids) as [ks'|e]; [|discriminate].
  simpl in H. injection H as <-. destruct Hin as [<-|Hin].
  - exists kx. split; [exact Ex | now left].
  - destruct (IH ks' eq_refl Hin) as [k [Hk Hin']]. exists k.
    split; [exact Hk | now right].
Qed.

(** In a reachable state [get_next_job] raises nothing, and the job it
    returns is queued, belongs to the queue asked for, and no job listed in
    that queue has a smaller (priority value, created_at). *)
Theorem get_next_job_returns_most_urgent cfg q name :
  reachable cfg q ->
  (exists r, get_next_job name q = Ok r)
  /\ (forall j,
        get_next_job name q = Ok (Some j) ->
        status j = queued /\ queue j = name
        /\ forall ids jid' j',
             queue_ids name q = Some ids -> In jid' ids ->
             get_job jid' q = Some j' ->
             key_le (value (priority j), created_at j)
                    (value (priority j'), created_at j')).
Proof.
  intros Hr. pose proof (reachable_Live cfg q Hr) as HL.
  pose proof (reachable_Inv cfg q Hr) as HI.
  unfold get_next_job, queue_ids, get_job in *.
  destruct (dict_get String.eqb (queues q) name) as [[|jid rest]|] eqn:E;
    try (split; [eauto | discriminate]).
  destruct (live_status q HL name _ jid E (or_introl eq_refl))
    as [j0 [Hj0 [_ Hq0]]]. unfold get_job in Hj0. rewrite Hj0.
  split; [destruct (Status_eqb (status j0) queued); eauto|].
  intros j. destruct (Status_eqb (status j0) queued) eqn:Es; [|discriminate].
  intros [= <-]. split; [destruct (status j0); simpl in Es; congruence|].
  split; [exact Hq0|].
  intros ids jid' j' [= <-] Hin Hj'.
  destruct (inv_sorted q HI name _ E) as [ks [Hks Hsorted]].
  simpl in Hks. unfold sort_key at 1 in Hks. rewrite Hj0 in Hks. simpl in Hks.
  destruct (mapM (sort_key (jobs q)) rest) as [ks'|e] eqn:Er; [|discriminate].
  simpl in Hks. injection Hks as <-.
  destruct Hin as [<-|Hin].
  - rewrite Hj0 in Hj'. injection Hj' as <-. unfold key_le. simpl. lia.
  - destruct (keys_of_ids _ _ _ _ Er Hin) as [k' [Hk' Hin']].
    unfold sort_key in Hk'. rewrite Hj' in Hk'. injection Hk' as <-.
    inversion Hsorted as [|? ? _ Hall]; subst.
    rewrite Forall_forall in Hall. now apply Hall.
Qed.

Lemma get_next_job_returns_most_urgent_witness :
  exists r,
    get_next_job "default"
      (run_ops [submit_op 0 "default" "low"; submit_op 1 "default" "critical"]
         (init CfgNone)) = Ok r.
Proof.
  apply (get_next_job_returns_most_urgent CfgNone
           (run_ops [submit_op 0 "default" "low";
                     submit_op 1 "default" "critical"] (init CfgNone))
           "default"
           (reachable_run_ops CfgNone _ _ (reach_init CfgNone))).
Defined.

(** *** Statistics and listings *)

Lemma count_two (l : list Job) :
  Forall (fun j => status j = queued \/ status j = running) l ->
  (count_status queued l + count_status running l = List.length l)%nat
  /\ count_status completed l = 0%nat
  /\ count_status failed l = 0%nat
  /\ count_status cancelled l = 0%nat.
Proof.
  unfold count_status. induction 1 as [|j l Hj Hl IH]; simpl; [auto|].
  destruct IH as [H1 [H2 [H3 H4]]].
  destruct Hj as [-> | ->]; simpl; repeat split; auto; lia.
Qed.

Lemma looked_up_jobs q name ids :
  Live q ->
  queue_ids name q = Some ids ->
  forall l js,
    incl l ids ->
    mapM (fun jid => match dict_get Z.eqb (jobs q) jid with
                     | Some j => Ok j
                     | None => Raise KeyError
                     end) l = Ok js ->
    List.length js = List.length l
    /\ Forall (fun j => (status j = queued \/ status j = running)
                        /\ queue j = name) js.
Proof.
  intros HL Hq. induction l as [|x l IH]; simpl; intros js Hin H.
  - injection H as <-. split; [reflexivity | constructor].
  - destruct (live_status q HL name ids x Hq (Hin x (or_introl eq_refl)))
      as [j [Hj Hs]].
    unfold get_job in Hj. rewrite Hj in H. simpl in H.
    destruct (mapM _ l) as [js'|e] eqn:E; [|discriminate].
    simpl in H. injection H as <-.
    destruct (IH js' (fun y Hy => Hin y (or_intror Hy)) eq_refl) as [Hl Hf].
    split; [simpl; now rewrite Hl | constructor; assumption].
Qed.

(** In a reachable state [get_queue_stats] raises nothing; the total is
    the length of the queue, every job counted is queued or running (a job
    that completed or was cancelled left the queue), so the other three
    counts are 0 and queued and running add up to the total. *)
Theorem queue_stats_count_live_jobs cfg q name :
  reachable cfg q ->
  exists st,
    get_queue_stats name q = Ok st
    /\ stats_queue st = name
    /\ total_jobs st
       = List.length (match queue_ids name q with Some l => l | None => [] end)
    /\ (n_queued st + n_running st = total_jobs st)%nat
    /\ n_completed st = 0%nat /\ n_failed st = 0%nat
    /\ n_cancelled st = 0%nat.
Proof.
  intros Hr. pose proof (reachable_Live cfg q Hr) as HL.
  pose proof (reachable_Inv cfg q Hr) as HI.
  unfold get_queue_stats, queue_ids.
  destruct (dict_get String.eqb (queues q) name) as [ids|] eqn:E.
  - set (look := fun jid : Z =>
                   match dict_get Z.eqb (jobs q) jid with
                   | Some j => Ok j | None => Raise KeyError end).
    assert (Hall : exists js, mapM look ids = Ok js).
    { apply mapM_Ok_all. intros x Hx.
      destruct (live_status q HL name ids x E Hx) as [j [Hj _]].
      exists j. unfold look. unfold get_job in Hj. now rewrite Hj. }
    destruct Hall as [js Hjs]. rewrite Hjs. simpl.
    destruct (looked_up_jobs q name ids HL E ids js (incl_refl ids) Hjs)
      as [Hlen Hf].
    assert (Hf' : Forall (fun j => status j = queued \/ status j = running) js).
    { rewrite Forall_forall in *. intros j Hj. now apply Hf. }
    destruct (count_two js Hf') as [H1 [H2 [H3 H4]]].
    eexists. split; [reflexivity|]. simpl. rewrite <- Hlen. auto 10.
  - simpl. eexists. split; [reflexivity|]. simpl. auto 10.
Qed.

Lemma queue_stats_count_live_jobs_witness :
  exists st,
    get_queue_stats "default"
      (run_ops [submit_op 0 "default" "normal"; submit_op 1 "default" "high";
                OpStart 2 2; OpCancel 1] (init CfgNone)) = Ok st
    /\ stats_queue st = "default"
    /\ total_jobs st
       = List.length
           (match queue_ids "default"
                    (run_ops [submit_op 0 "default" "normal";
                              submit_op 1 "default" "high";
                              OpStart 2 2; OpCancel 1] (init CfgNone)) with
            | Some l => l | None => [] end)
    /\ (n_queued st + n_running st = total_jobs st)%nat
    /\ n_completed st = 0%nat /\ n_failed st = 0%nat
    /\ n_cancelled st = 0%nat.
Proof.
  apply (queue_stats_count_live_jobs CfgNone _ "default"
           (reachable_run_ops CfgNone _ _ (reach_init CfgNone))).
Defined.

(** In a reachable state the jobs are those with the ids 1, 2, ... up to
    the next id; the table holds them under these keys in that order, each
    job under its own [job_id]; and [get_jobs] without filter lists them in
    that order, the order of their submission. *)
Theorem jobs_are_listed_in_submission_order cfg q :
  reachable cfg q ->
  map job_id (get_jobs None None q) = ids_before (next_job_id q)
  /\ dict_keys (jobs q) = ids_before (next_job_id q)
  /\ (forall jid j, get_job jid q = Some j -> job_id j = jid)
  /\ forall jid, (exists j, get_job jid q = Some j)
                 <-> 1 <= jid < next_job_id q.
Proof.
  intros Hr. pose proof (reachable_Live cfg q Hr) as HL.
  pose proof (reachable_Inv cfg q Hr) as HI.
  assert (Hkeys : map job_id (dict_values (jobs q)) = dict_keys (jobs q)).
  { unfold dict_values, dict_keys. rewrite map_map.
    apply map_ext_in. intros e He.
    pose proof (live_ids q HL) as Hi. rewrite Forall_forall in Hi.
    now apply Hi. }
  split; [|split; [|split]].
  - unfold get_jobs. rewrite Hkeys. apply (live_keys q HL).
  - apply (live_keys q HL).
  - intros jid j Hj. unfold get_job in Hj.
    apply (dict_get_In _ Zeqb_spec) in Hj.
    pose proof (live_ids q HL) as Hi. rewrite Forall_forall in Hi.
    apply (Hi (jid, j) Hj).
  - intros jid. unfold get_job. split.
    + intros [j Hj]. apply (dict_get_In _ Zeqb_spec) in Hj.
      assert (Hin : In jid (dict_keys (jobs q))).
      { unfold dict_keys. apply in_map_iff. exists (jid, j). now split. }
      rewrite (live_keys q HL) in Hin. unfold ids_before in Hin.
      apply in_map_iff in Hin. destruct Hin as [n [<- Hn]].
      apply in_seq in Hn. pose proof (live_next q HL). lia.
    + intros Hjid.
      assert (Hin : In jid (dict_keys (jobs q))).
      { rewrite (live_keys q HL). unfold ids_before. apply in_map_iff.
        exists (Z.to_nat jid). split; [lia|]. apply in_seq. lia. }
      unfold dict_keys in Hin. apply in_map_iff in Hin.
      destruct Hin as [[k j] [Hk He]]. simpl in Hk. subst k.
      clear - He. induction (jobs q) as [|[k0 j0] d IH]; [destruct He|].
      simpl. destruct (k0 =? jid) eqn:E; [eauto|].
      destruct He as [He|He]; [|now apply IH].
      injection He as -> ->. now rewrite Z.eqb_refl in E.
Qed.

Lemma jobs_are_listed_in_submission_order_witness :
  map job_id
    (get_jobs None None
       (run_ops [submit_op 0 "a" "low"; submit_op 1 "b" "high"; OpCancel 1;
                 submit_op 2 "a" "normal"] (init CfgNone)))
  = ids_before
      (next_job_id
         (run_ops [submit_op 0 "a" "low"; submit_op 1 "b" "high"; OpCancel 1;
                   submit_op 2 "a" "normal"] (init CfgNone))).
Proof.
  apply (jobs_are_listed_in_submission_order CfgNone _
           (reachable_run_ops CfgNone _ _ (reach_init CfgNone))).
Defined.

(** No call deletes a job or changes what was submitted: in a reachable
    state a job that exists still exists after any call, with the same id,
    command, arguments, priority, queue name, cores, memory and creation
    time. *)
Theorem submitted_fields_never_change cfg q o jid j :
  reachable cfg q ->
  get_job jid q = Some j ->
  exists j',
    get_job jid (run_op o q) = Some j'
    /\ job_id j' = job_id j /\ command j' = command j /\ args j' = args j
    /\ priority j' = priority j /\ queue j' = queue j /\ cores j' = cores j
    /\ memory j' = memory j /\ created_at j' = created_at j.
Proof.
  intros Hr Hj. pose proof (reachable_Inv cfg q Hr) as HI.
  unfold get_job in *.
  assert (Hsame : exists j', Some j = Some j'
            /\ job_id j' = job_id j /\ command j' = command j
            /\ args j' = args j /\ priority j' = priority j
            /\ queue j' = queue j /\ cores j' = cores j
            /\ memory j' = memory j /\ created_at j' = created_at j).
  { exists j. auto 10. }
  destruct o as [now c a qn p k m | now j0 | now j0 rc | j0]; simpl.
  - rewrite submit_job_jobs, (dict_get_set_ne _ Zeqb_spec), Hj; [exact Hsame|].
    apply (inv_bounded q HI) in Hj. lia.
  - unfold start_job. destruct (Z.eq_dec j0 jid) as [->|Hne].
    + rewrite Hj. cbn [snd jobs]. rewrite (dict_get_set_eq _ Zeqb_spec).
      eexists. split; [reflexivity|]. simpl. auto 10.
    + destruct (dict_get Z.eqb (jobs q) j0); cbn [snd jobs];
        rewrite ?(dict_get_set_ne _ Zeqb_spec) by exact Hne;
        rewrite Hj; exact Hsame.
  - unfold complete_job. destruct (Z.eq_dec j0 jid) as [->|Hne].
    + rewrite Hj. cbn [snd jobs]. rewrite (dict_get_set_eq _ Zeqb_spec).
      eexists. split; [reflexivity|]. simpl. auto 10.
    + destruct (dict_get Z.eqb (jobs q) j0); cbn [snd jobs];
        rewrite ?(dict_get_set_ne _ Zeqb_spec) by exact Hne;
        rewrite Hj; exact Hsame.
  - unfold cancel_job. destruct (Z.eq_dec j0 jid) as [->|Hne].
    + rewrite Hj. destruct (status j); cbn [snd jobs];
        rewrite ?(dict_get_set_eq _ Zeqb_spec), ?Hj; try exact Hsame;
        (eexists; split; [reflexivity|]; simpl; auto 10).
    + destruct (dict_get Z.eqb (jobs q) j0) as [j1|];
        [destruct (status j1)|]; cbn [snd jobs];
        rewrite ?(dict_get_set_ne _ Zeqb_spec) by exact Hne;
        rewrite Hj; exact Hsame.
Qed.

Lemma submitted_fields_never_change_witness :
  exists j',
    get_job 1 (run_op (OpComplete 4 1 3)
                 (run_ops [submit_op 0 "default" "high"] (init CfgNone)))
    = Some j'
    /\ job_id j' = 1 /\ command j' = "job" /\ args j' = []
    /\ priority j' = HIGH /\ queue j' = "default" /\ cores j' = 1
    /\ memory j' = "1GB" /\ created_at j' = 0.
Proof.
  apply (submitted_fields_never_change CfgNone
           (run_ops [submit_op 0 "default" "high"] (init CfgNone))
           (OpComplete 4 1 3) 1
           (mkJob 1 "job" [] HIGH "default" 1 "1GB" 0 None None queued None None)
           (reachable_run_ops CfgNone _ _ (reach_init CfgNone)) eq_refl).
Defined.

End QueueFacts.

(** ** The resource monitor *)
Module ResourceFacts.
Import Py Resource.

Lemma deque_append_length {A : Type} (maxlen : Z) (d : list A) (x : A) :
  0 <= maxlen ->
  Z.of_nat (List.length d) <= maxlen ->
  Z.of_nat (List.length (deque_append maxlen d x)) <= maxlen.
Proof.
  intros H0 Hd. unfold deque_append.
  destruct (Z.of_nat (List.length (d ++ [x])) >? maxlen) eqn:E.
  - rewrite length_app in E. simpl in E.
    destruct d as [|y d]; simpl in *; [lia|].
    rewrite length_app. simpl. lia.
  - rewrite Z.gtb_ltb in E. apply Z.ltb_ge in E. exact E.
Qed.

Lemma deque_append_full {A : Type} (maxlen : Z) (d : list A) (x : A) :
  Z.of_nat (List.length d) = maxlen ->
  deque_append maxlen d x = tl (d ++ [x]).
Proof.
  intros Hd. unfold deque_append.
  destruct (Z.of_nat (List.length (d ++ [x])) >? maxlen) eqn:E; [reflexivity|].
  rewrite Z.gtb_ltb in E. apply Z.ltb_ge in E.
  rewrite length_app in E. simpl in E. lia.
Qed.

Lemma deque_append_room {A : Type} (maxlen : Z) (d : list A) (x : A) :
  Z.of_nat (List.length d) < maxlen ->
  deque_append maxlen d x = d ++ [x].
Proof.
  intros Hd. unfold deque_append.
  destruct (Z.of_nat (List.length (d ++ [x])) >? maxlen) eqn:E; [|reflexivity].
  rewrite Z.gtb_ltb in E. apply Z.ltb_lt in E.
  rewrite length_app in E. simpl in E. lia.
Qed.

Lemma append_all_room {A : Type} (maxlen : Z) (xs : list A) :
  forall d,
    Z.of_nat (List.length d + List.length xs) <= maxlen ->
    append_all maxlen xs d = d ++ xs.
Proof.
  unfold append_all.
  induction xs as [|x xs IH]; intros d H; simpl.
  - now rewrite app_nil_r.
  - simpl in H. rewrite deque_append_room by lia.
    rewrite IH; [now rewrite <- app_assoc|].
    rewrite length_app. simpl. lia.
Qed.

Lemma append_all_snoc {A : Type} (maxlen : Z) (xs : list A) (x : A) d :
  append_all maxlen (xs ++ [x]) d
  = deque_append maxlen (append_all maxlen xs d) x.
Proof. unfold append_all. now rewrite fold_left_app. Qed.

(** *** What one call does *)

(** The monitor as [get_system_stats] leaves it when it raises in
    [getloadavg] or records: the rings of [m], the new baselines. *)
Definition rebased (r : readings) (m : ResourceMonitor) : ResourceMonitor :=
  mkMonitor (history_size m) (history_cpu m) (history_memory m)
    (history_disk m) (history_network m) (r_net_io_counters r)
    (disk_baseline r m).

(** The same rings and the same capacity. *)
Definition same_rings (m m' : ResourceMonitor) : Prop :=
  history_size m' = history_size m
  /\ history_cpu m' = history_cpu m /\ history_memory m' = history_memory m
  /\ history_disk m' = history_disk m
  /\ history_network m' = history_network m.

Lemma same_rings_refl m : same_rings m m.
Proof. repeat split. Qed.

Lemma same_rings_rebased r m : same_rings m (rebased r m).
Proof. repeat split. Qed.

(** A call that returns has recorded its statistics in the rebased
    monitor. *)
Lemma get_system_stats_ok r m st m' :
  get_system_stats r m = (Ok st, m') ->
  m' = _add_to_history st (rebased r m)
  /\ s_timestamp st = r_time r /\ s_cpu_percent st = r_cpu_percent r
  /\ s_cpu_per_core st = r_cpu_per_core r
  /\ s_memory st = r_virtual_memory r
  /\ s_disk_io st
     = match r_disk_io_counters r, last_disk_io m with
       | Some now, Some before => Some (disk_delta now before)
       | _, _ => None
       end
  /\ s_network_io st
     = match r_net_io_counters r, last_net_io m with
       | Some now, Some before => Some (net_delta now before)
       | _, _ => None
       end
  /\ (last_net_io m = None \/ r_net_io_counters r <> None).
Proof.
  unfold get_system_stats.
  destruct (match r_cpu_freq_first r with
            | Some _ => _ | None => _ end) as [f|e]; [|discriminate].
  destruct (last_net_io m) as [before|] eqn:El;
    [destruct (r_net_io_counters r) as [now|] eqn:En; [|discriminate]|];
    (destruct (try_except _ _ _) as [l|e]; [|discriminate]);
    intros [= <- <-]; unfold rebased, disk_baseline; rewrite ?En;
    cbn [s_timestamp s_cpu_percent s_cpu_per_core s_memory s_disk_io
         s_network_io];
    repeat (split; [reflexivity|]);
    try (split; [now destruct (r_net_io_counters r) | now left]).
  right. discriminate.
Qed.

(** A call that raises has recorded nothing. *)
Lemma get_system_stats_raise r m e m' :
  get_system_stats r m = (Raise e, m') -> same_rings m m'.
Proof.
  unfold get_system_stats.
  destruct (match r_cpu_freq_first r with
            | Some _ => _ | None => _ end) as [f|e0];
    [|intros [= _ <-]; apply same_rings_refl].
  destruct (match last_net_io m with
            | Some _ => _ | None => _ end) as [n|e0];
    [|intros [= _ <-]; repeat split].
  destruct (try_except _ _ _) as [l|e0]; [discriminate|].
  intros [= _ <-]. repeat split.
Qed.

Lemma get_system_stats_total r m :
  (exists st, get_system_stats r m = (Ok st, snd (get_system_stats r m)))
  \/ (exists e, get_system_stats r m = (Raise e, snd (get_system_stats r m))).
Proof.
  destruct (get_system_stats r m) as [[st|e] m']; [left | right]; eauto.
Qed.

(** *** The bound *)

(** The bound on the four rings. *)
Definition bounded (m : ResourceMonitor) : Prop :=
  0 <= history_size m
  /\ forall k, Z.of_nat (ring_length k m) <= history_size m.

Lemma bounded_same m m' : same_rings m m' -> bounded m -> bounded m'.
Proof.
  intros [Hs [Hc [Hm [Hd Hn]]]] [H0 Hk]. split; [now rewrite Hs|].
  intros k. specialize (Hk k). rewrite Hs.
  destruct k; simpl in *; congruence.
Qed.

Lemma bounded_add st m : bounded m -> bounded (_add_to_history st m).
Proof.
  intros [H0 Hk]. split; [exact H0|].
  pose proof (Hk Cpu) as Hc. pose proof (Hk Memory) as Hm.
  pose proof (Hk Disk) as Hd. pose proof (Hk Network) as Hn.
  simpl in Hc, Hm, Hd, Hn.
  intros k. unfold _add_to_history. destruct k; cbn [ring_length
    history_cpu history_memory history_disk history_network history_size].
  - now apply deque_append_length.
  - now apply deque_append_length.
  - destruct (s_disk_io st) as [[r w]|]; [now apply deque_append_length | exact Hd].
  - destruct (s_network_io st) as [[a b]|];
      [now apply deque_append_length | exact Hn].
Qed.

Lemma bounded_stats r m : bounded m -> bounded (snd (get_system_stats r m)).
Proof.
  intros Hb. destruct (get_system_stats_total r m) as [[st H]|[e H]].
  - apply get_system_stats_ok in H. destruct H as [-> _].
    apply bounded_add.
    apply (bounded_same m); [apply same_rings_rebased | exact Hb].
  - apply get_system_stats_raise in H. now apply (bounded_same m).
Qed.

Lemma reachable_bounded size m : reachable size m -> bounded m.
Proof.
  induction 1 as [m Hi | m r Hr IH | m st Hr IH].
  - unfold init in Hi.
    destruct (match size with Some n => n | None => 3600 end <? 0) eqn:E;
      [discriminate|].
    injection Hi as <-. apply Z.ltb_ge in E.
    split; [exact E|]. intros k; destruct k; simpl; lia.
  - now apply bounded_stats.
  - now apply bounded_add.
Qed.

Lemma reachable_size size m :
  reachable size m ->
  history_size m = match size with Some n => n | None => 3600 end.
Proof.
  induction 1 as [m Hi | m r Hr IH | m st Hr IH].
  - unfold init in Hi. destruct (_ <? 0); [discriminate|].
    now injection Hi as <-.
  - rewrite <- IH. destruct (get_system_stats_total r m) as [[st H]|[e H]].
    + apply get_system_stats_ok in H. destruct H as [-> _]. reflexivity.
    + apply get_system_stats_raise in H. apply H.
  - exact IH.
Qed.

(** *** Recording *)

Lemma deque_append_evicts {A : Type} (cap : Z) (old : list A) (x : A) :
  evicts cap old x (deque_append cap old x).
Proof.
  split; [|split].
  - apply deque_append_room.
  - intros Hlen Hpos. rewrite deque_append_full by exact Hlen.
    destruct old; [simpl in Hlen; lia | reflexivity].
  - intros Hlen H0. rewrite deque_append_full by exact Hlen.
    destruct old; [reflexivity | simpl in Hlen; lia].
Qed.

Lemma tl_skipn_snoc {A : Type} (k : nat) (l : list A) (x : A) :
  (k < List.length l)%nat ->
  tl (skipn k l ++ [x]) = skipn (S k) (l ++ [x]).
Proof.
  revert k. induction l as [|y l IH]; intros k Hk; simpl in Hk; [lia|].
  destruct k as [|k]; [reflexivity|].
  simpl skipn at 1. rewrite IH by lia. reflexivity.
Qed.

(** Appending to the newest [cap] items gives the newest [cap] items. *)
Lemma newest_step {A : Type} (cap : Z) (l : list A) (x : A) :
  0 <= cap -> deque_append cap (newest cap l) x = newest cap (l ++ [x]).
Proof.
  intros Hcap. unfold newest. rewrite length_app. simpl List.length.
  destruct (le_lt_dec (Z.to_nat cap) (List.length l)) as [Hfull|Hroom].
  - destruct (Nat.eq_dec (Z.to_nat cap) 0) as [H0|Hpos].
    + rewrite H0, !Nat.sub_0_r.
      rewrite skipn_all, skipn_all2 by (rewrite length_app; simpl; lia).
      unfold deque_append. simpl.
      destruct (1 >? cap) eqn:E; [reflexivity|]. lia.
    + rewrite deque_append_full.
      * rewrite tl_skipn_snoc by lia. f_equal. lia.
      * rewrite length_skipn. lia.
  - replace (List.length l - Z.to_nat cap)%nat with 0%nat by lia.
    replace (List.length l + 1 - Z.to_nat cap)%nat with 0%nat by lia.
    simpl. apply deque_append_room. lia.
Qed.

Lemma newest_later {A : Type} (cap : Z) (first : A) (later : list A) :
  Z.of_nat (List.length later) = cap -> newest cap (first :: later) = later.
Proof.
  intros H. unfold newest. simpl List.length.
  replace (S (List.length later) - Z.to_nat cap)%nat with 1%nat by lia.
  reflexivity.
Qed.

Lemma add_all_snoc sts st m :
  add_all (sts ++ [st]) m = _add_to_history st (add_all sts m).
Proof. unfold add_all. now rewrite fold_left_app. Qed.

Lemma add_all_size sts m : history_size (add_all sts m) = history_size m.
Proof.
  induction sts as [|st sts IH] using rev_ind; [reflexivity|].
  rewrite add_all_snoc. exact IH.
Qed.

(** After any recordings into empty rings, each ring holds the newest
    samples recorded for it. *)
Lemma add_all_newest sts m :
  0 <= history_size m ->
  history_cpu m = [] -> history_memory m = [] ->
  history_disk m = [] -> history_network m = [] ->
  history_cpu (add_all sts m) = newest (history_size m) (map cpu_sample sts)
  /\ history_memory (add_all sts m)
     = newest (history_size m) (map memory_sample sts)
  /\ history_disk (add_all sts m)
     = newest (history_size m) (flat_map disk_samples sts)
  /\ history_network (add_all sts m)
     = newest (history_size m) (flat_map network_samples sts).
Proof.
  intros H0 Hc Hm Hd Hn.
  induction sts as [|st sts IH] using rev_ind.
  - simpl. unfold newest. simpl. now rewrite Hc, Hm, Hd, Hn.
  - destruct IH as [Ic [Im [Id In']]].
    rewrite add_all_snoc, !map_app, !flat_map_app. simpl.
    rewrite !app_nil_r, add_all_size, Ic, Im, Id, In'.
    split; [now apply newest_step|]. split; [now apply newest_step|].
    split.
    + change (disk_samples st)
        with (match s_disk_io st with
              | Some (r, w) => [mkDiskEntry (s_timestamp st) r w]
              | None => []
              end).
      destruct (s_disk_io st) as [[r w]|];
        [now apply newest_step | now rewrite app_nil_r].
    + change (network_samples st)
        with (match s_network_io st with
              | Some (sent, recv) => [mkNetworkEntry (s_timestamp st) sent recv]
              | None => []
              end).
      destruct (s_network_io st) as [[a b]|];
        [now apply newest_step | now rewrite app_nil_r].
Qed.

Lemma flat_map_singletons {A B : Type} (f : A -> list B) (g : A -> B) l :
  Forall (fun a => f a = [g a]) l -> flat_map f l = map g l.
Proof.
  induction 1 as [|a l Ha Hl IH]; simpl; [reflexivity|].
  now rewrite Ha, IH.
Qed.

Lemma init_fresh size m :
  init size = Ok m ->
  0 <= history_size m
  /\ history_cpu m = [] /\ history_memory m = []
  /\ history_disk m = [] /\ history_network m = []
  /\ last_net_io m = None /\ last_disk_io m = None.
Proof.
  unfold init.
  destruct (match size with Some n => n | None => 3600 end <? 0) eqn:E;
    [discriminate|].
  intros [= <-]. apply Z.ltb_ge in E. now repeat split.
Qed.

(** C8: no ring of a reachable monitor holds more samples than the
    configured capacity (3600 when none is given).  [_add_to_history]
    records one sample in the cpu ring and one in the memory ring, and one
    in the disk and in the network ring when the statistics carry the
    delta: with room left the sample is added behind the others, at
    capacity the oldest sample goes and the others stay in order in front
    of the new one.  A call of [get_system_stats] that returns has recorded
    its statistics in this way, a call that raises has recorded nothing.
    After any recordings into a fresh monitor each ring holds the newest
    samples recorded for it, as many as the capacity allows; so after
    capacity+1 recordings the first sample is gone and the later ones are
    there in order. *)
Theorem history_rings_are_bounded :
  (forall size m k,
      Resource.reachable size m ->
      Z.of_nat (ring_length k m) <= history_size m
      /\ history_size m = match size with Some n => n | None => 3600 end)
  /\ (forall m st,
        evicts (history_size m) (history_cpu m) (cpu_sample st)
               (history_cpu (_add_to_history st m))
        /\ evicts (history_size m) (history_memory m) (memory_sample st)
                  (history_memory (_add_to_history st m))
        /\ (forall sample,
              disk_samples st = [sample] ->
              evicts (history_size m) (history_disk m) sample
                     (history_disk (_add_to_history st m)))
        /\ (disk_samples st = [] ->
            history_disk (_add_to_history st m) = history_disk m)
        /\ (forall sample,
              network_samples st = [sample] ->
              evicts (history_size m) (history_network m) sample
                     (history_network (_add_to_history st m)))
        /\ (network_samples st = [] ->
            history_network (_add_to_history st m) = history_network m))
  /\ (forall r m st m',
        get_system_stats r m = (Ok st, m') ->
        history_cpu m' = history_cpu (_add_to_history st m)
        /\ history_memory m' = history_memory (_add_to_history st m)
        /\ history_disk m' = history_disk (_add_to_history st m)
        /\ history_network m' = history_network (_add_to_history st m)
        /\ cpu_sample st
           = mkCpuEntry (r_time r) (r_cpu_percent r) (r_cpu_per_core r)
        /\ memory_sample st
           = mkMemoryEntry (r_time r) (vm_percent (r_virtual_memory r))
                           (vm_used (r_virtual_memory r)))
  /\ (forall r m e m',
        get_system_stats r m = (Raise e, m') ->
        history_cpu m' = history_cpu m /\ history_memory m' = history_memory m
        /\ history_disk m' = history_disk m
        /\ history_network m' = history_network m)
  /\ (forall size m sts,
        init size = Ok m ->
        history_cpu (add_all sts m)
        = newest (history_size m) (map cpu_sample sts)
        /\ history_memory (add_all sts m)
           = newest (history_size m) (map memory_sample sts)
        /\ history_disk (add_all sts m)
           = newest (history_size m) (flat_map disk_samples sts)
        /\ history_network (add_all sts m)
           = newest (history_size m) (flat_map network_samples sts))
  /\ (forall size m first later,
        init size = Ok m ->
        Z.of_nat (List.length later) = history_size m ->
        history_cpu (add_all (first :: later) m) = map cpu_sample later
        /\ history_memory (add_all (first :: later) m)
           = map memory_sample later
        /\ (forall d n,
              Forall (fun st => disk_samples st = [d st]
                                /\ network_samples st = [n st])
                     (first :: later) ->
              history_disk (add_all (first :: later) m) = map d later
              /\ history_network (add_all (first :: later) m) = map n later)).
Proof.
  split; [|split; [|split; [|split; [|split]]]].
  - intros size m k Hr. split.
    + apply reachable_bounded in Hr. destruct Hr as [_ Hk]. apply Hk.
    + now apply reachable_size.
  - intros m st. unfold _add_to_history, disk_samples, network_samples.
    cbn [history_cpu history_memory history_disk history_network].
    split; [apply deque_append_evicts|]. split; [apply deque_append_evicts|].
    split; [|split; [|split]].
    + intros sample. destruct (s_disk_io st) as [[r w]|]; [|discriminate].
      intros [= <-]. apply deque_append_evicts.
    + destruct (s_disk_io st) as [[r w]|]; [discriminate | reflexivity].
    + intros sample. destruct (s_network_io st) as [[a b]|]; [|discriminate].
      intros [= <-]. apply deque_append_evicts.
    + destruct (s_network_io st) as [[a b]|]; [discriminate | reflexivity].
  - intros r m st m' H. apply get_system_stats_ok in H.
    destruct H as [-> [Ht [Hc [Hp [Hm _]]]]].
    unfold cpu_sample, memory_sample. rewrite Ht, Hc, Hp, Hm.
    repeat split.
  - intros r m e m' H. apply get_system_stats_raise in H.
    destruct H as [_ [Hc [Hm [Hd Hn]]]]. auto.
  - intros size m sts Hi.
    destruct (init_fresh size m Hi) as [H0 [Hc [Hm [Hd [Hn _]]]]].
    now apply add_all_newest.
  - intros size m first later Hi Hlen.
    destruct (init_fresh size m Hi) as [H0 [Hc [Hm [Hd [Hn _]]]]].
    destruct (add_all_newest (first :: later) m H0 Hc Hm Hd Hn)
      as [Ec [Em [Ed En]]].
    rewrite Ec, Em, Ed, En. cbn [map].
    split; [apply newest_later; now rewrite length_map|].
    split; [apply newest_later; now rewrite length_map|].
    intros d n Hall.
    rewrite (flat_map_singletons disk_samples d),
            (flat_map_singletons network_samples n).
    + cbn [map]. split; apply newest_later; now rewrite length_map.
    + eapply Forall_impl; [|exact Hall]. intros a Ha. apply Ha.
    + eapply Forall_impl; [|exact Hall]. intros a Ha. apply Ha.
Qed.

Local Open Scope string_scope.
Local Open Scope Z_scope.
Local Open Scope list_scope.

(** Readings of a host with four cores, without frequency and load
    information. *)
Definition sample_readings (t : float) (disk : option disk_counters)
    (net : option net_counters) : readings :=
  mkReadings 12.5%float 4 None None [10%float; 15%float]
    (mkVirtualMemory 1000 600 400 40%float)
    (mkUsage 0 0 0 0%float) (mkUsage 500 100 400 20%float)
    disk net (Raise AttributeError) t.

(** The statistics a call with these readings returns, given the deltas. *)
Definition sample_stats (t : float) (disk net : option (Z * Z)) : stats :=
  mkStats 12.5%float 4 None [10%float; 15%float]
    (mkVirtualMemory 1000 600 400 40%float)
    (mkUsage 0 0 0 0%float) (mkUsage 500 100 400 20%float)
    disk net None t.

(** Three calls on a monitor of capacity two. *)
Definition first_readings : readings :=
  sample_readings 1%float (Some (mkDiskCounters 1 2))
                  (Some (mkNetCounters 10 1)).

Definition second_readings : readings :=
  sample_readings 2%float (Some (mkDiskCounters 5 6))
                  (Some (mkNetCounters 50 5)).

Definition third_readings : readings :=
  sample_readings 3%float (Some (mkDiskCounters 9 9))
                  (Some (mkNetCounters 70 9)).

Definition polled_once : ResourceMonitor :=
  snd (get_system_stats first_readings (mkMonitor 2 [] [] [] [] None None)).

Definition polled_two_times : ResourceMonitor :=
  snd (get_system_stats second_readings polled_once).

Definition polled_thrice : ResourceMonitor :=
  snd (get_system_stats third_readings polled_two_times).

Lemma history_rings_are_bounded_witness :
  history_cpu (add_all [sample_stats 1%float None None;
                        sample_stats 2%float (Some (4, 4)) (Some (40, 4));
                        sample_stats 3%float (Some (4, 3)) (Some (20, 4))]
                 (mkMonitor 2 [] [] [] [] None None))
  = [mkCpuEntry 2%float 12.5%float [10%float; 15%float];
     mkCpuEntry 3%float 12.5%float [10%float; 15%float]]
  /\ history_disk polled_thrice
     = history_disk
         (_add_to_history (sample_stats 3%float (Some (4, 3)) (Some (20, 4)))
            polled_two_times)
  /\ history_disk
       (_add_to_history (sample_stats 3%float (Some (4, 3)) (Some (20, 4)))
          polled_two_times)
     = history_disk polled_two_times ++ [mkDiskEntry 3%float 4 3]
  /\ Z.of_nat (ring_length Disk polled_thrice) <= 2.
Proof.
  split; [|split; [|split]].
  - apply (proj1 (proj2 (proj2 (proj2 (proj2 (proj2
             history_rings_are_bounded)))) (Some 2)
             (mkMonitor 2 [] [] [] [] None None)
             (sample_stats 1%float None None)
             [sample_stats 2%float (Some (4, 4)) (Some (40, 4));
              sample_stats 3%float (Some (4, 3)) (Some (20, 4))]
             eq_refl eq_refl)).
  - apply (proj1 (proj2 (proj2 (proj1 (proj2 (proj2 history_rings_are_bounded))
                    third_readings polled_two_times
                    (sample_stats 3%float (Some (4, 3)) (Some (20, 4)))
                    polled_thrice eq_refl)))).
  - apply (proj1 (proj1 (proj2 (proj2 (proj1 (proj2 history_rings_are_bounded)
                    polled_two_times
                    (sample_stats 3%float (Some (4, 3)) (Some (20, 4))))))
                    (mkDiskEntry 3%float 4 3) eq_refl)).
    vm_compute. reflexivity.
  - apply (proj1 (proj1 history_rings_are_bounded (Some 2) polled_thrice Disk
                    (reach_stats _ _ _ (reach_stats _ _ _
                       (reach_stats _ _ _ (reach_init (Some 2) _ eq_refl)))))).
Defined.

(** *** The ring keeps the newest samples *)

(** Whatever was appended to an empty ring of capacity [cap], the ring
    holds the last [cap] samples appended, in the order of their arrival
    (all of them while fewer than [cap] were appended). *)
Theorem ring_keeps_the_newest_samples (A : Type) (cap : Z) (xs : list A) :
  0 <= cap ->
  append_all cap xs [] = skipn (List.length xs - Z.to_nat cap) xs.
Proof.
  intros Hcap. induction xs as [|x xs IH] using rev_ind; [reflexivity|].
  rewrite append_all_snoc, IH, length_app. simpl List.length.
  destruct (le_lt_dec (Z.to_nat cap) (List.length xs)) as [Hfull|Hroom].
  - destruct (Nat.eq_dec (Z.to_nat cap) 0) as [H0|Hpos].
    + (* capacity 0: nothing is kept *)
      rewrite H0, !Nat.sub_0_r.
      rewrite skipn_all, skipn_all2 by (rewrite length_app; simpl; lia).
      unfold deque_append. simpl.
      destruct (1 >? cap) eqn:E; [reflexivity|]. lia.
    + rewrite deque_append_full.
      * rewrite tl_skipn_snoc by lia. f_equal. lia.
      * rewrite length_skipn. lia.
  - replace (List.length xs - Z.to_nat cap)%nat with 0%nat by lia.
    replace (List.length xs + 1 - Z.to_nat cap)%nat with 0%nat by lia.
    simpl. apply deque_append_room. lia.
Qed.

Lemma ring_keeps_the_newest_samples_witness :
  append_all 2 [1; 2; 3; 4; 5] []
  = skipn (List.length [1; 2; 3; 4; 5] - Z.to_nat 2) [1; 2; 3; 4; 5].
Proof. apply ring_keeps_the_newest_samples. lia. Defined.

(** *** The rings of one monitor *)

Lemma deque_append_length_min {A : Type} (cap : Z) (d : list A) (x : A) :
  0 <= cap -> Z.of_nat (List.length d) <= cap ->
  Z.of_nat (List.length (deque_append cap d x))
  = Z.min (Z.of_nat (List.length d) + 1) cap.
Proof.
  intros H0 Hd. unfold deque_append.
  destruct (Z.of_nat (List.length (d ++ [x])) >? cap) eqn:E;
    rewrite Z.gtb_ltb in E; rewrite length_app in E; simpl in E.
  - apply Z.ltb_lt in E. destruct d as [|y d]; simpl in *; [lia|].
    rewrite length_app. simpl. lia.
  - apply Z.ltb_ge in E. rewrite length_app. simpl. lia.
Qed.

Lemma together_add st m :
  bounded m -> together m -> together (_add_to_history st m).
Proof.
  intros [H0 Hk] [H1 [H2 H3]].
  pose proof (Hk Cpu) as Hc. pose proof (Hk Memory) as Hm.
  pose proof (Hk Disk) as Hd. pose proof (Hk Network) as Hn.
  unfold together, _add_to_history in *. simpl in *.
  pose proof (deque_append_length_min (history_size m) (history_cpu m)
    (mkCpuEntry (s_timestamp st) (s_cpu_percent st) (s_cpu_per_core st))
    H0 Hc) as Lc.
  pose proof (deque_append_length_min (history_size m) (history_memory m)
    (mkMemoryEntry (s_timestamp st) (vm_percent (s_memory st))
                   (vm_used (s_memory st))) H0 Hm) as Lm.
  split; [lia|]. split.
  - destruct (s_disk_io st) as [[r w]|]; [|lia].
    pose proof (deque_append_length_min (history_size m) (history_disk m)
      (mkDiskEntry (s_timestamp st) r w) H0 Hd). lia.
  - destruct (s_network_io st) as [[a b]|]; [|lia].
    pose proof (deque_append_length_min (history_size m) (history_network m)
      (mkNetworkEntry (s_timestamp st) a b) H0 Hn). lia.
Qed.

Lemma together_same m m' : same_rings m m' -> together m -> together m'.
Proof.
  intros [_ [Hc [Hm [Hd Hn]]]]. unfold together, ring_length.
  now rewrite Hc, Hm, Hd, Hn.
Qed.

Lemma together_stats r m :
  bounded m -> together m -> together (snd (get_system_stats r m)).
Proof.
  intros Hb Ht. destruct (get_system_stats_total r m) as [[st H]|[e H]].
  - apply get_system_stats_ok in H. destruct H as [-> _].
    apply together_add.
    + apply (bounded_same m); [apply same_rings_rebased | exact Hb].
    + apply (together_same m); [apply same_rings_rebased | exact Ht].
  - apply get_system_stats_raise in H. now apply (together_same m).
Qed.

(** In every reachable monitor the cpu ring and the memory ring hold the
    same number of samples, and the disk and network rings hold no more:
    every call that records statistics appends to the first two, and to the
    others only when it has a delta. *)
Theorem rings_grow_together size m :
  Resource.reachable size m ->
  ring_length Cpu m = ring_length Memory m
  /\ (ring_length Disk m <= ring_length Cpu m)%nat
  /\ (ring_length Network m <= ring_length Cpu m)%nat.
Proof.
  intros Hr. change (together m).
  induction Hr as [m Hi | m r Hr IH | m st Hr IH].
  - unfold init in Hi. destruct (_ <? 0); [discriminate|].
    injection Hi as <-. repeat split; simpl; lia.
  - apply together_stats; [now apply (reachable_bounded size) | exact IH].
  - apply together_add; [now apply (reachable_bounded size) | exact IH].
Qed.

(** Two calls on a monitor of capacity five, the first of them on a host
    that reports no disk counters yet. *)
Definition polled_twice : ResourceMonitor :=
  snd (get_system_stats
         (sample_readings 2%float (Some (mkDiskCounters 5 6))
                          (Some (mkNetCounters 50 5)))
         (snd (get_system_stats
                 (sample_readings 1%float None (Some (mkNetCounters 10 1)))
                 (mkMonitor 5 [] [] [] [] None None)))).

Lemma rings_grow_together_witness :
  (ring_length Cpu polled_twice = 2 /\ ring_length Memory polled_twice = 2
   /\ ring_length Disk polled_twice = 0 /\ ring_length Network polled_twice = 1)%nat
  /\ ring_length Cpu polled_twice = ring_length Memory polled_twice
  /\ (ring_length Disk polled_twice <= ring_length Cpu polled_twice)%nat
  /\ (ring_length Network polled_twice <= ring_length Cpu polled_twice)%nat.
Proof.
  split; [repeat split|].
  apply (rings_grow_together (Some 5)).
  apply reach_stats, reach_stats, reach_init. reflexivity.
Defined.

(** *** Deltas *)

Lemma rebased_raise r m e :
  reaches_loadavg r m -> r_getloadavg r = Raise e -> e <> AttributeError ->
  get_system_stats r m = (Raise e, rebased r m).
Proof.
  intros [Hf Hn] Hl He. unfold get_system_stats.
  assert (Hfreq : exists f,
             match r_cpu_freq_first r with
             | Some _ =>
                 match r_cpu_freq_second r with
                 | Some f => Ok (Some f)
                 | None => Raise AttributeError
                 end
             | None => Ok None
             end = Ok f).
  { destruct (r_cpu_freq_first r); [|eauto].
    destruct (r_cpu_freq_second r); [eauto|].
    destruct Hf as [Hf|Hf]; [discriminate | congruence]. }
  destruct Hfreq as [f ->].
  assert (Hnet : exists n,
             match last_net_io m with
             | Some before =>
                 match r_net_io_counters r with
                 | Some now =>
                     Ok (Some (nc_bytes_sent now - nc_bytes_sent before,
                               nc_bytes_recv now - nc_bytes_recv before))
                 | None => Raise AttributeError
                 end
             | None => Ok None
             end = Ok n).
  { destruct (last_net_io m); [|eauto].
    destruct (r_net_io_counters r); [eauto|].
    destruct Hn as [Hn|Hn]; [discriminate | congruence]. }
  destruct Hnet as [n ->]. rewrite Hl. simpl.
  destruct e; try reflexivity. congruence.
Qed.

(** The first statistics of a fresh monitor carry no disk and no network
    delta and leave those two rings empty.  In any monitor, the statistics
    of a call that returns carry the differences between its readings and
    the baselines, where both are there, and the call leaves its readings
    as the baselines.  A call that raises in [getloadavg] has replaced the
    baselines too, although it recorded nothing, so the call after it
    reports the differences to the readings of the failed call.  Once a
    network baseline is there, a call that reads no network counters
    raises [AttributeError], keeping the network baseline. *)
Theorem deltas_need_a_baseline :
  (forall size m r st m',
      init size = Ok m ->
      get_system_stats r m = (Ok st, m') ->
      s_disk_io st = None /\ s_network_io st = None
      /\ history_disk m' = [] /\ history_network m' = [])
  /\ (forall m r st m',
        get_system_stats r m = (Ok st, m') ->
        s_disk_io st
        = match r_disk_io_counters r, last_disk_io m with
          | Some now, Some before => Some (disk_delta now before)
          | _, _ => None
          end
        /\ s_network_io st
           = match r_net_io_counters r, last_net_io m with
             | Some now, Some before => Some (net_delta now before)
             | _, _ => None
             end
        /\ last_disk_io m' = disk_baseline r m
        /\ last_net_io m' = r_net_io_counters r)
  /\ (forall m r e,
        reaches_loadavg r m ->
        r_getloadavg r = Raise e -> e <> AttributeError ->
        exists m',
          get_system_stats r m = (Raise e, m')
          /\ last_disk_io m' = disk_baseline r m
          /\ last_net_io m' = r_net_io_counters r
          /\ history_cpu m' = history_cpu m
          /\ history_memory m' = history_memory m
          /\ history_disk m' = history_disk m
          /\ history_network m' = history_network m)
  /\ (forall m rf e r st m',
        reaches_loadavg rf m ->
        r_getloadavg rf = Raise e -> e <> AttributeError ->
        get_system_stats r (snd (get_system_stats rf m)) = (Ok st, m') ->
        s_network_io st
        = match r_net_io_counters r, r_net_io_counters rf with
          | Some now, Some before => Some (net_delta now before)
          | _, _ => None
          end
        /\ s_disk_io st
           = match r_disk_io_counters r, disk_baseline rf m with
             | Some now, Some before => Some (disk_delta now before)
             | _, _ => None
             end)
  /\ (forall m r before,
        last_net_io m = Some before -> r_net_io_counters r = None ->
        r_cpu_freq_first r = None \/ r_cpu_freq_second r <> None ->
        exists m',
          get_system_stats r m = (Raise AttributeError, m')
          /\ last_net_io m' = Some before
          /\ last_disk_io m' = disk_baseline r m
          /\ history_network m' = history_network m).
Proof.
  split; [|split; [|split; [|split]]].
  - intros size m r st m' Hi H.
    destruct (init_fresh size m Hi) as [_ [_ [_ [Hd [Hn [Ln Ld]]]]]].
    apply get_system_stats_ok in H.
    destruct H as [-> [_ [_ [_ [_ [Sd [Sn _]]]]]]].
    rewrite Ln in Sn. rewrite Ld in Sd.
    assert (Sd' : s_disk_io st = None)
      by (rewrite Sd; now destruct (r_disk_io_counters r)).
    assert (Sn' : s_network_io st = None)
      by (rewrite Sn; now destruct (r_net_io_counters r)).
    unfold _add_to_history, rebased.
    cbn [history_disk history_network]. now rewrite Sd', Sn'.
  - intros m r st m' H. apply get_system_stats_ok in H.
    destruct H as [-> [_ [_ [_ [_ [Sd [Sn _]]]]]]]. now repeat split.
  - intros m r e Hr Hl He. exists (rebased r m).
    split; [now apply rebased_raise|]. now repeat split.
  - intros m rf e r st m' Hr Hl He H.
    rewrite (rebased_raise rf m e Hr Hl He) in H. cbn [snd] in H.
    apply get_system_stats_ok in H.
    destruct H as [_ [_ [_ [_ [_ [Sd [Sn _]]]]]]]. now split.
  - intros m r before Hl Hn Hf. unfold get_system_stats.
    assert (Hfreq : exists f,
               match r_cpu_freq_first r with
               | Some _ =>
                   match r_cpu_freq_second r with
                   | Some f => Ok (Some f)
                   | None => Raise AttributeError
                   end
               | None => Ok None
               end = Ok f).
    { destruct (r_cpu_freq_first r); [|eauto].
      destruct (r_cpu_freq_second r); [eauto|].
      destruct Hf as [Hf|Hf]; [discriminate | congruence]. }
    destruct Hfreq as [f ->]. rewrite Hl, Hn.
    eexists. split; [reflexivity|]. now repeat split.
Qed.

(** The second readings on a host where [getloadavg] fails. *)
Definition failing_readings : readings :=
  mkReadings 12.5%float 4 None None [10%float; 15%float]
    (mkVirtualMemory 1000 600 400 40%float)
    (mkUsage 0 0 0 0%float) (mkUsage 500 100 400 20%float)
    (Some (mkDiskCounters 5 6)) (Some (mkNetCounters 50 5))
    (Raise IOError) 2%float.

Lemma deltas_need_a_baseline_witness :
  s_network_io (sample_stats 3%float (Some (4, 3)) (Some (20, 4)))
  = Some (net_delta (mkNetCounters 70 9) (mkNetCounters 50 5))
  /\ s_disk_io (sample_stats 3%float (Some (4, 3)) (Some (20, 4)))
     = Some (disk_delta (mkDiskCounters 9 9) (mkDiskCounters 5 6)).
Proof.
  apply (proj1 (proj2 (proj2 (proj2 deltas_need_a_baseline)))
           polled_once failing_readings IOError third_readings
           (sample_stats 3%float (Some (4, 3)) (Some (20, 4)))
           (snd (get_system_stats third_readings
                   (snd (get_system_stats failing_readings polled_once))))).
  - split; [now left | right; discriminate].
  - reflexivity.
  - discriminate.
  - reflexivity.
Defined.

End ResourceFacts.

(** ** The process executor *)
Module ExecutorFacts.
Import Py Parser Executor.

Lemma execute_handlers_launch command e :
  e = FileNotFoundError \/ e = PermissionError ->
  exists m, execute_handlers command e = ([Print m], Ok None).
Proof. intros [-> | ->]; eexists; reflexivity. Qed.






Definition world_fine : world :=
  mkWorld (fun _ _ => Ok tt) (fun _ => Ok 4242) 0
          (Ok tt) (Ok tt) (Ok tt) (Ok tt) 4 (Ok tt) (Ok tt) (Ok tt).

Definition stage (command : string) (redirects : list (redirect_op * string))
    (background : bool) : descriptor :=
  mkDescriptor command [] redirects background false false command.




Local Open Scope string_scope.
Local Open Scope Z_scope.
Local Open Scope list_scope.
Import PyFacts.

(** *** Resource limits never undo a launch *)

Lemma apply_limits_ordinary w pid res ev e :
  ordinary (w_process w) -> ordinary (w_cpu_affinity w) ->
  ordinary (w_rlimit w) -> ordinary (w_nice w) ->
  apply_limits w pid res = (ev, Raise e) -> isinstance e Exception = true.
Proof.
  intros Hp Ha Hr Hn. unfold apply_limits.
  destruct (w_process w) as [u|x] eqn:Ep; [|intros [= _ <-]; now apply Hp].
  repeat match goal with
         | |- context [match res_cores res with _ => _ end] =>
             destruct (res_cores res) as [[|?|?]|]
         | |- context [if ?b then _ else _] => destruct b eqn:?
         | |- context [match w_cpu_affinity w with _ => _ end] =>
             destruct (w_cpu_affinity w) as [?|?] eqn:?
         | |- context [match res_memory res with _ => _ end] =>
             destruct (res_memory res) as [[|?|?]|]
         | |- context [match w_rlimit w with _ => _ end] =>
             destruct (w_rlimit w) as [?|?] eqn:?
         | |- context [match res_priority res with _ => _ end] =>
             destruct (res_priority res)
         | |- context [match w_nice w with _ => _ end] =>
             destruct (w_nice w) as [?|?] eqn:?
         end;
    intros H; inversion H; subst;
    first [ now apply Ha | now apply Hr | now apply Hn ].
Qed.

(** Once the spawn succeeded, [execute_with_resources] returns the handle
    whatever becomes of the affinity, the memory limit and the priority, as
    long as the system answers with ordinary exceptions; and it records
    nothing in the process table. *)
Theorem limits_never_undo_a_launch w cmd res ex pid :
  w_popen w (command cmd :: args cmd) = Ok pid ->
  ordinary (w_process w) -> ordinary (w_cpu_affinity w) ->
  ordinary (w_rlimit w) -> ordinary (w_nice w) ->
  returned (execute_with_resources w cmd res ex) = Ok (Some pid)
  /\ executor (execute_with_resources w cmd res ex) = ex.
Proof.
  intros Hpop Hp Ha Hr Hn. unfold execute_with_resources. rewrite Hpop.
  destruct (apply_limits w pid res) as [ev [u|e]] eqn:E; [now split|].
  pose proof (apply_limits_ordinary w pid res ev e Hp Ha Hr Hn E) as He.
  destruct (isinstance e (Exactly NoSuchProcess)); [now split|].
  rewrite He. now split.
Qed.

Lemma limits_never_undo_a_launch_witness :
  returned
    (execute_with_resources
       (mkWorld (fun _ _ => Ok tt) (fun _ => Ok 77) 0 (Ok tt) (Ok tt) (Ok tt)
                (Ok tt) 4 (Raise ValueError) (Raise PermissionError)
                (Raise NoSuchProcess))
       (stage "sleep" [] true) (mkResources (Some 2) (Some 1024) "low")
       (mkExecutor []))
  = Ok (Some 77).
Proof.
  apply (limits_never_undo_a_launch _ (stage "sleep" [] true)
           (mkResources (Some 2) (Some 1024) "low") (mkExecutor []) 77);
    try reflexivity; intros e H; simpl in H; inversion H; reflexivity.
Defined.

(** *** The process table *)

Lemma execute_body_table w cmd job_id i o e ex :
  snd (execute_body w cmd job_id i o e ex)
  = match w_popen w (command cmd :: args cmd) with
    | Ok pid =>
        mkExecutor
          (dict_set Z.eqb (processes ex) pid
             (mkProcessInfo pid (join_spaces (command cmd :: args cmd)) job_id
                            (w_time w) (background cmd)))
    | Raise _ => ex
    end.
Proof.
  unfold execute_body.
  destruct (w_popen w (command cmd :: args cmd)) as [pid|x].
  - destruct (background cmd); [reflexivity|].
    destruct (w_wait w) as [u|x1]; [reflexivity|].
    destruct (isinstance x1 (Exactly KeyboardInterrupt)).
    + destruct (try_except (w_killpg w) ProcessLookupError (Ok tt)) as [u|x2].
      * destruct (w_wait_again w) as [u'|x3]; [reflexivity|].
        now destruct (execute_handlers (command cmd) x3).
      * now destruct (execute_handlers (command cmd) x2).
    + now destruct (execute_handlers (command cmd) x1).
  - now destruct (execute_handlers (command cmd) x).
Qed.

(** When the redirections are set up without exception, [execute] records
    the process it spawned under its pid (the command line joined by
    spaces, the job id, the start time, the background flag), whatever
    happens while it waits; when the spawn fails the table stays as it
    was. *)
Theorem execute_tracks_spawned_process w cmd job_id ex streams :
  snd (_setup_redirects w (redirects cmd)) = Ok streams ->
  match w_popen w (command cmd :: args cmd) with
  | Ok pid =>
      dict_get Z.eqb (processes (executor (execute w cmd job_id ex))) pid
      = Some (mkProcessInfo pid (join_spaces (command cmd :: args cmd)) job_id
                            (w_time w) (background cmd))
      /\ forall other, other <> pid ->
           dict_get Z.eqb (processes (executor (execute w cmd job_id ex))) other
           = dict_get Z.eqb (processes ex) other
  | Raise _ => executor (execute w cmd job_id ex) = ex
  end.
Proof.
  intros Hs. unfold execute.
  destruct (_setup_redirects w (redirects cmd)) as [ev0 [[[i o] e]|x]];
    [|discriminate].
  pose proof (execute_body_table w cmd job_id i o e ex) as Ht.
  destruct (execute_body w cmd job_id i o e ex) as [[ev1 r] ex1].
  simpl in Ht. subst ex1.
  destruct (close_all i o e) as [ev2 [u|x]];
    destruct (w_popen w (command cmd :: args cmd)) as [pid|x'];
    cbn [executor processes]; try reflexivity;
    (split; [apply (dict_get_set_eq _ Z.eqb_eq)|];
     intros other Hne; apply (dict_get_set_ne _ Z.eqb_eq);
     congruence).
Qed.

Lemma execute_tracks_spawned_process_witness :
  dict_get Z.eqb
    (processes (executor (execute world_fine (stage "ls" [] true) (Some 3)
                            (mkExecutor [])))) 4242
  = Some (mkProcessInfo 4242 "ls" (Some 3) 0 true).
Proof.
  apply (execute_tracks_spawned_process world_fine (stage "ls" [] true)
           (Some 3) (mkExecutor []) (NoStream, NoStream, NoStream) eq_refl).
Defined.

(** *** The [finally] block *)

Lemma setup_fold w l :
  only_oserror w ->
  forall ev i o e,
    exists ev' i' o' e',
      fold_left (setup_one w) l (ev, Ok (i, o, e)) = (ev', Ok (i', o', e'))
      /\ ((forall g, In (RErr, g) l -> exists x, w_open w g ModeW = Raise x) ->
          e = STDOUT \/ (exists f, In (RBoth, f) l /\ w_open w f ModeW = Ok tt) ->
          e' = STDOUT)
      /\ ((forall g, In (RIn, g) l -> exists x, w_open w g ModeR = Raise x) ->
          i = DEVNULL \/ (exists f, In (RIn, f) l) ->
          i' = DEVNULL).
Proof.
  intros Hw. induction l as [|[op f] l IH]; intros ev i o e.
  - exists ev, i, o, e. split; [reflexivity|]. split.
    + intros _ [H|[g [[] _]]]. exact H.
    + intros _ [H|[g []]]. exact H.
  - cbn [fold_left].
    assert (Hstep : exists ev1 i1 o1 e1,
              setup_one w (ev, Ok (i, o, e)) (op, f) = (ev1, Ok (i1, o1, e1))
              /\ (op <> RErr \/ (exists x, w_open w f ModeW = Raise x) ->
                  e = STDOUT \/ (op = RBoth /\ w_open w f ModeW = Ok tt) ->
                  e1 = STDOUT)
              /\ (op <> RErr \/ (exists x, w_open w f ModeW = Raise x) ->
                  op <> RBoth \/ w_open w f ModeW <> Ok tt ->
                  e1 = e)
              /\ (op <> RIn \/ (exists x, w_open w f ModeR = Raise x) ->
                  i = DEVNULL \/ op = RIn -> i1 = DEVNULL)).
    { unfold setup_one. cbn [fst snd].
      destruct op;
        match goal with
        | |- context [w_open w f ?m] =>
            destruct (w_open w f m) as [[]|x] eqn:Eo;
              [|rewrite (Hw f m x Eo)]
        end;
        do 4 eexists; (split; [reflexivity|]);
        repeat split; intros H1 H2;
        repeat match goal with
               | H : _ \/ _ |- _ => destruct H
               | H : _ /\ _ |- _ => destruct H
               | H : exists _, _ |- _ => destruct H
               end; try congruence; try reflexivity. }
    destruct Hstep as [ev1 [i1 [o1 [e1 [Hs [HA [HA' HB]]]]]]]. rewrite Hs.
    destruct (IH ev1 i1 o1 e1) as [ev' [i' [o' [e' [Hf [IA IB]]]]]].
    exists ev', i', o', e'. split; [exact Hf|]. split.
    + intros Herr Hsrc. apply IA.
      * intros g Hg. apply Herr. now right.
      * assert (Hthis : op <> RErr \/ (exists x, w_open w f ModeW = Raise x)).
        { destruct op; try (left; discriminate). right. apply Herr. now left. }
        destruct Hsrc as [-> | [f0 [[Heq|Hin] Ho]]].
        -- left. destruct (HA Hthis) as []; auto.
        -- injection Heq as -> ->. left. apply (HA Hthis). right. now split.
        -- right. now exists f0.
    + intros Hin Hsrc. apply IB.
      * intros g Hg. apply Hin. now right.
      * assert (Hthis : op <> RIn \/ (exists x, w_open w f ModeR = Raise x)).
        { destruct op; try (left; discriminate). right. apply Hin. now left. }
        destruct Hsrc as [-> | [f0 [Heq|Hin0]]].
        -- left. apply (HB Hthis). now left.
        -- injection Heq as -> ->. left. apply (HB Hthis). now right.
        -- right. now exists f0.
Qed.

Lemma close_all_unclosable i o e :
  i = DEVNULL \/ e = STDOUT -> snd (close_all i o e) = Raise AttributeError.
Proof.
  intros [-> | ->]; [reflexivity|].
  unfold close_all. destruct i, o; reflexivity.
Qed.

(** [execute] puts the integers [DEVNULL] and [STDOUT] where its [finally]
    block expects files: when the redirect map holds [&>] with a file that
    opens (and no [2>] file opens), or [<] with a file that does not open,
    an [AttributeError] leaves [execute], whether or not the process was
    launched. *)
Theorem unclosable_stream_raises w cmd job_id ex :
  only_oserror w ->
  ((exists f, In (RBoth, f) (redirects cmd) /\ w_open w f ModeW = Ok tt)
   /\ (forall g, In (RErr, g) (redirects cmd) ->
                 exists x, w_open w g ModeW = Raise x))
  \/ ((exists f, In (RIn, f) (redirects cmd))
      /\ (forall g, In (RIn, g) (redirects cmd) ->
                    exists x, w_open w g ModeR = Raise x)) ->
  returned (execute w cmd job_id ex) = Raise AttributeError.
Proof.
  intros Hw Hcase. unfold execute, _setup_redirects.
  destruct (setup_fold w (redirects cmd) Hw [] NoStream NoStream NoStream)
    as [ev' [i' [o' [e' [Hf [HA HB]]]]]].
  rewrite Hf.
  assert (Hc : snd (close_all i' o' e') = Raise AttributeError).
  { apply close_all_unclosable.
    destruct Hcase as [[Hb He] | [Hi Hn]].
    - right. apply (HA He). now right.
    - left. apply (HB Hn). now right. }
  destruct (execute_body w cmd job_id i' o' e' ex) as [[ev1 r] ex1].
  destruct (close_all i' o' e') as [ev2 [u|x]]; simpl in Hc; [discriminate|].
  injection Hc as ->. reflexivity.
Qed.

Lemma unclosable_stream_raises_witness :
  returned (execute world_fine (stage "ls" [(RBoth, "all.log")] false) None
              (mkExecutor []))
  = Raise AttributeError.
Proof.
  apply (unclosable_stream_raises world_fine
           (stage "ls" [(RBoth, "all.log")] false) None (mkExecutor [])).
  - intros f m e H. discriminate.
  - left. split.
    + exists "all.log". split; [now left | reflexivity].
    + intros g [H|[]]. discriminate.
Defined.

End ExecutorFacts.

(** ** The command-line parser *)
Module ParserFacts.
Import Py PyFacts Parser.
Local Open Scope string_scope.
Local Open Scope Z_scope.
Local Open Scope list_scope.

(** *** Strings *)

Lemma append_nil_r s : (s ++ EmptyString)%string = s.
Proof. induction s as [|c s IH]; simpl; [reflexivity | now rewrite IH]. Qed.

Lemma append_assoc' a b c : ((a ++ b) ++ c)%string = (a ++ (b ++ c))%string.
Proof. induction a as [|x a IH]; simpl; [reflexivity | now rewrite IH]. Qed.

Lemma rev_append_app s acc :
  rev_append s acc = (rev_append s EmptyString ++ acc)%string.
Proof.
  revert acc. induction s as [|c s IH]; intros acc; simpl; [reflexivity|].
  rewrite IH. rewrite (IH (String c EmptyString)).
  rewrite append_assoc'. reflexivity.
Qed.

Lemma rev_append_rev_append s acc :
  rev_append (rev_append s acc) EmptyString
  = (rev_append acc EmptyString ++ s)%string.
Proof.
  revert acc. induction s as [|c s IH]; intros acc; simpl.
  - now rewrite append_nil_r.
  - rewrite IH. simpl. rewrite (rev_append_app acc (String c EmptyString)).
    rewrite append_assoc'. reflexivity.
Qed.

Lemma rev_involutive s : rev (rev s) = s.
Proof. unfold rev. now rewrite rev_append_rev_append. Qed.

Lemma lstrip_all_space s : all_space s = true -> lstrip s = EmptyString.
Proof.
  induction s as [|c s IH]; simpl; [reflexivity|].
  intros H. apply andb_true_iff in H. destruct H as [Hc Hs].
  rewrite Hc. now apply IH.
Qed.

Lemma strip_all_space s : all_space s = true -> strip s = EmptyString.
Proof. intros H. unfold strip. now rewrite lstrip_all_space. Qed.

(** *** The lexer raises nothing but [ValueError] *)

Lemma emit_raises token quoted rest e :
  emit token quoted rest = Raise e -> rest = Raise e.
Proof.
  unfold emit. destruct (negb quoted && is_empty token); [discriminate|].
  destruct rest; simpl; [discriminate | congruence].
Qed.

Lemma lex_raises s :
  forall state token quoted e,
    lex s state token quoted = Raise e -> e = ValueError.
Proof.
  induction s as [|c s IH]; intros state token quoted e; simpl.
  - destruct state; intros H; try congruence;
      apply emit_raises in H; discriminate.
  - destruct state as [| |q|[q|]];
      repeat match goal with
             | |- context [if ?b then _ else _] => destruct b
             end;
      intros H; try (apply emit_raises in H); eauto.
Qed.

Lemma shlex_split_raises s e : shlex_split s = Raise e -> e = ValueError.
Proof. apply lex_raises. Qed.

Lemma tokens_total remaining :
  exists tokens,
    try_except (shlex_split remaining) ValueError (Ok (split_ws remaining))
    = Ok tokens
    /\ (forall e, shlex_split remaining = Raise e ->
                  tokens = split_ws remaining).
Proof.
  destruct (shlex_split remaining) as [l|e] eqn:E; simpl.
  - exists l. split; [reflexivity | discriminate].
  - apply shlex_split_raises in E. subst e. simpl.
    exists (split_ws remaining). split; reflexivity.
Qed.

Lemma _parse_single_command_total cmd_str :
  exists d,
    _parse_single_command cmd_str = Ok d
    /\ redirects d = fst (extract_redirects cmd_str)
    /\ raw d = cmd_str
    /\ background d = false /\ pipe_from d = false /\ pipe_to d = false
    /\ (forall e,
          shlex_split (snd (extract_redirects cmd_str)) = Raise e ->
          match split_ws (snd (extract_redirects cmd_str)) with
          | [] => command d = EmptyString /\ args d = []
          | c :: a => command d = c /\ args d = a
          end).
Proof.
  unfold _parse_single_command.
  destruct (extract_redirects cmd_str) as [reds remaining]. simpl.
  destruct (tokens_total remaining) as [tokens [Ht Hf]]. rewrite Ht. simpl.
  destruct tokens as [|c a]; eexists; (split; [reflexivity|]); simpl;
    repeat (split; [reflexivity|]); intros e He;
    rewrite <- (Hf e He); split; reflexivity.
Qed.

Lemma parse_parts_total parts :
  forall i n bg, exists cmds, parse_parts parts i n bg = Ok cmds.
Proof.
  induction parts as [|part parts IH]; intros i n bg; simpl; [now exists []|].
  destruct (_parse_single_command_total part) as [d [Hd _]]. rewrite Hd. simpl.
  destruct (IH (S i) n bg) as [cmds Hc]. rewrite Hc. simpl. eauto.
Qed.

(** C7: [parse] returns a list of descriptors for every line, and so does
    [_parse_single_command] a descriptor for every stage, whatever the
    quotes and the redirections look like (a filename the lexer rejects is
    dropped inside [extract_redirects]); when the lexer rejects what remains
    of a stage (an unbalanced quote, a trailing backslash), the command and
    its arguments are the whitespace-separated words of what remains. *)
Theorem parse_never_raises :
  (forall line, exists cmds, parse line = Ok cmds)
  /\ (forall cmd_str, exists d,
        _parse_single_command cmd_str = Ok d
        /\ raw d = cmd_str
        /\ (forall e,
              shlex_split (snd (extract_redirects cmd_str)) = Raise e ->
              match split_ws (snd (extract_redirects cmd_str)) with
              | [] => command d = EmptyString /\ args d = []
              | c :: a => command d = c /\ args d = a
              end)).
Proof.
  split.
  - intros line. unfold parse. destruct (is_empty (strip line)); [now exists []|].
    apply parse_parts_total.
  - intros cmd_str.
    destruct (_parse_single_command_total cmd_str)
      as [d [H1 [_ [H2 [_ [_ [_ H3]]]]]]].
    exists d. auto.
Qed.

(** *** The redirect map *)

Lemma dict_get_set_op (d : list (redirect_op * string)) op v op' :
  dict_get redirect_op_eqb (dict_set redirect_op_eqb d op v) op'
  = if redirect_op_eqb op op' then Some v else dict_get redirect_op_eqb d op'.
Proof.
  assert (Hspec : forall a b, redirect_op_eqb a b = true <-> a = b).
  { intros a b; destruct a, b; simpl; split; congruence. }
  destruct (redirect_op_eqb op op') eqn:E.
  - apply Hspec in E. subst. apply (dict_get_set_eq _ Hspec).
  - apply (dict_get_set_ne _ Hspec). intros ->.
    rewrite (proj2 (Hspec op' op') eq_refl) in E. discriminate.
Qed.

Lemma fold_left_rev {A B : Type} (f : A -> B -> A) (l : list B) (a : A) :
  fold_left f (List.rev l) a = fold_right (fun x acc => f acc x) a l.
Proof.
  induction l as [|x l IH]; simpl; [reflexivity|].
  rewrite fold_left_app. simpl. now rewrite IH.
Qed.

Lemma collect_redirects_leftmost matches op :
  dict_get redirect_op_eqb (collect_redirects matches) op
  = leftmost_filename op matches.
Proof.
  unfold collect_redirects. rewrite fold_left_rev.
  induction matches as [|[op' rest] matches IH]; simpl; [reflexivity|].
  destruct (filename_after rest) as [f|].
  - rewrite dict_get_set_op. destruct (redirect_op_eqb op' op); [reflexivity|].
    exact IH.
  - rewrite IH. now destruct (redirect_op_eqb op' op).
Qed.

(** C4, as stated, fails on the code: the occurrences of an operator are
    processed from right to left, so the filename of the rightmost
    occurrence is the one that is overwritten.  In [cmd > a > b] the map
    holds [a] for the operator, and [b] is left among the arguments. *)
Lemma rightmost_redirection_is_overwritten :
  _parse_single_command "cmd > a > b"
  = Ok (mkDescriptor "cmd" ["b"] [(ROut, "a")] false false false
          "cmd > a > b")
  /\ dict_get redirect_op_eqb
       (redirects (mkDescriptor "cmd" ["b"] [(ROut, "a")] false false false
                     "cmd > a > b")) ROut
     = Some "a".
Proof. split; reflexivity. Qed.

(** C4 (amended): the redirect map of a stage holds, for every operator,
    the filename read behind the leftmost occurrence of the operator that
    has one: the occurrences are processed from the right, each overwriting
    the entry of an occurrence further right. *)
Theorem leftmost_redirection_wins cmd_str d op :
  _parse_single_command cmd_str = Ok d ->
  dict_get redirect_op_eqb (redirects d) op
  = leftmost_filename op (finditer cmd_str 0).
Proof.
  intros Hd.
  destruct (_parse_single_command_total cmd_str) as [d' [Hd' [Hr _]]].
  rewrite Hd in Hd'. injection Hd' as <-. rewrite Hr.
  unfold extract_redirects.
  destruct (finditer cmd_str 0) as [|m ms] eqn:E; [reflexivity|].
  cbn [fst]. apply collect_redirects_leftmost.
Qed.

Lemma leftmost_redirection_wins_witness :
  dict_get redirect_op_eqb
    (redirects (mkDescriptor "cmd" ["b"] [(ROut, "a")] false false false
                  "cmd > a > b")) ROut
  = leftmost_filename ROut (finditer "cmd > a > b" 0).
Proof.
  apply (leftmost_redirection_wins "cmd > a > b"). reflexivity.
Defined.

(** *** Blank lines, pipeline flags *)

(** A line of whitespace only parses to the empty list. *)
Theorem blank_line_parses_to_nothing line :
  all_space line = true -> parse line = Ok [].
Proof.
  intros H. unfold parse. now rewrite (strip_all_space line H).
Qed.

Lemma blank_line_parses_to_nothing_witness : parse "   " = Ok [].
Proof. apply blank_line_parses_to_nothing. reflexivity. Defined.

Lemma parse_parts_flags parts :
  forall i n bg cmds,
    parse_parts parts i n bg = Ok cmds ->
    List.length cmds = List.length parts
    /\ forall k d,
         nth_error cmds k = Some d ->
         pipe_from d = (0 <? i + k)%nat
         /\ pipe_to d = (i + k <? n - 1)%nat
         /\ background d = (bg && (i + k =? n - 1)%nat)
         /\ exists part, nth_error parts k = Some part /\ raw d = part.
Proof.
  induction parts as [|part parts IH]; intros i n bg cmds; simpl.
  - intros [= <-]. split; [reflexivity|]. intros [|k] d; discriminate.
  - destruct (_parse_single_command_total part) as [d0 [Hd0 [_ [Hraw _]]]].
    rewrite Hd0. simpl.
    destruct (parse_parts parts (S i) n bg) as [rest|e] eqn:Er; [|discriminate].
    simpl. intros [= <-]. destruct (IH _ _ _ _ Er) as [Hlen Hk].
    split; [simpl; now rewrite Hlen|].
    intros [|k] d; simpl.
    + intros [= <-]. simpl. rewrite Nat.add_0_r.
      repeat split. exists part. now split.
    + intros Hd. destruct (Hk k d Hd) as [H1 [H2 [H3 H4]]].
      replace (i + S k)%nat with (S i + k)%nat by lia. auto.
Qed.

(** In the list [parse] returns, the stage at position [k] takes its input
    from a pipe exactly when it is not the first, feeds a pipe exactly when
    it is not the last, and is a background stage exactly when the line
    ended in an ampersand and the stage is the last. *)
Theorem pipeline_flags line cmds k d :
  parse line = Ok cmds ->
  nth_error cmds k = Some d ->
  pipe_from d = (0 <? k)%nat
  /\ pipe_to d = (k <? List.length cmds - 1)%nat
  /\ background d
     = (endswith (strip line) "&" && (k =? List.length cmds - 1)%nat).
Proof.
  unfold parse. destruct (is_empty (strip line)).
  - intros [= <-]. destruct k; discriminate.
  - intros Hp Hk. destruct (parse_parts_flags _ _ _ _ _ Hp) as [Hlen Hf].
    destruct (Hf k d Hk) as [H1 [H2 [H3 _]]]. simpl in *.
    rewrite Hlen. auto.
Qed.

Lemma pipeline_flags_witness :
  pipe_from (mkDescriptor "b" [] [] false true true "b") = (0 <? 1)%nat
  /\ pipe_to (mkDescriptor "b" [] [] false true true "b")
     = (1 <? List.length
               [mkDescriptor "a" [] [] false false true "a";
                mkDescriptor "b" [] [] false true true "b";
                mkDescriptor "c" [] [] true true false "c"] - 1)%nat
  /\ background (mkDescriptor "b" [] [] false true true "b")
     = (endswith (strip "a | b | c &") "&"
        && (1 =? List.length
                   [mkDescriptor "a" [] [] false false true "a";
                    mkDescriptor "b" [] [] false true true "b";
                    mkDescriptor "c" [] [] true true false "c"] - 1)%nat).
Proof.
  apply (pipeline_flags "a | b | c &" _ 1); reflexivity.
Defined.

(** *** Splitting at pipes *)

Lemma split_pipes_loop_no_pipe line :
  has_char "|" line = false ->
  forall prev in_quotes quote_char current,
    split_pipes_loop line prev in_quotes quote_char current
    = if is_empty (rev_append line current) then []
      else [strip (rev (rev_append line current))].
Proof.
  induction line as [|c line IH]; intros Hno prev iq qc cur; simpl.
  - reflexivity.
  - simpl in Hno. apply orb_false_iff in Hno. destruct Hno as [Hc Hl].
    rewrite Hc. simpl.
    destruct (is_quote c && match prev with
                            | Some p => negb (Ascii.eqb p "\")
                            | None => true
                            end).
    + destruct (negb iq); [now rewrite IH|].
      destruct qc as [q|]; [destruct (Ascii.eqb c q)|]; now rewrite IH.
    + now rewrite IH.
Qed.

(** A line without a pipe character is one stage: the line itself,
    stripped (no stage at all for the empty line). *)
Theorem line_without_pipe_is_one_stage line :
  has_char "|" line = false ->
  _split_pipes line = if is_empty line then [] else [strip line].
Proof.
  intros H. unfold _split_pipes. rewrite split_pipes_loop_no_pipe by exact H.
  fold (rev line). rewrite rev_involutive.
  destruct line as [|c line]; [reflexivity|].
  unfold rev. simpl. rewrite rev_append_app.
  destruct (rev_append line EmptyString); reflexivity.
Qed.

Lemma line_without_pipe_is_one_stage_witness :
  _split_pipes " ls -l " = [strip " ls -l "].
Proof.
  apply (line_without_pipe_is_one_stage " ls -l "). reflexivity.
Defined.

(** *** Size and duration strings *)

Lemma length_append a b :
  String.length (a ++ b)%string = (String.length a + String.length b)%nat.
Proof. induction a as [|c a IH]; simpl; [reflexivity | now rewrite IH]. Qed.

Lemma rev_append_string a b : rev (a ++ b)%string = (rev b ++ rev a)%string.
Proof.
  unfold rev. induction a as [|c a IH]; simpl.
  - now rewrite append_nil_r.
  - rewrite (rev_append_app (a ++ b)), (rev_append_app a), IH.
    now rewrite append_assoc'.
Qed.

Lemma substring_prefix a b :
  substring 0 (String.length a) (a ++ b)%string = a.
Proof.
  induction a as [|c a IH]; simpl.
  - destruct b; reflexivity.
  - now rewrite IH.
Qed.

Lemma drop_last_append a b :
  drop_last (String.length b) (a ++ b)%string = a.
Proof.
  unfold drop_last. rewrite length_append.
  replace (String.length a + String.length b - String.length b)%nat
    with (String.length a) by lia.
  apply substring_prefix.
Qed.

Lemma prefix_append a b : String.prefix a (a ++ b)%string = true.
Proof.
  induction a as [|c a IH]; simpl; [now destruct b|].
  destruct (ascii_dec c c); [exact IH | congruence].
Qed.

Lemma endswith_append a b : endswith (a ++ b)%string b = true.
Proof. unfold endswith. rewrite rev_append_string. apply prefix_append. Qed.

Lemma last_char_some s c : exists x, last_char (String c s) = Some x.
Proof.
  revert c. induction s as [|y s IH]; intros c; [now exists c|].
  destruct (IH y) as [x Hx]. exists x. exact Hx.
Qed.

Lemma last_char_cons c s :
  last_char (String c s)
  = match last_char s with Some x => Some x | None => Some c end.
Proof.
  destruct s as [|y s]; [reflexivity|].
  destruct (last_char_some s y) as [x Hx].
  change (last_char (String c (String y s))) with (last_char (String y s)).
  now rewrite Hx.
Qed.

Lemma last_char_append a b :
  last_char (a ++ b)%string
  = match last_char b with Some c => Some c | None => last_char a end.
Proof.
  induction a as [|c a IH].
  - simpl. now destruct (last_char b).
  - change (String c a ++ b)%string with (String c (a ++ b)%string).
    rewrite !last_char_cons, IH.
    destruct (last_char b); [reflexivity|]. reflexivity.
Qed.

Lemma last_char_snoc a c : last_char (a ++ String c EmptyString)%string = Some c.
Proof. now rewrite last_char_append. Qed.

Lemma snoc_of_last s c :
  last_char s = Some c -> exists a, s = (a ++ String c EmptyString)%string.
Proof.
  induction s as [|x s IH]; simpl; [discriminate|].
  destruct s as [|y s'].
  - intros [= ->]. now exists EmptyString.
  - intros H. destruct (IH H) as [a Ha]. exists (String x a). simpl.
    now rewrite <- Ha.
Qed.

Lemma rev_head s c :
  last_char s = Some c -> exists t, rev s = String c t.
Proof.
  intros H. destruct (snoc_of_last s c H) as [a ->].
  rewrite rev_append_string. simpl. eauto.
Qed.

Lemma lstrip_number_keeps_last s c :
  is_number_space c = false -> last_char s = Some c ->
  last_char (lstrip_number s) = Some c.
Proof.
  intros Hc. induction s as [|x s IH]; simpl; [discriminate|].
  destruct (is_number_space x) eqn:Ex.
  - destruct s as [|y s']; [intros [= ->]; congruence | exact IH].
  - intros H. exact H.
Qed.

Lemma strip_number_keeps_last s c :
  is_number_space c = false -> last_char s = Some c ->
  last_char (strip_number s) = Some c.
Proof.
  intros Hc H. unfold strip_number.
  apply (lstrip_number_keeps_last s c Hc) in H.
  destruct (rev_head _ c H) as [t Ht].
  rewrite Ht. simpl. rewrite Hc.
  replace (String c t) with (String c EmptyString ++ t)%string by reflexivity.
  rewrite <- (rev_involutive t) at 1.
  change (String c EmptyString) with (rev (String c EmptyString)).
  rewrite <- rev_append_string, rev_involutive.
  apply last_char_snoc.
Qed.

Lemma last_char_lower s :
  last_char (lower s) = option_map lower_char (last_char s).
Proof.
  induction s as [|c s IH]; simpl; [reflexivity|].
  destruct s; simpl in *; [reflexivity | exact IH].
Qed.

Lemma digits_loop_end n :
  forall s acc count a k rest,
    (String.length s <= n)%nat ->
    digits_loop s acc count = (a, k, rest) ->
    rest = s \/ exists pre, s = (pre ++ rest)%string /\ digit_end pre.
Proof.
  induction n as [|n IH]; intros s acc count a k rest Hn H.
  - destruct s; simpl in Hn; [|lia]. simpl in H. injection H as _ _ <-. now left.
  - destruct s as [|c s]; simpl in H; [injection H as _ _ <-; now left|].
    simpl in Hn.
    destruct (is_digit c) eqn:Ec.
    + right. apply IH in H; [|lia]. destruct H as [-> | [pre [-> Hp]]].
      * exists (String c EmptyString). split; [reflexivity|].
        exists c. now split.
      * exists (String c pre). split; [reflexivity|].
        destruct Hp as [x [Hx Hd]]. exists x. split; [|exact Hd].
        simpl. destruct pre; [discriminate | exact Hx].
    + destruct (Ascii.eqb c "_"); [|injection H as _ _ <-; now left].
      destruct s as [|c2 s2]; [injection H as _ _ <-; now left|].
      destruct (is_digit c2) eqn:Ec2; [|injection H as _ _ <-; now left].
      right. simpl in Hn. apply IH in H; [|lia].
      destruct H as [-> | [pre [-> Hp]]].
      * exists (String c (String c2 EmptyString)). split; [reflexivity|].
        exists c2. now split.
      * exists (String c (String c2 pre)). split; [reflexivity|].
        destruct Hp as [x [Hx Hd]]. exists x. split; [|exact Hd].
        simpl. destruct pre; [discriminate | exact Hx].
Qed.

Lemma digitpart_end s acc a k rest :
  digitpart s acc = Some (a, k, rest) ->
  exists pre, s = (pre ++ rest)%string /\ digit_end pre.
Proof.
  unfold digitpart. destruct s as [|c s]; [discriminate|].
  destruct (is_digit c) eqn:Ec; [|discriminate].
  intros [= H]. apply (digits_loop_end (String.length s)) in H; [|lia].
  destruct H as [-> | [pre [-> Hp]]].
  - exists (String c EmptyString). split; [reflexivity|]. exists c. now split.
  - exists (String c pre). split; [reflexivity|].
    destruct Hp as [x [Hx Hd]]. exists x. split; [|exact Hd].
    simpl. destruct pre; [discriminate | exact Hx].
Qed.

Lemma digit_end_whole s acc a k :
  digitpart s acc = Some (a, k, EmptyString) -> digit_end s.
Proof.
  intros H. apply digitpart_end in H. destruct H as [pre [-> Hp]].
  now rewrite append_nil_r.
Qed.

Lemma digit_end_cons c s : digit_end s -> digit_end (String c s).
Proof.
  intros [x [Hx Hd]]. exists x. split; [|exact Hd].
  simpl. destruct s; [discriminate | exact Hx].
Qed.

Lemma digit_end_app a b : digit_end b -> digit_end (a ++ b)%string.
Proof.
  intros [x [Hx Hd]]. exists x. split; [|exact Hd].
  now rewrite last_char_append, Hx.
Qed.

Lemma read_exponent_end s x :
  read_exponent s = Some x -> s = EmptyString \/ digit_end s.
Proof.
  unfold read_exponent. destruct s as [|c s]; [now left|].
  destruct (Ascii.eqb c "e" || Ascii.eqb c "E"); [|discriminate].
  destruct (read_sign s) as [neg s1] eqn:Es.
  destruct (digitpart s1 0) as [[[v k] rest]|] eqn:Ed; [|discriminate].
  destruct rest; [|discriminate]. intros _. right.
  apply digit_end_whole in Ed. apply digit_end_cons.
  unfold read_sign in Es. destruct s as [|y s']; [now injection Es as _ <-|].
  destruct (Ascii.eqb y "-"); [injection Es as _ <-; now apply digit_end_cons|].
  destruct (Ascii.eqb y "+"); [injection Es as _ <-; now apply digit_end_cons|].
  now injection Es as _ <-.
Qed.

(** A text [read_floatnumber] accepts ends with a digit or a point. *)
Lemma read_floatnumber_end s r :
  read_floatnumber s = Some r ->
  exists c, last_char s = Some c /\ (is_digit c || Ascii.eqb c ".") = true.
Proof.
  assert (D : forall t, digit_end t ->
            exists c, last_char t = Some c
                      /\ (is_digit c || Ascii.eqb c ".") = true).
  { intros t [c [Hc Hd]]. exists c. now rewrite Hd. }
  assert (P : forall t, last_char (t ++ ".")%string = Some "."%char).
  { intros t. apply last_char_snoc. }
  unfold read_floatnumber.
  destruct (digitpart s 0) as [[[ip k0] rest]|] eqn:Ed.
  - apply digitpart_end in Ed. destruct Ed as [pre [-> Hpre]].
    destruct rest as [|c rest1].
    + intros _. rewrite append_nil_r. now apply D.
    + destruct (Ascii.eqb c ".") eqn:Ec.
      * apply Ascii.eqb_eq in Ec. subst c.
        destruct (digitpart rest1 ip) as [[[m k] rest2]|] eqn:Ed2.
        -- apply digitpart_end in Ed2. destruct Ed2 as [pre2 [-> Hpre2]].
           destruct (read_exponent rest2) as [x|] eqn:Ex; [|discriminate].
           intros _. apply read_exponent_end in Ex. apply D.
           apply digit_end_app, digit_end_cons.
           destruct Ex as [-> | Hx];
             [now rewrite append_nil_r | now apply digit_end_app].
        -- destruct (read_exponent rest1) as [x|] eqn:Ex; [|discriminate].
           intros _. apply read_exponent_end in Ex. destruct Ex as [-> | Hx].
           ++ exists "."%char. split; [apply last_char_append | reflexivity].
           ++ apply D. now apply digit_end_app, digit_end_cons.
      * destruct (read_exponent (String c rest1)) as [x|] eqn:Ex; [|discriminate].
        intros _. apply read_exponent_end in Ex.
        destruct Ex as [Hx | Hx]; [discriminate|].
        apply D. now apply digit_end_app.
  - destruct s as [|c rest1]; [discriminate|].
    destruct (Ascii.eqb c "."); [|discriminate].
    destruct (digitpart rest1 0) as [[[m k] rest2]|] eqn:Ed2; [|discriminate].
    apply digitpart_end in Ed2. destruct Ed2 as [pre2 [-> Hpre2]].
    destruct (read_exponent rest2) as [x|] eqn:Ex; [|discriminate].
    intros _. apply read_exponent_end in Ex. apply D. apply digit_end_cons.
    destruct Ex as [-> | Hx];
      [now rewrite append_nil_r | now apply digit_end_app].
Qed.

Lemma float_of_str_raises s e : float_of_str s = Raise e -> e = ValueError.
Proof.
  unfold float_of_str. destruct (read_sign (strip_number s)) as [neg body].
  destruct (_ || _); [discriminate|].
  destruct (String.eqb _ _); [discriminate|].
  destruct (read_floatnumber body) as [[m x]|]; [|congruence].
  destruct (0 <=? x); discriminate.
Qed.

Lemma int_of_float_raises x e :
  int_of_float x = Raise e -> e = ValueError \/ e = OverflowError.
Proof. destruct x; simpl; intros H; inversion H; auto. Qed.

Lemma last_char_of_eq s t c :
  String.eqb s t = true -> last_char t = Some c -> last_char s = Some c.
Proof. intros H. apply String.eqb_eq in H. now subst. Qed.

(** A text [float] accepts ends, whitespace apart, with a digit, a point,
    or the last letter of inf, infinity or nan. *)
Lemma float_of_str_end s v :
  float_of_str s = Ok v ->
  exists c, last_char (strip_number s) = Some c /\ float_end c = true.
Proof.
  unfold float_of_str. destruct (read_sign (strip_number s)) as [neg body] eqn:Es.
  assert (Hb : forall c, last_char body = Some c ->
                         last_char (strip_number s) = Some c).
  { intros c Hc. unfold read_sign in Es.
    destruct (strip_number s) as [|x t]; [injection Es as _ <-; exact Hc|].
    destruct (Ascii.eqb x "-");
      [injection Es as _ <-; rewrite last_char_cons; now rewrite Hc|].
    destruct (Ascii.eqb x "+");
      [injection Es as _ <-; rewrite last_char_cons; now rewrite Hc|].
    injection Es as _ <-. exact Hc. }
  assert (Hw : forall w c, String.eqb (lower body) w = true ->
                 last_char w = Some c ->
                 exists x, last_char body = Some x /\ lower_char x = c).
  { intros w c Hw Hc. apply (last_char_of_eq _ _ c Hw) in Hc.
    rewrite last_char_lower in Hc.
    destruct (last_char body) as [x|]; [|discriminate].
    injection Hc as Hc. now exists x. }
  destruct (String.eqb (lower body) "inf") eqn:E1.
  { intros _. destruct (Hw "inf" "f"%char E1 eq_refl) as [x [Hx Hl]].
    exists x. split; [now apply Hb|]. unfold float_end. rewrite Hl.
    simpl. now rewrite !orb_true_r. }
  destruct (String.eqb (lower body) "infinity") eqn:E2.
  { intros _. destruct (Hw "infinity" "y"%char E2 eq_refl) as [x [Hx Hl]].
    exists x. split; [now apply Hb|]. unfold float_end. rewrite Hl.
    simpl. now rewrite !orb_true_r. }
  simpl.
  destruct (String.eqb (lower body) "nan") eqn:E3.
  { intros _. destruct (Hw "nan" "n"%char E3 eq_refl) as [x [Hx Hl]].
    exists x. split; [now apply Hb|]. unfold float_end. rewrite Hl.
    simpl. now rewrite !orb_true_r. }
  destruct (read_floatnumber body) as [r|] eqn:Er; [|discriminate].
  intros _. apply read_floatnumber_end in Er. destruct Er as [c [Hc Hd]].
  exists c. split; [now apply Hb|]. unfold float_end. rewrite Hd. reflexivity.
Qed.

Lemma float_of_str_last s v c :
  float_of_str s = Ok v -> last_char s = Some c -> is_number_space c = false ->
  float_end c = true.
Proof.
  intros Hf Hl Hs. destruct (float_of_str_end s v Hf) as [x [Hx Hd]].
  rewrite (strip_number_keeps_last s c Hs Hl) in Hx. now injection Hx as <-.
Qed.

Lemma float_rejects_end t c :
  is_number_space c = false -> float_end c = false ->
  float_of_str (t ++ String c EmptyString) = Raise ValueError.
Proof.
  intros Hs Hd. destruct (float_of_str _) as [v|e] eqn:E.
  - apply (float_of_str_last _ v c) in E; [congruence | | exact Hs].
    apply last_char_snoc.
  - now apply float_of_str_raises in E; subst.
Qed.

Lemma endswith_last text c t :
  endswith text (t ++ String c EmptyString) = true -> last_char text = Some c.
Proof.
  unfold endswith. rewrite rev_append_string. simpl.
  destruct (rev text) as [|x r] eqn:E; simpl; [discriminate|].
  destruct (ascii_dec c x) as [<-|]; [|discriminate]. intros _.
  rewrite <- (rev_involutive text), E.
  replace (String c r) with (String c EmptyString ++ r)%string by reflexivity.
  rewrite rev_append_string. apply last_char_snoc.
Qed.

Lemma endswith_second text a b :
  endswith (text ++ String b EmptyString)
           (String a (String b EmptyString)) = true ->
  last_char text = Some a.
Proof.
  unfold endswith. rewrite rev_append_string. simpl.
  destruct (ascii_dec b b); [|congruence].
  destruct (rev text) as [|x r] eqn:E; simpl; [discriminate|].
  destruct (ascii_dec a x) as [<-|]; [|discriminate]. intros _.
  rewrite <- (rev_involutive text), E.
  replace (String a r) with (String a EmptyString ++ r)%string by reflexivity.
  rewrite rev_append_string. apply last_char_snoc.
Qed.

(** No unit of the table applies to a text [float] itself accepts. *)
Lemma try_units_of_float text v :
  float_of_str text = Ok v -> try_units memory_units text = Ok None.
Proof.
  intros Hf.
  assert (H : forall unit, endswith text unit = true ->
                last_char unit = Some "B"%char -> False).
  { intros unit He Hl. destruct (snoc_of_last unit _ Hl) as [t ->].
    apply endswith_last in He.
    now pose proof (float_of_str_last text v _ Hf He eq_refl). }
  unfold memory_units, try_units.
  repeat match goal with
         | |- context [endswith text ?u] =>
             let E := fresh "E" in
             destruct (endswith text u) eqn:E;
               [exfalso; apply (H u E); reflexivity|]
         end.
  reflexivity.
Qed.

Lemma first_unit_of_float body v (unit : string) (multiplier : Z) units X :
  float_of_str body = Ok v ->
  (match int_of_float (fmul_int v multiplier) with
   | Ok n => Ok (Some n)
   | Raise e =>
       if isinstance e (Exactly ValueError) then try_units units (body ++ unit)
       else Raise e
   end = X) ->
  try_units ((unit, multiplier) :: units) (body ++ unit) = X.
Proof.
  intros Hf <-. simpl. rewrite endswith_append, drop_last_append, Hf.
  reflexivity.
Qed.

Lemma unit_B_fails body (c : ascii) units :
  is_number_space c = false -> float_end c = false ->
  try_units (("B", 1) :: units) (body ++ String c "B")
  = try_units units (body ++ String c "B").
Proof.
  intros Hs Hd. simpl.
  replace (body ++ String c "B")%string
    with ((body ++ String c EmptyString) ++ "B")%string
    by (now rewrite append_assoc').
  rewrite endswith_append.
  change 1%nat with (String.length "B"). rewrite drop_last_append.
  now rewrite float_rejects_end.
Qed.

Lemma try_units_cons_skip (unit : string) (multiplier : Z) units text :
  endswith text unit = false ->
  try_units ((unit, multiplier) :: units) text = try_units units text.
Proof. intros H. simpl. now rewrite H. Qed.

Lemma endswith_other body (a b : ascii) :
  a <> b ->
  endswith (body ++ String a "B") (String b "B") = false.
Proof.
  intros Hne. unfold endswith. rewrite rev_append_string.
  unfold rev. simpl. destruct (ascii_dec b a); [congruence | reflexivity].
Qed.

(** The float prefix of a text does not end with a unit letter. *)
Lemma float_not_before_unit body v (k : ascii) :
  float_of_str body = Ok v ->
  is_number_space k = false -> float_end k = false ->
  endswith (body ++ "B") (String k "B") = false.
Proof.
  intros Hf Hs Hd. destruct (endswith _ _) eqn:E; [|reflexivity].
  apply endswith_second in E.
  pose proof (float_of_str_last body v k Hf E Hs). congruence.
Qed.

Lemma plain_fails text (c : ascii) :
  is_number_space c = false -> float_end c = false ->
  try_except
    (bind (float_of_str (text ++ String c EmptyString))
          (fun value => int_of_float (fmul_int value (1024 ^ 2))))
    ValueError (Ok 0) = Ok 0.
Proof. intros Hs Hd. now rewrite float_rejects_end. Qed.

Lemma converted_cases v multiplier :
  converted v multiplier
  = match int_of_float (fmul_int v multiplier) with
    | Ok n => Ok n
    | Raise e => if isinstance e (Exactly ValueError) then Ok 0 else Raise e
    end.
Proof.
  unfold converted. destruct (int_of_float _) as [n|e] eqn:E; [reflexivity|].
  apply int_of_float_raises in E. destruct E as [-> | ->]; reflexivity.
Qed.

Lemma _parse_memory_with_unit s body unit multiplier v :
  In (unit, multiplier) memory_units ->
  upper s = (body ++ unit)%string ->
  float_of_str body = Ok v ->
  _parse_memory s = converted v multiplier.
Proof.
  intros Hin Hu Hf.
  unfold _parse_memory. rewrite Hu, converted_cases.
  assert (Hplain : forall t : string,
             last_char t = Some "B"%char ->
             try_except
               (bind (float_of_str (body ++ t))
                  (fun value => int_of_float (fmul_int value (1024 ^ 2))))
               ValueError (Ok 0) = Ok 0).
  { intros t Ht. destruct (snoc_of_last t _ Ht) as [a ->].
    rewrite <- append_assoc'. now apply plain_fails. }
  unfold memory_units in *.
  destruct Hin as [H|[H|[H|[H|[H|[]]]]]];
    pose proof (f_equal fst H) as H1; pose proof (f_equal snd H) as H2;
    cbn [fst snd] in H1, H2; subst unit multiplier; clear H.
  - (* B *)
    erewrite first_unit_of_float; [|exact Hf | reflexivity].
    destruct (int_of_float (fmul_int v 1)) as [n|e]; [reflexivity|].
    destruct (isinstance e (Exactly ValueError)); [|reflexivity].
    rewrite !try_units_cons_skip
      by (apply (float_not_before_unit body v); (exact Hf || reflexivity)).
    cbn [try_units bind]. now apply Hplain.
  - (* KB *)
    rewrite unit_B_fails by reflexivity.
    erewrite first_unit_of_float; [|exact Hf | reflexivity].
    destruct (int_of_float (fmul_int v 1024)) as [n|e]; [reflexivity|].
    destruct (isinstance e (Exactly ValueError)); [|reflexivity].
    rewrite !try_units_cons_skip by (apply endswith_other; discriminate).
    cbn [try_units bind]. now apply Hplain.
  - (* MB *)
    rewrite unit_B_fails by reflexivity.
    rewrite try_units_cons_skip by (apply endswith_other; discriminate).
    erewrite first_unit_of_float; [|exact Hf | reflexivity].
    destruct (int_of_float (fmul_int v (1024 ^ 2))) as [n|e]; [reflexivity|].
    destruct (isinstance e (Exactly ValueError)); [|reflexivity].
    rewrite !try_units_cons_skip by (apply endswith_other; discriminate).
    cbn [try_units bind]. now apply Hplain.
  - (* GB *)
    rewrite unit_B_fails by reflexivity.
    rewrite !try_units_cons_skip by (apply endswith_other; discriminate).
    erewrite first_unit_of_float; [|exact Hf | reflexivity].
    destruct (int_of_float (fmul_int v (1024 ^ 3))) as [n|e]; [reflexivity|].
    destruct (isinstance e (Exactly ValueError)); [|reflexivity].
    rewrite !try_units_cons_skip by (apply endswith_other; discriminate).
    cbn [try_units bind]. now apply Hplain.
  - (* TB *)
    rewrite unit_B_fails by reflexivity.
    rewrite !try_units_cons_skip by (apply endswith_other; discriminate).
    erewrite first_unit_of_float; [|exact Hf | reflexivity].
    destruct (int_of_float (fmul_int v (1024 ^ 4))) as [n|e]; [reflexivity|].
    destruct (isinstance e (Exactly ValueError)); [|reflexivity].
    cbn [try_units bind]. now apply Hplain.
Qed.

Lemma _parse_memory_bare s v :
  float_of_str (upper s) = Ok v -> _parse_memory s = converted v (1024 ^ 2).
Proof.
  intros Hf. unfold _parse_memory.
  rewrite (try_units_of_float _ v Hf). simpl. rewrite Hf. simpl.
  rewrite converted_cases.
  destruct (int_of_float _) as [n|e]; reflexivity.
Qed.

(** A size with a unit: when the upper-cased text is a text [float]
    accepts followed by B, KB, MB, GB or TB, the value is multiplied by the
    multiplier of that unit, although the table tests B first.  A bare
    number counts megabytes. *)
Theorem memory_unit_is_applied :
  (forall s body unit multiplier v,
      In (unit, multiplier) memory_units ->
      upper s = (body ++ unit)%string ->
      float_of_str body = Ok v ->
      _parse_memory s = converted v multiplier)
  /\ (forall s v,
        float_of_str (upper s) = Ok v ->
        _parse_memory s = converted v (1024 ^ 2)).
Proof.
  split.
  - intros s body unit multiplier v. apply _parse_memory_with_unit.
  - intros s v. apply _parse_memory_bare.
Qed.

Lemma memory_unit_is_applied_witness :
  _parse_memory "8gb" = Ok (8 * 1024 ^ 3)
  /\ _parse_memory "1.5Kb" = Ok 1536
  /\ _parse_memory "512" = Ok (512 * 1024 ^ 2)
  /\ _parse_memory "nanMB" = Ok 0.
Proof.
  split; [|split; [|split]].
  - apply (proj1 memory_unit_is_applied "8gb" "8" "GB" (1024 ^ 3)
             (FFin false 4503599627370496 (-49)));
      [simpl; tauto | reflexivity | reflexivity].
  - apply (proj1 memory_unit_is_applied "1.5Kb" "1.5" "KB" 1024
             (FFin false 6755399441055744 (-52)));
      [simpl; tauto | reflexivity | reflexivity].
  - apply (proj2 memory_unit_is_applied "512"
             (FFin false 4503599627370496 (-43))). reflexivity.
  - apply (proj1 memory_unit_is_applied "nanMB" "NAN" "MB" (1024 ^ 2) FNan);
      [simpl; tauto | reflexivity | reflexivity].
Defined.

Lemma try_units_raises units text e :
  try_units units text = Raise e -> e = OverflowError.
Proof.
  induction units as [|[unit multiplier] units IH]; simpl; [discriminate|].
  destruct (endswith text unit); [|exact IH].
  destruct (float_of_str _) as [v|e1] eqn:Ef; simpl.
  - destruct (int_of_float _) as [n|e2] eqn:Ei; [discriminate|].
    apply int_of_float_raises in Ei. destruct Ei as [-> | ->]; simpl;
      [exact IH | congruence].
  - apply float_of_str_raises in Ef. subst e1. simpl. exact IH.
Qed.

Lemma plain_raises text (f : pyfloat -> result Z) e :
  (forall v e', f v = Raise e' -> e' = ValueError \/ e' = OverflowError) ->
  try_except (bind (float_of_str text) f) ValueError (Ok 0) = Raise e ->
  e = OverflowError.
Proof.
  intros Hf. destruct (float_of_str text) as [v|e1] eqn:Ef; simpl.
  - destruct (f v) as [n|e2] eqn:Ei; simpl; [discriminate|].
    apply Hf in Ei. destruct Ei as [-> | ->]; simpl; congruence.
  - apply float_of_str_raises in Ef. subst e1. simpl. discriminate.
Qed.

Lemma no_unit_applies text :
  endswith text "B" = false -> try_units memory_units text = Ok None.
Proof.
  intros HB.
  assert (H : forall unit, endswith text unit = true ->
                last_char unit = Some "B"%char -> False).
  { intros unit He Hl. destruct (snoc_of_last unit _ Hl) as [t ->].
    apply endswith_last in He.
    destruct (snoc_of_last text _ He) as [t' ->].
    now rewrite (endswith_append t' "B") in HB. }
  unfold memory_units, try_units.
  repeat match goal with
         | |- context [endswith text ?u] =>
             let E := fresh "E" in
             destruct (endswith text u) eqn:E;
               [exfalso; apply (H u E); reflexivity|]
         end.
  reflexivity.
Qed.

Lemma _parse_memory_raises s e : _parse_memory s = Raise e -> e = OverflowError.
Proof.
  unfold _parse_memory.
  destruct (try_units memory_units (upper s)) as [[n|]|e1] eqn:Et; simpl.
  - discriminate.
  - apply plain_raises. intros v e'. apply int_of_float_raises.
  - intros [= <-]. now apply try_units_raises in Et.
Qed.

Lemma _parse_time_raises s e : _parse_time s = Raise e -> e = OverflowError.
Proof.
  unfold _parse_time.
  destruct (try_units time_units (lower s)) as [[n|]|e1] eqn:Et; simpl.
  - discriminate.
  - apply plain_raises. intros v e'. apply int_of_float_raises.
  - intros [= <-]. now apply try_units_raises in Et.
Qed.

Lemma substring_is_prefix k :
  forall s, exists rest, s = (substring 0 k s ++ rest)%string.
Proof.
  induction k as [|k IH]; intros s.
  - exists s. destruct s; reflexivity.
  - destruct s as [|c s]; [now exists EmptyString|].
    destruct (IH s) as [rest H]. exists rest. simpl. now rewrite <- H.
Qed.

Lemma try_units_no_number units text :
  (forall body rest,
      text = (body ++ rest)%string -> float_of_str body = Raise ValueError) ->
  try_units units text = Ok None.
Proof.
  intros H. induction units as [|[unit multiplier] units IH]; [reflexivity|].
  cbn [try_units]. destruct (endswith text unit); [|exact IH].
  destruct (substring_is_prefix
              (String.length text - String.length unit) text) as [rest Hr].
  unfold drop_last. rewrite (H _ rest Hr). simpl. exact IH.
Qed.

(** [_parse_memory] and [_parse_time] return, or raise [OverflowError]:
    a text that is no number (no part of it up to a unit is a text [float]
    accepts) gives 0, the [ValueError] being caught; but an infinite value
    reaches [int] and its [OverflowError] leaves the function, as it does
    for every text without unit that [float] reads as an infinity. *)
Theorem size_parsers_raise_only_overflow :
  (forall s e, _parse_memory s = Raise e -> e = OverflowError)
  /\ (forall s e, _parse_time s = Raise e -> e = OverflowError)
  /\ (forall s neg,
        endswith (upper s) "B" = false ->
        float_of_str (upper s) = Ok (FInf neg) ->
        _parse_memory s = Raise OverflowError)
  /\ (forall s,
        (forall body rest,
            upper s = (body ++ rest)%string ->
            float_of_str body = Raise ValueError) ->
        _parse_memory s = Ok 0)
  /\ (forall s,
        (forall body rest,
            lower s = (body ++ rest)%string ->
            float_of_str body = Raise ValueError) ->
        _parse_time s = Ok 0).
Proof.
  split; [exact _parse_memory_raises | split; [exact _parse_time_raises|]].
  split; [|split].
  - intros s neg HB Hf. unfold _parse_memory.
    rewrite (no_unit_applies _ HB). simpl. rewrite Hf. reflexivity.
  - intros s H. unfold _parse_memory.
    rewrite (try_units_no_number _ _ H). simpl.
    now rewrite (H (upper s) EmptyString (eq_sym (append_nil_r _))).
  - intros s H. unfold _parse_time.
    rewrite (try_units_no_number _ _ H). simpl.
    now rewrite (H (lower s) EmptyString (eq_sym (append_nil_r _))).
Qed.

Lemma size_parsers_raise_only_overflow_witness :
  _parse_memory "-Infinity" = Raise OverflowError
  /\ _parse_memory "abc" = Ok 0
  /\ _parse_time "soon" = Ok 0.
Proof.
  split; [|split].
  - apply (proj1 (proj2 (proj2 size_parsers_raise_only_overflow))
             "-Infinity" true); reflexivity.
  - apply (proj1 (proj2 (proj2 (proj2 size_parsers_raise_only_overflow)))
             "abc").
    intros body rest H. simpl in H.
    repeat (destruct body as [|? body]; [reflexivity|];
            simpl in H; injection H as <- H).
    destruct body; [reflexivity | discriminate H].
  - apply (proj2 (proj2 (proj2 (proj2 size_parsers_raise_only_overflow)))
             "soon").
    intros body rest H. simpl in H.
    repeat (destruct body as [|? body]; [reflexivity|];
            simpl in H; injection H as <- H).
    destruct body; [reflexivity | discriminate H].
Defined.

(** *** Letter case *)

Lemma upper_char_idem c : upper_char (upper_char c) = upper_char c.
Proof. destruct c as [[] [] [] [] [] [] [] []]; reflexivity. Qed.

Lemma upper_lower_char c : upper_char (lower_char c) = upper_char c.
Proof. destruct c as [[] [] [] [] [] [] [] []]; reflexivity. Qed.

Lemma lower_char_idem c : lower_char (lower_char c) = lower_char c.
Proof. destruct c as [[] [] [] [] [] [] [] []]; reflexivity. Qed.

Lemma lower_upper_char c : lower_char (upper_char c) = lower_char c.
Proof. destruct c as [[] [] [] [] [] [] [] []]; reflexivity. Qed.

Lemma upper_idem s : upper (upper s) = upper s.
Proof.
  induction s as [|c s IH]; simpl; [reflexivity|].
  now rewrite upper_char_idem, IH.
Qed.

Lemma upper_lower s : upper (lower s) = upper s.
Proof.
  induction s as [|c s IH]; simpl; [reflexivity|].
  now rewrite upper_lower_char, IH.
Qed.

Lemma lower_idem s : lower (lower s) = lower s.
Proof.
  induction s as [|c s IH]; simpl; [reflexivity|].
  now rewrite lower_char_idem, IH.
Qed.

Lemma lower_upper s : lower (upper s) = lower s.
Proof.
  induction s as [|c s IH]; simpl; [reflexivity|].
  now rewrite lower_upper_char, IH.
Qed.

(** The size and duration parsers do not see the case of the letters: a
    text, its upper-case form and its lower-case form give the same
    result. *)
Theorem size_parsers_ignore_case s :
  _parse_memory (upper s) = _parse_memory s
  /\ _parse_memory (lower s) = _parse_memory s
  /\ _parse_time (upper s) = _parse_time s
  /\ _parse_time (lower s) = _parse_time s.
Proof.
  unfold _parse_memory, _parse_time.
  now rewrite upper_idem, upper_lower, lower_idem, lower_upper.
Qed.

(** *** Resource options *)

Lemma set_option_raises o name value e :
  set_option o name value = Some (Raise e) -> e = OverflowError.
Proof.
  unfold set_option.
  repeat match goal with
         | |- context [if ?b then _ else _] => destruct b
         end; try discriminate.
  - destruct (_parse_memory value) as [n|e1] eqn:E; simpl; [discriminate|].
    intros [= <-]. now apply _parse_memory_raises in E.
  - destruct (_parse_time value) as [n|e1] eqn:E; simpl; [discriminate|].
    intros [= <-]. now apply _parse_time_raises in E.
Qed.

Lemma parse_hpc_loop_cons arg rest o :
  parse_hpc_loop (arg :: rest) o
  = let pass :=
      bind (parse_hpc_loop rest o) (fun r => Ok (fst r, arg :: snd r)) in
    if startswith arg "--" then
      match rest with
      | value :: rest' =>
          match set_option o (drop 2 arg) value with
          | Some (Ok o') => parse_hpc_loop rest' o'
          | Some (Raise e) => Raise e
          | None => pass
          end
      | [] => pass
      end
    else pass.
Proof. reflexivity. Qed.

Lemma parse_hpc_loop_props n :
  forall args o,
    (List.length args <= n)%nat ->
    (forall e, parse_hpc_loop args o = Raise e -> e = OverflowError)
    /\ (forall o' remaining,
          parse_hpc_loop args o = Ok (o', remaining) ->
          (List.length remaining <= List.length args)%nat
          /\ incl remaining args)
    /\ (Forall (fun a => startswith a "--" = false) args ->
        parse_hpc_loop args o = Ok (o, args)).
Proof.
  induction n as [|n IH]; intros args o Hn.
  - destruct args; [|simpl in Hn; lia]. simpl.
    split; [discriminate|]. split; [|reflexivity].
    intros o' r [= <- <-]. split; [simpl; lia | apply incl_refl].
  - destruct args as [|arg rest].
    { simpl. split; [discriminate|]. split; [|reflexivity].
      intros o' r [= <- <-]. split; [simpl; lia | apply incl_refl]. }
    rewrite parse_hpc_loop_cons. cbv zeta. simpl in Hn.
    assert (Hpass :
      (forall e,
          bind (parse_hpc_loop rest o) (fun r => Ok (fst r, arg :: snd r))
          = Raise e -> e = OverflowError)
      /\ (forall o' remaining,
            bind (parse_hpc_loop rest o) (fun r => Ok (fst r, arg :: snd r))
            = Ok (o', remaining) ->
            (List.length remaining <= S (List.length rest))%nat
            /\ incl remaining (arg :: rest))).
    { destruct (IH rest o ltac:(lia)) as [H1 [H2 _]].
      destruct (parse_hpc_loop rest o) as [[o1 r1]|e1]; simpl.
      - split; [discriminate|]. intros o' r [= <- <-].
        destruct (H2 o1 r1 eq_refl) as [Hl Hi]. split; [simpl; lia|].
        intros x [<-|Hx]; [now left | right; now apply Hi].
      - split; [|discriminate]. intros e [= <-]. now apply H1. }
    destruct Hpass as [Hp1 Hp2].
    split; [|split].
    + intros e. destruct (startswith arg "--"); [|apply Hp1].
      destruct rest as [|value rest']; [apply Hp1|].
      destruct (set_option o (drop 2 arg) value) as [[o1|e1]|] eqn:Es;
        [| |apply Hp1].
      * simpl in Hn. apply (IH rest' o1). lia.
      * intros [= <-]. now apply set_option_raises in Es.
    + intros o' remaining. destruct (startswith arg "--"); [|apply Hp2].
      destruct rest as [|value rest']; [apply Hp2|].
      destruct (set_option o (drop 2 arg) value) as [[o1|e1]|] eqn:Es;
        [| discriminate |apply Hp2].
      simpl in Hn. intros H.
      destruct (IH rest' o1 ltac:(lia)) as [_ [H2 _]].
      destruct (H2 _ _ H) as [Hl Hi]. split; [simpl; lia|].
      intros x Hx. right; right. now apply Hi.
    + intros Hall. inversion Hall as [|? ? Ha Hrest]; subst. rewrite Ha.
      destruct (IH rest o ltac:(lia)) as [_ [_ H3]]. now rewrite (H3 Hrest).
Qed.

(** [parse_hpc_options] returns, or raises the [OverflowError] of an
    infinite memory or time value; the arguments it hands back are
    arguments it was given, no more of them; and a list without any token
    that starts with two dashes comes back whole, with the default
    options. *)
Theorem hpc_options_pass_through args :
  (forall e, parse_hpc_options args = Raise e -> e = OverflowError)
  /\ (forall o remaining,
        parse_hpc_options args = Ok (o, remaining) ->
        (List.length remaining <= List.length args)%nat
        /\ incl remaining args)
  /\ (Forall (fun a => startswith a "--" = false) args ->
      parse_hpc_options args = Ok (default_options, args)).
Proof.
  unfold parse_hpc_options.
  apply (parse_hpc_loop_props (List.length args)). lia.
Qed.

Lemma hpc_options_pass_through_witness :
  parse_hpc_options ["python"; "script.py"; "-v"]
  = Ok (default_options, ["python"; "script.py"; "-v"]).
Proof.
  apply (proj2 (proj2 (hpc_options_pass_through
                         ["python"; "script.py"; "-v"]))).
  repeat constructor.
Defined.

(** An integer option whose value is no integer is dropped together with
    the value, and the options stay as they were; a recognised option that
    stands last, without a value, is handed back as an argument. *)
Theorem invalid_integer_option_is_dropped o :
  (forall name value rest,
      name = "cores" \/ name = "nodes" \/ name = "gpu" ->
      int_of_str value = Raise ValueError ->
      parse_hpc_loop (("--" ++ name)%string :: value :: rest) o
      = parse_hpc_loop rest o)
  /\ (forall arg, parse_hpc_loop [arg] o = Ok (o, [arg])).
Proof.
  split.
  - intros name value rest Hname Hv.
    destruct Hname as [-> | [-> | ->]]; simpl; unfold set_option; simpl;
      rewrite Hv; destruct o; reflexivity.
  - intros arg. simpl. destruct (startswith arg "--"); reflexivity.
Qed.

Lemma invalid_integer_option_is_dropped_witness :
  parse_hpc_loop ["--cores"; "many"; "ls"] default_options
  = parse_hpc_loop ["ls"] default_options.
Proof.
  apply (proj1 (invalid_integer_option_is_dropped default_options)
           "cores" "many" ["ls"]); [now left | reflexivity].
Defined.

(** *** Variable expansion *)

Lemma expand_loop_skip env a b :
  expand_loop env (a ++ b)%string (String.length a) = expand_loop env b 0.
Proof. induction a as [|c a IH]; simpl; [now destruct b | exact IH]. Qed.

Lemma expand_no_dollar env text :
  has_char "$" text = false -> expand_loop env text 0 = text.
Proof.
  induction text as [|c text IH]; simpl; [reflexivity|].
  intros H. apply orb_false_iff in H. destruct H as [Hc Ht].
  rewrite Hc. now rewrite IH.
Qed.

Lemma take_name_app name rest :
  all_name_chars name = true -> ends_name rest = true ->
  take_name (name ++ rest)%string = name.
Proof.
  intros Hn Hr. induction name as [|c name IH]; simpl.
  - destruct rest as [|x rest]; [reflexivity|]. simpl in *.
    now destruct (is_name_char x).
  - simpl in Hn. apply andb_true_iff in Hn. destruct Hn as [Hc Hn].
    now rewrite Hc, IH.
Qed.

Lemma name_start_not_brace c : is_name_start c = true -> Ascii.eqb c "{" = false.
Proof.
  destruct c as [[] [] [] [] [] [] [] []]; intros H; try reflexivity;
    vm_compute in H; discriminate.
Qed.

Lemma until_brace_app name rest :
  has_char "}" name = false ->
  until_brace (name ++ String "}" rest)%string = Some name.
Proof.
  induction name as [|c name IH]; simpl; [reflexivity|].
  intros H. apply orb_false_iff in H. destruct H as [Hc Hn].
  now rewrite Hc, IH.
Qed.

Lemma expand_loop_at env c s :
  expand_loop env (String c s) 0
  = match variable_at (String c s) with
    | Some (name, n) => (env_get env name ++ expand_loop env s (n - 1))%string
    | None => String c (expand_loop env s 0)
    end.
Proof. reflexivity. Qed.

Lemma variable_at_name c name rest :
  is_name_start c = true -> all_name_chars name = true ->
  ends_name rest = true ->
  variable_at (String "$" (String c name ++ rest))
  = Some (String c name, S (String.length (String c name))).
Proof.
  intros Hc Hn Hr.
  assert (Hall : all_name_chars (String c name) = true).
  { simpl. unfold is_name_char. now rewrite Hc, Hn. }
  unfold variable_at.
  change (Ascii.eqb "$" "$") with true. cbv iota.
  change (String c name ++ rest)%string with (String c (name ++ rest)%string).
  cbv iota. rewrite (name_start_not_brace c Hc), Hc.
  change (String c (name ++ rest)) with (String c name ++ rest)%string.
  now rewrite (take_name_app _ _ Hall Hr).
Qed.

Lemma variable_at_braces c name rest :
  has_char "}" (String c name) = false ->
  variable_at (String "$" (String "{" (String c name ++ String "}" rest)))
  = Some (String c name, (String.length (String c name) + 3)%nat).
Proof.
  intros Hb. unfold variable_at.
  change (Ascii.eqb "$" "$") with true. cbv iota.
  change (Ascii.eqb "{" "{") with true. cbv iota.
  now rewrite (until_brace_app _ rest Hb).
Qed.

(** [expand_variables] leaves a text without dollar as it is; it replaces
    a reference [$NAME] (the name not going on in what follows) and a
    reference in braces (any non-empty text without closing brace) by the
    value of the variable, or by nothing when the environment has none, and
    goes on with the text behind the reference. *)
Theorem expand_variables_replaces_references env :
  (forall text, has_char "$" text = false -> expand_variables text env = text)
  /\ (forall name rest,
        valid_name name = true -> ends_name rest = true ->
        expand_variables (String "$" (name ++ rest)) env
        = (env_get env name ++ expand_variables rest env)%string)
  /\ (forall name rest,
        name <> EmptyString -> has_char "}" name = false ->
        expand_variables (String "$" (String "{" (name ++ String "}" rest))) env
        = (env_get env name ++ expand_variables rest env)%string).
Proof.
  unfold expand_variables. split; [|split].
  - intros text. apply expand_no_dollar.
  - intros name rest Hv Hr. destruct name as [|c name]; [discriminate|].
    simpl in Hv. apply andb_true_iff in Hv. destruct Hv as [Hc Hn].
    rewrite expand_loop_at, (variable_at_name c name rest Hc Hn Hr).
    replace (S (String.length (String c name)) - 1)%nat
      with (String.length (String c name)) by lia.
    now rewrite expand_loop_skip.
  - intros name rest Hne Hb. destruct name as [|c name]; [congruence|].
    rewrite expand_loop_at, (variable_at_braces c name rest Hb).
    replace (String.length (String c name) + 3 - 1)%nat
      with (String.length (String "{" (String c name ++ "}"))%string)
      by (cbn [String.length]; rewrite length_append; cbn [String.length]; lia).
    replace (String "{" (String c name ++ String "}" rest))
      with ((String "{" (String c name ++ "}")) ++ rest)%string
      by (cbn [append]; now rewrite append_assoc').
    now rewrite expand_loop_skip.
Qed.

Lemma expand_variables_replaces_references_witness :
  expand_variables "$HOME/bin" [("HOME", "/root")]
  = (env_get [("HOME", "/root")] "HOME"
     ++ expand_variables "/bin" [("HOME", "/root")])%string.
Proof.
  apply (proj1 (proj2 (expand_variables_replaces_references
                         [("HOME", "/root")])) "HOME" "/bin"); reflexivity.
Defined.

Lemma endswith_single_other body (a b : ascii) :
  a <> b ->
  endswith (body ++ String a EmptyString) (String b EmptyString) = false.
Proof.
  intros Hne. unfold endswith. rewrite rev_append_string.
  unfold rev. simpl. destruct (ascii_dec b a); [congruence | reflexivity].
Qed.

Lemma time_units_of_float text v :
  float_of_str text = Ok v -> try_units time_units text = Ok None.
Proof.
  intros Hf.
  assert (H : forall c, endswith text (String c EmptyString) = true ->
                is_number_space c = false -> float_end c = false -> False).
  { intros c He Hs Hd.
    apply (endswith_last text c EmptyString) in He.
    pose proof (float_of_str_last text v c Hf He Hs). congruence. }
  unfold time_units, try_units.
  repeat match goal with
         | |- context [endswith text ?u] =>
             let E := fresh "E" in
             destruct (endswith text u) eqn:E;
               [exfalso; apply (H _ E); reflexivity|]
         end.
  reflexivity.
Qed.

Lemma plain_time_fails text (c : ascii) :
  is_number_space c = false -> float_end c = false ->
  try_except
    (bind (float_of_str (text ++ String c EmptyString)) int_of_float)
    ValueError (Ok 0) = Ok 0.
Proof. intros Hs Hd. now rewrite float_rejects_end. Qed.

Lemma _parse_time_with_unit s body unit multiplier v :
  In (unit, multiplier) time_units ->
  lower s = (body ++ unit)%string ->
  float_of_str body = Ok v ->
  _parse_time s = converted v multiplier.
Proof.
  intros Hin Hu Hf.
  unfold _parse_time. rewrite Hu, converted_cases.
  unfold time_units in *.
  destruct Hin as [H|[H|[H|[H|[]]]]];
    pose proof (f_equal fst H) as H1; pose proof (f_equal snd H) as H2;
    cbn [fst snd] in H1, H2; subst unit multiplier; clear H.
  - erewrite first_unit_of_float; [|exact Hf | reflexivity].
    destruct (int_of_float (fmul_int v 1)) as [n|e]; [reflexivity|].
    destruct (isinstance e (Exactly ValueError)); [|reflexivity].
    rewrite !try_units_cons_skip
      by (apply endswith_single_other; discriminate).
    cbn [try_units bind]. now apply plain_time_fails.
  - rewrite try_units_cons_skip
      by (apply endswith_single_other; discriminate).
    erewrite first_unit_of_float; [|exact Hf | reflexivity].
    destruct (int_of_float (fmul_int v 60)) as [n|e]; [reflexivity|].
    destruct (isinstance e (Exactly ValueError)); [|reflexivity].
    rewrite !try_units_cons_skip
      by (apply endswith_single_other; discriminate).
    cbn [try_units bind]. now apply plain_time_fails.
  - rewrite !try_units_cons_skip
      by (apply endswith_single_other; discriminate).
    erewrite first_unit_of_float; [|exact Hf | reflexivity].
    destruct (int_of_float (fmul_int v 3600)) as [n|e]; [reflexivity|].
    destruct (isinstance e (Exactly ValueError)); [|reflexivity].
    rewrite !try_units_cons_skip
      by (apply endswith_single_other; discriminate).
    cbn [try_units bind]. now apply plain_time_fails.
  - rewrite !try_units_cons_skip
      by (apply endswith_single_other; discriminate).
    erewrite first_unit_of_float; [|exact Hf | reflexivity].
    destruct (int_of_float (fmul_int v 86400)) as [n|e]; [reflexivity|].
    destruct (isinstance e (Exactly ValueError)); [|reflexivity].
    cbn [try_units bind]. now apply plain_time_fails.
Qed.

Lemma _parse_time_bare s v :
  float_of_str (lower s) = Ok v -> _parse_time s = truncated v.
Proof.
  intros Hf. unfold _parse_time, truncated.
  rewrite (time_units_of_float _ v Hf). simpl. rewrite Hf. simpl.
  destruct (int_of_float v) as [n|e] eqn:E; [reflexivity|].
  apply int_of_float_raises in E. destruct E as [-> | ->]; reflexivity.
Qed.

(** A duration with a unit: when the lower-cased text is a text [float]
    accepts followed by s, m, h or d, the value is multiplied by the
    multiplier of that unit; a bare number counts seconds. *)
Theorem time_unit_is_applied :
  (forall s body unit multiplier v,
      In (unit, multiplier) time_units ->
      lower s = (body ++ unit)%string ->
      float_of_str body = Ok v ->
      _parse_time s = converted v multiplier)
  /\ (forall s v,
        float_of_str (lower s) = Ok v -> _parse_time s = truncated v).
Proof.
  split.
  - intros s body unit multiplier v. apply _parse_time_with_unit.
  - intros s v. apply _parse_time_bare.
Qed.

Lemma time_unit_is_applied_witness :
  _parse_time "2H" = Ok 7200
  /\ _parse_time "1.5m" = Ok 90
  /\ _parse_time " 45 " = Ok 45
  /\ _parse_time "nand" = Ok 0.
Proof.
  split; [|split; [|split]].
  - apply (proj1 time_unit_is_applied "2H" "2" "h" 3600
             (FFin false 4503599627370496 (-51)));
      [simpl; tauto | reflexivity | reflexivity].
  - apply (proj1 time_unit_is_applied "1.5m" "1.5" "m" 60
             (FFin false 6755399441055744 (-52)));
      [simpl; tauto | reflexivity | reflexivity].
  - apply (proj2 time_unit_is_applied " 45 "
             (FFin false 6333186975989760 (-47))). reflexivity.
  - apply (proj1 time_unit_is_applied "nand" "nan" "d" 86400 FNan);
      [simpl; tauto | reflexivity | reflexivity].
Defined.

Lemma digit_facts c :
  is_digit c = true ->
  is_number_space c = false /\ Ascii.eqb c "-" = false /\ Ascii.eqb c "+" = false
  /\ Ascii.eqb (lower_char c) "i" = false
  /\ Ascii.eqb (lower_char c) "n" = false
  /\ upper_char c = c /\ lower_char c = c /\ 0 <= digit_value c <= 9.
Proof.
  destruct c as [[] [] [] [] [] [] [] []]; vm_compute; intros H;
    try discriminate H; repeat split; discriminate.
Qed.

Lemma digits_loop_all s : forall acc count,
  all_digits s = true ->
  digits_loop s acc count
  = (decimal_acc s acc, count + Z.of_nat (String.length s), EmptyString).
Proof.
  induction s as [|c s IH]; intros acc count H; simpl in *.
  - now rewrite Z.add_0_r.
  - apply andb_true_iff in H. destruct H as [Hc Hs]. rewrite Hc.
    rewrite IH by exact Hs. f_equal. f_equal. lia.
Qed.

Lemma all_digits_rev_append s : forall acc,
  all_digits (rev_append s acc) = all_digits s && all_digits acc.
Proof.
  induction s as [|c s IH]; intros acc; simpl; [reflexivity|].
  rewrite IH. simpl. destruct (is_digit c), (all_digits s); reflexivity.
Qed.

Lemma lstrip_digits s : all_digits s = true -> lstrip_number s = s.
Proof.
  destruct s as [|c s]; simpl; [reflexivity|]. intros H.
  apply andb_true_iff in H. destruct H as [Hc _].
  now rewrite (proj1 (digit_facts c Hc)).
Qed.

Lemma strip_digits s : all_digits s = true -> strip_number s = s.
Proof.
  intros H. unfold strip_number. rewrite (lstrip_digits s H).
  rewrite lstrip_digits; [apply rev_involutive|].
  unfold rev. rewrite all_digits_rev_append, H. reflexivity.
Qed.

Lemma upper_digits s : all_digits s = true -> upper s = s.
Proof.
  induction s as [|c s IH]; simpl; [reflexivity|]. intros H.
  apply andb_true_iff in H. destruct H as [Hc Hs].
  rewrite (IH Hs). f_equal. apply (digit_facts c Hc).
Qed.

Lemma decimal_acc_bounds s : forall acc,
  all_digits s = true -> 0 <= acc -> 0 <= decimal_acc s acc.
Proof.
  induction s as [|c s IH]; intros acc H Ha;
    cbn [all_digits decimal_acc] in *; [exact Ha|].
  apply andb_true_iff in H. destruct H as [Hc Hs].
  apply IH; [exact Hs|].
  destruct (digit_facts c Hc) as (_ & _ & _ & _ & _ & _ & _ & Hd). lia.
Qed.

(** [float] of a text of digits rounds the number the digits write. *)
Lemma float_of_digits s :
  all_digits s = true -> s <> EmptyString ->
  float_of_str s = Ok (round64 false (decimal_value s * 2 ^ 0) (2 ^ 0)).
Proof.
  intros H Hne. unfold float_of_str. rewrite (strip_digits s H).
  destruct s as [|c s]; [congruence|]. simpl in H.
  apply andb_true_iff in H. destruct H as [Hc Hs].
  destruct (digit_facts c Hc) as (_ & Hm & Hp & Hi & Hn & _).
  unfold read_sign. rewrite Hm, Hp.
  cbn [lower String.eqb]. rewrite Hi, Hn. cbn [orb].
  unfold read_floatnumber, digitpart. rewrite Hc.
  rewrite (digits_loop_all s _ _ Hs).
  change (0 <=? 0) with true. cbv iota.
  reflexivity.
Qed.

(** Rounding keeps an integer that 53 bits and a power of two write. *)
Lemma round64_exact n d N t M j :
  n = N * 2 ^ t -> d = 2 ^ t -> 0 <= t ->
  N = M * 2 ^ j -> 0 <= M < 2 ^ 53 -> 0 <= j -> N < 2 ^ 1024 ->
  holds (round64 false n d) N.
Proof.
  intros -> -> Ht HN HM Hj Hbig.
  assert (Hpt : 0 < 2 ^ t) by now apply Z.pow_pos_nonneg.
  assert (Hpj : 0 < 2 ^ j) by now apply Z.pow_pos_nonneg.
  unfold round64.
  destruct (Z.leb_spec (N * 2 ^ t) 0) as [Hz|Hz].
  { simpl. nia. }
  assert (HNpos : 0 < N) by nia.
  assert (HMpos : 0 < M) by nia.
  rewrite (Z.log2_mul_pow2 N t HNpos Ht), (Z.log2_pow2 t Ht).
  replace (t + Z.log2 N - t) with (Z.log2 N) by lia.
  pose proof (Z.log2_nonneg N) as HL0.
  pose proof (Z.log2_spec N HNpos) as [HL1 HL2].
  assert (HLM : Z.log2 N = j + Z.log2 M).
  { rewrite HN. now apply Z.log2_mul_pow2. }
  assert (HM52 : Z.log2 M <= 52).
  { assert (Z.log2 M < 53); [|lia].
    apply Z.log2_lt_pow2; [exact HMpos | lia]. }
  set (L := Z.log2 N) in *.
  destruct (Z.leb_spec 0 L) as [_|]; [|lia].
  assert (HpL : 0 < 2 ^ L) by now apply Z.pow_pos_nonneg.
  destruct (Z.ltb_spec (N * 2 ^ t) (2 ^ t * 2 ^ L)) as [Hb|_]; [nia|].
  rewrite Z.max_l by lia.
  destruct (Z.leb_spec 0 (L - 52)) as [Hu|Hu].
  - (* the unit in the last place is an integer *)
    set (u := L - 52) in *.
    assert (Hpu : 0 < 2 ^ u) by now apply Z.pow_pos_nonneg.
    assert (HK : N = (M * 2 ^ (j - u)) * 2 ^ u).
    { rewrite HN, <- Z.mul_assoc, <- Z.pow_add_r by lia.
      now replace (j - u + u) with j by lia. }
    set (K := M * 2 ^ (j - u)) in *.
    assert (Hnum : N * 2 ^ t = K * (2 ^ t * 2 ^ u)) by (rewrite HK; ring).
    rewrite Hnum.
    rewrite Z_div_mult by nia. rewrite Z_mod_mult.
    destruct (Z.ltb_spec (2 * 0) (2 ^ t * 2 ^ u)) as [_|]; [|nia].
    rewrite <- HK.
    destruct (Z.leb_spec (2 ^ 1024) N) as [|_]; [lia|].
    unfold holds. destruct (Z.leb_spec 0 u) as [_|]; [|lia].
    now rewrite <- HK.
  - set (u := L - 52) in *.
    assert (Hpu : 0 < 2 ^ (- u)) by (apply Z.pow_pos_nonneg; lia).
    replace (N * 2 ^ t * 2 ^ (- u)) with ((N * 2 ^ (- u)) * 2 ^ t) by ring.
    rewrite Z_div_mult by lia. rewrite Z_mod_mult.
    destruct (Z.ltb_spec (2 * 0) (2 ^ t)) as [_|]; [|lia].
    unfold holds. destruct (Z.leb_spec 0 u) as [|_]; [lia|].
    reflexivity.
Qed.

Lemma fmul_int_exact v N k M j :
  holds v N ->
  N * k = M * 2 ^ j -> 0 <= M < 2 ^ 53 -> 0 <= j -> N * k < 2 ^ 1024 ->
  holds (fmul_int v k) (N * k).
Proof.
  intros Hv HN HM Hj Hbig.
  destruct v as [|neg|[] m e]; try contradiction. unfold holds in Hv.
  unfold fmul_int. destruct (Z.leb_spec 0 e) as [He|He].
  - apply (round64_exact _ _ (N * k) 0 M j); try assumption; try lia;
      try reflexivity.
    all: rewrite <- Hv; change (2 ^ 0) with 1; ring.
  - apply (round64_exact _ _ (N * k) (- e) M j); try assumption; try lia;
      try reflexivity.
    all: rewrite Hv; ring.
Qed.

Lemma int_of_float_exact v N : holds v N -> int_of_float v = Ok N.
Proof.
  destruct v as [|neg|[] m e]; try contradiction. unfold holds, int_of_float.
  destruct (Z.leb_spec 0 e) as [He|He]; intros H.
  - now rewrite H.
  - rewrite H, Z_div_mult; [reflexivity|].
    apply Z.lt_gt, Z.pow_pos_nonneg; lia.
Qed.

Lemma converted_exact v N k M j :
  holds v N ->
  N * k = M * 2 ^ j -> 0 <= M < 2 ^ 53 -> 0 <= j -> N * k < 2 ^ 1024 ->
  converted v k = Ok (N * k).
Proof.
  intros Hv HN HM Hj Hbig. unfold converted.
  now rewrite (int_of_float_exact _ _ (fmul_int_exact v N k M j Hv HN HM Hj Hbig)).
Qed.

Lemma float_of_digits_exact s :
  all_digits s = true -> s <> EmptyString -> decimal_value s < 2 ^ 53 ->
  exists v, float_of_str s = Ok v /\ holds v (decimal_value s).
Proof.
  intros H Hne Hlt. eexists. split; [now apply float_of_digits|].
  pose proof (decimal_acc_bounds s 0 H (Z.le_refl 0)) as H0.
  fold (decimal_value s) in H0.
  apply (round64_exact _ _ (decimal_value s) 0 (decimal_value s) 0);
    try reflexivity; lia.
Qed.

Lemma pow2_bound j : 0 <= j <= 40 -> 2 ^ 53 * 2 ^ j < 2 ^ 1024.
Proof.
  intros H. rewrite <- Z.pow_add_r by lia.
  apply Z.pow_lt_mono_r; lia.
Qed.

(** A text of digits that writes [n < 2^53] holds a float that is [n], and
    a power of two up to [1024^4] times [n] is a float too. *)
Lemma converted_whole s :
  all_digits s = true -> s <> EmptyString -> decimal_value s < 2 ^ 53 ->
  exists v,
    float_of_str s = Ok v /\ holds v (decimal_value s)
    /\ forall k j, k = 2 ^ j -> 0 <= j <= 40 ->
         converted v k = Ok (decimal_value s * k).
Proof.
  intros H Hne Hlt.
  destruct (float_of_digits_exact s H Hne Hlt) as [v [Hf Hv]].
  pose proof (decimal_acc_bounds s 0 H (Z.le_refl 0)) as H0.
  fold (decimal_value s) in H0. set (N := decimal_value s) in *.
  exists v. split; [exact Hf|]. split; [exact Hv|].
  intros k j -> Hj. apply (converted_exact v N _ N j); try lia.
  - exact Hv.
  - pose proof (pow2_bound j Hj).
    assert (0 < 2 ^ j) by (apply Z.pow_pos_nonneg; lia). nia.
Qed.

Lemma _parse_memory_whole s :
  all_digits s = true -> s <> EmptyString -> decimal_value s < 2 ^ 53 ->
  (forall t unit multiplier,
      In (unit, multiplier) memory_units ->
      upper t = (s ++ unit)%string ->
      _parse_memory t = Ok (decimal_value s * multiplier))
  /\ _parse_memory s = Ok (decimal_value s * 1024 ^ 2).
Proof.
  intros H Hne Hlt.
  destruct (converted_whole s H Hne Hlt) as [v [Hf [_ Hmem]]].
  split.
  - intros t unit multiplier Hin Hu.
    rewrite (_parse_memory_with_unit t s unit multiplier v Hin Hu Hf).
    unfold memory_units in Hin.
    destruct Hin as [E|[E|[E|[E|[E|[]]]]]];
      pose proof (f_equal snd E) as E2; cbn [snd] in E2; subst multiplier.
    + now apply (Hmem _ 0).
    + now apply (Hmem _ 10).
    + now apply (Hmem _ 20).
    + now apply (Hmem _ 30).
    + now apply (Hmem _ 40).
  - rewrite (_parse_memory_bare s v) by (now rewrite (upper_digits s H)).
    now apply (Hmem _ 20).
Qed.

(** Whole numbers are converted without error: a text of digits that
    writes [n < 2^53], followed by a memory unit, is [n] times the
    multiplier, to the byte; followed by a time unit, [n] times the
    multiplier when the product is below [2^53]; and bare, [n] megabytes
    or [n] seconds. *)
Theorem whole_sizes_are_exact s :
  all_digits s = true -> s <> EmptyString -> decimal_value s < 2 ^ 53 ->
  (forall t unit multiplier,
      In (unit, multiplier) memory_units ->
      upper t = (s ++ unit)%string ->
      _parse_memory t = Ok (decimal_value s * multiplier))
  /\ _parse_memory s = Ok (decimal_value s * 1024 ^ 2)
  /\ (forall t unit multiplier,
        In (unit, multiplier) time_units ->
        lower t = (s ++ unit)%string ->
        decimal_value s * multiplier < 2 ^ 53 ->
        _parse_time t = Ok (decimal_value s * multiplier))
  /\ _parse_time s = Ok (decimal_value s).
Proof.
  intros H Hne Hlt.
  destruct (_parse_memory_whole s H Hne Hlt) as [Hunit Hbare].
  destruct (converted_whole s H Hne Hlt) as [v [Hf [Hv _]]].
  pose proof (decimal_acc_bounds s 0 H (Z.le_refl 0)) as H0.
  fold (decimal_value s) in H0. set (N := decimal_value s) in *.
  split; [exact Hunit|]. split; [exact Hbare|]. split.
  - intros t unit multiplier Hin Hu Hprod.
    rewrite (_parse_time_with_unit t s unit multiplier v Hin Hu Hf).
    assert (0 < multiplier).
    { unfold time_units in Hin.
      destruct Hin as [E|[E|[E|[E|[]]]]];
        pose proof (f_equal snd E) as E2; cbn [snd] in E2; subst multiplier;
        reflexivity. }
    apply (converted_exact v N _ (N * multiplier) 0);
      try lia; try exact Hv; try nia.
  - rewrite (_parse_time_bare s v).
    + unfold truncated. now rewrite (int_of_float_exact v N Hv).
    + rewrite <- Hf. f_equal. clear - H.
      induction s as [|c s IH]; simpl in *; [reflexivity|].
      apply andb_true_iff in H. destruct H as [Hc Hs].
      rewrite (IH Hs). f_equal. apply (digit_facts c Hc).
Qed.

Lemma whole_sizes_are_exact_witness :
  _parse_memory "16gb" = Ok 17179869184
  /\ _parse_memory "9007199254740991" = Ok (9007199254740991 * 1048576)
  /\ _parse_time "90M" = Ok 5400
  /\ _parse_time "007" = Ok 7.
Proof.
  split; [|split; [|split]].
  - apply (proj1 (whole_sizes_are_exact "16" eq_refl
                    ltac:(discriminate) eq_refl) "16gb" "GB" (1024 ^ 3));
      [simpl; tauto | reflexivity].
  - apply (proj1 (proj2 (whole_sizes_are_exact "9007199254740991" eq_refl
                           ltac:(discriminate) eq_refl))).
  - apply (proj1 (proj2 (proj2 (whole_sizes_are_exact "90" eq_refl
                                  ltac:(discriminate) eq_refl)))
             "90M" "m" 60); [simpl; tauto | reflexivity | reflexivity].
  - apply (proj2 (proj2 (proj2 (whole_sizes_are_exact "007" eq_refl
                                  ltac:(discriminate) eq_refl)))).
Defined.

(** *** The memory option *)



End ParserFacts.
